(** * XPath generator: a shallow embedding of [generateXPath.js] and of the
      selector resolver, with the properties of the specification.

    Layout
    - Part I    strings, characters and regular expressions (the JavaScript
                primitives the generator relies on);
    - Part II   the DOM: elements located in a tree with shadow roots;
    - Part III  the generator, function by function, over an injected
                path-query engine;
    - Part IV   the resolver of compound selectors, the resolver of the test
                suite and the history of saved selectors;
    - Part V    the notions of the specification and of the further
                properties;
    - Part VI   lemmas, the properties of the specification, and further
                properties of the code.

    Strings are sequences of code units; the embedding keeps code units in
    [ascii], so it speaks about Latin-1 text. *)

From Stdlib Require Import List String Ascii Arith Bool Lia ZArith.
From Stdlib Require Import DecimalString DecimalNat.
From Equations Require Import Equations.
Import ListNotations.

Local Open Scope list_scope.
Local Open Scope string_scope.

Set Warnings "-register-all".


(* ===================================================================== *)
(** * Part I: strings, characters, regular expressions                    *)
(* ===================================================================== *)

Module Chars.

Definition code (c : ascii) : nat := nat_of_ascii c.

Definition between (lo hi : nat) (c : ascii) : bool :=
  Nat.leb lo (code c) && Nat.leb (code c) hi.

(** [\d] *)
Definition isDigit : ascii -> bool := between 48 57.
(** [[a-z]] *)
Definition isLower : ascii -> bool := between 97 122.
(** [[A-Z]] *)
Definition isUpper : ascii -> bool := between 65 90.
(** [[a-zA-Z]] *)
Definition isLetter (c : ascii) : bool := isLower c || isUpper c.
(** [[a-zA-Z0-9]] *)
Definition isAlnum (c : ascii) : bool := isLetter c || isDigit c.
(** [[a-zA-Z ]] *)
Definition isLetterOrSpace (c : ascii) : bool := isLetter c || (c =? " ")%char.
(** [[a-fA-F0-9-]] *)
Definition isHexDash (c : ascii) : bool :=
  between 97 102 c || between 65 70 c || isDigit c || (c =? "-")%char.
(** [[a-zA-Z0-9_-]] *)
Definition isNameChar (c : ascii) : bool :=
  isAlnum c || (c =? "_")%char || (c =? "-")%char.
(** [[^']] *)
Definition notQuote (c : ascii) : bool := negb (c =? "'")%char.
Definition isChar (a : ascii) (c : ascii) : bool := (c =? a)%char.
Definition anyChar (_ : ascii) : bool := true.

(** White space of [String.prototype.trim] among the Latin-1 code units:
    TAB, LF, VT, FF, CR, SPACE and NBSP. *)
Definition isSpace (c : ascii) : bool :=
  between 9 13 c || Nat.eqb (code c) 32 || Nat.eqb (code c) 160.

(** ASCII white space, the separators of a [DOMTokenList]. *)
Definition isTokenSeparator (c : ascii) : bool :=
  Nat.eqb (code c) 9 || Nat.eqb (code c) 10 || Nat.eqb (code c) 12 || Nat.eqb (code c) 13
  || Nat.eqb (code c) 32.

(** [toLowerCase] on one Latin-1 code unit: A-Z, and the accented capitals
    U+00C0..U+00DE except the multiplication sign U+00D7. *)
Definition lower (c : ascii) : ascii :=
  if isUpper c then ascii_of_nat (code c + 32)
  else if between 192 222 c && negb (Nat.eqb (code c) 215)
       then ascii_of_nat (code c + 32)
       else c.

End Chars.

Module Str.

Fixpoint map (f : ascii -> ascii) (s : string) : string :=
  match s with
  | EmptyString => EmptyString
  | String c s' => String (f c) (map f s')
  end.

Fixpoint all (p : ascii -> bool) (s : string) : bool :=
  match s with
  | EmptyString => true
  | String c s' => p c && all p s'
  end.

Definition isEmpty (s : string) : bool :=
  match s with EmptyString => true | _ => false end.

(** [s.toLowerCase()] *)
Definition toLowerCase (s : string) : string := map Chars.lower s.

(** [s.includes(c)] for a one-character needle. *)
Fixpoint includes (c : ascii) (s : string) : bool :=
  match s with
  | EmptyString => false
  | String a s' => (a =? c)%char || includes c s'
  end.

(** [s.startsWith(c)] for a one-character prefix. *)
Definition startsWith (c : ascii) (s : string) : bool :=
  match s with
  | String a _ => (a =? c)%char
  | EmptyString => false
  end.

(** [s.split(sep)] for a one-character separator: never empty, the pieces
    between consecutive separators, empty pieces included. *)
Fixpoint split (sep : ascii) (s : string) : list string :=
  match s with
  | EmptyString => [EmptyString]
  | String c s' =>
      if (c =? sep)%char then EmptyString :: split sep s'
      else match split sep s' with
           | [] => [String c EmptyString]
           | piece :: pieces => String c piece :: pieces
           end
  end.

(** [xs.join(sep)] *)
Definition join (sep : string) (xs : list string) : string :=
  String.concat sep xs.

(** [xs.filter(Boolean)] on strings: the empty string is the falsy one. *)
Definition filterBoolean (xs : list string) : list string :=
  List.filter (fun s => negb (isEmpty s)) xs.

Fixpoint trimStart (s : string) : string :=
  match s with
  | EmptyString => EmptyString
  | String c s' => if Chars.isSpace c then trimStart s' else s
  end.

Fixpoint trimEnd (s : string) : string :=
  match s with
  | EmptyString => EmptyString
  | String c s' =>
      let t := trimEnd s' in
      if Chars.isSpace c && isEmpty t then EmptyString else String c t
  end.

(** [s.trim()] *)
Definition trim (s : string) : string := trimEnd (trimStart s).

(** Template-literal rendering of a non-negative integer. *)
Definition ofNat (n : nat) : string :=
  NilEmpty.string_of_uint (Nat.to_uint n).

(** [Number(s)] on a string of decimal digits (what [\d+] captured). *)
Definition toNat (s : string) : nat :=
  match NilEmpty.uint_of_string s with
  | Some d => Nat.of_uint d
  | None => 0
  end.

(** The text before the first occurrence of [c], and the text after it. *)
Fixpoint breakAt (c : ascii) (s : string) : string * string :=
  match s with
  | EmptyString => (EmptyString, EmptyString)
  | String a s' =>
      if (a =? c)%char then (EmptyString, s')
      else let (l, r) := breakAt c s' in (String a l, r)
  end.

(** [s] without its last code unit. *)
Fixpoint dropLast (s : string) : string :=
  match s with
  | EmptyString => EmptyString
  | String _ EmptyString => EmptyString
  | String c s' => String c (dropLast s')
  end.

End Str.

(** ** Regular expressions

    The regular-expression literals of the source are kept as syntax trees and
    run by a derivative matcher; [Regex.Lang] is their meaning. *)
Module Regex.

Inductive t : Type :=
| Never
| Eps
| Class (p : ascii -> bool)
| Seq (r1 r2 : t)
| Alt (r1 r2 : t)
| Star (r : t).

Fixpoint nullable (r : t) : bool :=
  match r with
  | Never => false
  | Eps => true
  | Class _ => false
  | Seq r1 r2 => nullable r1 && nullable r2
  | Alt r1 r2 => nullable r1 || nullable r2
  | Star _ => true
  end.

Fixpoint deriv (c : ascii) (r : t) : t :=
  match r with
  | Never => Never
  | Eps => Never
  | Class p => if p c then Eps else Never
  | Seq r1 r2 =>
      if nullable r1 then Alt (Seq (deriv c r1) r2) (deriv c r2)
      else Seq (deriv c r1) r2
  | Alt r1 r2 => Alt (deriv c r1) (deriv c r2)
  | Star r1 => Seq (deriv c r1) (Star r1)
  end.

(** The whole of [s] is a word of [r]. *)
Fixpoint accepts (r : t) (s : string) : bool :=
  match s with
  | EmptyString => nullable r
  | String c s' => accepts (deriv c r) s'
  end.

(** Derived forms. *)
Definition Plus (r : t) : t := Seq r (Star r).
Definition Opt (r : t) : t := Alt r Eps.
Fixpoint Lit (s : string) : t :=
  match s with
  | EmptyString => Eps
  | String c s' => Seq (Class (Chars.isChar c)) (Lit s')
  end.
(** [r{n}] *)
Fixpoint Times (n : nat) (r : t) : t :=
  match n with
  | 0 => Eps
  | S k => Seq r (Times k r)
  end.
(** [r{n,}] *)
Definition AtLeast (n : nat) (r : t) : t := Seq (Times n r) (Star r).
(** [r{0,n}] *)
Fixpoint UpTo (n : nat) (r : t) : t :=
  match n with
  | 0 => Eps
  | S k => Opt (Seq r (UpTo k r))
  end.
(** [r{m,n}] with [m <= n] *)
Definition Range (m n : nat) (r : t) : t := Seq (Times m r) (UpTo (n - m) r).

(** A literal [/.../] with its anchors: [^] and [$] are flags, the body is
    what stands between them. *)
Record pattern : Type := Pattern {
  fromStart : bool;
  body : t;
  toEnd : bool
}.

Definition anything : t := Star (Class Chars.anyChar).

Definition unanchored (p : pattern) : t :=
  Seq (if fromStart p then Eps else anything)
      (Seq (body p) (if toEnd p then Eps else anything)).

(** [p.test(s)] *)
Definition test (p : pattern) (s : string) : bool :=
  accepts (unanchored p) s.

(** The meaning of an expression: the set of its words. *)
Inductive Lang : t -> string -> Prop :=
| LangEps : Lang Eps EmptyString
| LangClass p c : p c = true -> Lang (Class p) (String c EmptyString)
| LangSeq r1 r2 s1 s2 : Lang r1 s1 -> Lang r2 s2 -> Lang (Seq r1 r2) (s1 ++ s2)
| LangAltL r1 r2 s : Lang r1 s -> Lang (Alt r1 r2) s
| LangAltR r1 r2 s : Lang r2 s -> Lang (Alt r1 r2) s
| LangStarNil r : Lang (Star r) EmptyString
| LangStarApp r s1 s2 : Lang r s1 -> Lang (Star r) s2 -> Lang (Star r) (s1 ++ s2).

End Regex.

(* ===================================================================== *)
(** * Part II: the DOM                                                    *)
(* ===================================================================== *)

(** The interface an element object implements: what [instanceof HTMLElement]
    and [instanceof SVGElement] observe. *)
Inductive Interface : Type :=
| HTMLElementInterface
| SVGElementInterface
| PlainElementInterface.

Inductive ShadowMode : Type := OpenMode | ClosedMode.

(** What an element carries by itself. *)
Record ElementData : Type := {
  tag_name : string;
  local_name : string;
  namespace_uri : option string;
  interface : Interface;
  attribute_list : list (string * string)
}.

(** A tree of nodes: text, and elements with their child nodes and, for a
    shadow host, the mode and the child nodes of its shadow root. *)
Inductive Node : Type :=
| TextNode (data : string)
| ElementNode (d : ElementData) (shadow : option (ShadowMode * list Node))
              (kids : list Node).

(** One step from an element to its parent node.  [before] holds the
    preceding siblings, nearest first; [after] the following ones.
    The parent is an element ([InChildren]) or the shadow root of a host
    ([InShadowRoot]). *)
Inductive Frame : Type :=
| InChildren (before : list Node) (d : ElementData)
             (shadow : option (ShadowMode * list Node)) (after : list Node)
| InShadowRoot (before : list Node) (d : ElementData) (mode : ShadowMode)
               (hostKids : list Node) (after : list Node).

(** An element of a document: its own subtree and the way up to the document.
    With an empty [context] it is the document element. *)
Record Element : Type := {
  self : ElementData;
  shadowTree : option (ShadowMode * list Node);
  childNodes : list Node;
  context : list Frame
}.

Definition tagName (e : Element) : string := tag_name (self e).
Definition localName (e : Element) : string := local_name (self e).
Definition namespaceURI (e : Element) : option string := namespace_uri (self e).

Definition toNode (e : Element) : Node :=
  ElementNode (self e) (shadowTree e) (childNodes e).

(** A document is given by its document element. *)
Definition Document : Type := Node.

Inductive ParentNode : Type :=
| ParentDocument (doc : Document)
| ParentElement (parent : Element)
| ParentShadowRoot (host : Element).

(** [e.parentNode] *)
Definition parentNode (e : Element) : ParentNode :=
  match context e with
  | [] => ParentDocument (toNode e)
  | InChildren before d shadow after :: rest =>
      ParentElement {| self := d; shadowTree := shadow;
                       childNodes := rev_append before (toNode e :: after);
                       context := rest |}
  | InShadowRoot before d mode hostKids after :: rest =>
      ParentShadowRoot {| self := d;
                          shadowTree := Some (mode, rev_append before (toNode e :: after));
                          childNodes := hostKids;
                          context := rest |}
  end.

(** [e.parentElement] *)
Definition parentElement (e : Element) : option Element :=
  match parentNode e with
  | ParentElement parent => Some parent
  | _ => None
  end.

Inductive RootNode : Type :=
| RootDocument (doc : Document)
| RootShadowRoot (host : Element).

(** [e.getRootNode()]: the document, or the shadow root (given by its host)
    that contains [e]. *)
Fixpoint rootFrom (n : Node) (ctx : list Frame) : RootNode :=
  match ctx with
  | [] => RootDocument n
  | InChildren before d shadow after :: rest =>
      rootFrom (ElementNode d shadow (rev_append before (n :: after))) rest
  | InShadowRoot before d mode hostKids after :: rest =>
      RootShadowRoot {| self := d;
                        shadowTree := Some (mode, rev_append before (n :: after));
                        childNodes := hostKids;
                        context := rest |}
  end.

Definition getRootNode (e : Element) : RootNode := rootFrom (toNode e) (context e).

(** [e.ownerDocument] *)
Fixpoint documentFrom (n : Node) (ctx : list Frame) : Document :=
  match ctx with
  | [] => n
  | InChildren before d shadow after :: rest =>
      documentFrom (ElementNode d shadow (rev_append before (n :: after))) rest
  | InShadowRoot before d mode hostKids after :: rest =>
      documentFrom (ElementNode d (Some (mode, rev_append before (n :: after))) hostKids) rest
  end.

Definition ownerDocument (e : Element) : Document := documentFrom (toNode e) (context e).

(** The document element of a document, as an element. *)
Definition documentElement (doc : Document) : option Element :=
  match doc with
  | ElementNode d shadow kids =>
      Some {| self := d; shadowTree := shadow; childNodes := kids; context := [] |}
  | TextNode _ => None
  end.

(** The element children found in [after], each with its own context. *)
Fixpoint locate (frame : list Node -> list Node -> Frame) (rest : list Frame)
                (before after : list Node) : list Element :=
  match after with
  | [] => []
  | TextNode t :: after' => locate frame rest (TextNode t :: before) after'
  | ElementNode d shadow kids :: after' =>
      {| self := d; shadowTree := shadow; childNodes := kids;
         context := frame before after' :: rest |}
      :: locate frame rest (ElementNode d shadow kids :: before) after'
  end.

(** [e.children] *)
Definition children (e : Element) : list Element :=
  locate (fun before after => InChildren before (self e) (shadowTree e) after)
         (context e) [] (childNodes e).

(** [root.children] for the shadow root of [host] (empty without one). *)
Definition shadowRootChildren (host : Element) : list Element :=
  match shadowTree host with
  | Some (mode, kids) =>
      locate (fun before after => InShadowRoot before (self host) mode (childNodes host) after)
             (context host) [] kids
  | None => []
  end.

(** [e.shadowRoot]: the shadow root, given by its host, when it is open. *)
Definition shadowRoot (e : Element) : option Element :=
  match shadowTree e with
  | Some (OpenMode, _) => Some e
  | _ => None
  end.

(** Where an element sits: for each frame, whether it enters a shadow root
    and the number of preceding sibling nodes. *)
Definition frameIndex (f : Frame) : bool * nat :=
  match f with
  | InChildren before _ _ _ => (false, List.length before)
  | InShadowRoot before _ _ _ _ => (true, List.length before)
  end.

Definition position (e : Element) : list (bool * nat) :=
  List.map frameIndex (context e).

Fixpoint samePosition (p q : list (bool * nat)) : bool :=
  match p, q with
  | [], [] => true
  | (s1, i1) :: p', (s2, i2) :: q' =>
      Bool.eqb s1 s2 && Nat.eqb i1 i2 && samePosition p' q'
  | _, _ => false
  end.

(** [a === b] for two elements of one document: the same place in the tree. *)
Definition sameNode (a b : Element) : bool := samePosition (position a) (position b).

(** The preceding sibling nodes, nearest first. *)
Definition precedingSiblings (e : Element) : list Node :=
  match context e with
  | [] => []
  | InChildren before _ _ _ :: _ => before
  | InShadowRoot before _ _ _ _ :: _ => before
  end.

(** Move the focus of a frame to an earlier sibling. *)
Definition refocus (f : Frame) (before after : list Node) : Frame :=
  match f with
  | InChildren _ d shadow _ => InChildren before d shadow after
  | InShadowRoot _ d mode hostKids _ => InShadowRoot before d mode hostKids after
  end.

Fixpoint previousFrom (f : Frame) (rest : list Frame) (before after : list Node)
  : option Element :=
  match before with
  | [] => None
  | TextNode t :: before' => previousFrom f rest before' (TextNode t :: after)
  | ElementNode d shadow kids :: before' =>
      Some {| self := d; shadowTree := shadow; childNodes := kids;
              context := refocus f before' after :: rest |}
  end.

(** [e.previousElementSibling] *)
Definition previousElementSibling (e : Element) : option Element :=
  match context e with
  | [] => None
  | f :: rest =>
      previousFrom f rest (precedingSiblings e)
        (toNode e :: match f with
                     | InChildren _ _ _ after => after
                     | InShadowRoot _ _ _ _ after => after
                     end)
  end.

(** [node.textContent]: the text of the descendants, in document order. *)
Fixpoint textContentOf (n : Node) : string :=
  match n with
  | TextNode t => t
  | ElementNode _ _ kids =>
      (fix go (ks : list Node) : string :=
         match ks with
         | [] => EmptyString
         | k :: ks' => textContentOf k ++ go ks'
         end) kids
  end.

Definition textContent (e : Element) : string := textContentOf (toNode e).

Fixpoint lookupAttribute (name : string) (attrs : list (string * string))
  : option string :=
  match attrs with
  | [] => None
  | (k, v) :: attrs' => if (k =? name)%string then Some v else lookupAttribute name attrs'
  end.

(** [e.getAttribute(name)] *)
Definition getAttribute (e : Element) (name : string) : option string :=
  lookupAttribute name (attribute_list (self e)).

(** [e.id] *)
Definition id (e : Element) : string :=
  match getAttribute e "id" with
  | Some v => v
  | None => EmptyString
  end.

(** The tokens of a [class] attribute, split at ASCII white space. *)
Fixpoint tokens (current : string) (s : string) : list string :=
  match s with
  | EmptyString => if Str.isEmpty current then [] else [current]
  | String c s' =>
      if Chars.isTokenSeparator c
      then ((if Str.isEmpty current then [] else [current]) ++ tokens EmptyString s')%list
      else tokens (current ++ String c EmptyString) s'
  end.

Fixpoint distinct (seen : list string) (xs : list string) : list string :=
  match xs with
  | [] => []
  | x :: xs' =>
      if existsb (String.eqb x) seen then distinct seen xs'
      else x :: distinct (x :: seen) xs'
  end.

(** [Array.from(e.classList)] *)
Definition classList (e : Element) : list string :=
  match getAttribute e "class" with
  | Some v => distinct [] (tokens EmptyString v)
  | None => []
  end.

(** The number of elements of the tree of [n] (shadow trees left out) whose
    [id] attribute is [i]: the length of
    [doc.querySelectorAll("[id='" + CSS.escape(i) + "']")]. *)
Fixpoint countId (i : string) (n : Node) : nat :=
  match n with
  | TextNode _ => 0
  | ElementNode d _ kids =>
      (match lookupAttribute "id" (attribute_list d) with
       | Some v => if (v =? i)%string then 1 else 0
       | None => 0
       end)
      + (fix go (ks : list Node) : nat :=
           match ks with
           | [] => 0
           | k :: ks' => countId i k + go ks'
           end) kids
  end.

(** The number of shadow roots between an element and its document. *)
Fixpoint shadowDepthOf (ctx : list Frame) : nat :=
  match ctx with
  | [] => 0
  | InChildren _ _ _ _ :: rest => shadowDepthOf rest
  | InShadowRoot _ _ _ _ _ :: rest => S (shadowDepthOf rest)
  end.

Definition shadowDepth (e : Element) : nat := shadowDepthOf (context e).

(** The number of parent nodes between an element and its document. *)
Definition depth (e : Element) : nat := List.length (context e).

(** ** The path-query engine

    [doc.evaluate] belongs to the host environment.  It is an injected
    capability: given a query and a context node it returns the matches in
    document order, or fails ([None]) on a query it cannot evaluate. *)
Inductive ResultNode : Type :=
| ResultElement (e : Element)
| ResultOther.

Inductive ContextNode : Type :=
| DocumentContext (doc : Document)
| ShadowRootContext (host : Element).

Definition Engine : Type := string -> ContextNode -> option (list ResultNode).

(* ===================================================================== *)
(** * Part III: the generator ([generateXPath.js])                        *)
(* ===================================================================== *)

Definition STABLE_ATTRIBUTES : list string :=
  ["data-testid"; "data-cy"; "data-qa"; "id"; "name"; "role"; "placeholder"].

Definition UNIQUE_TAG_WHITELIST : list string :=
  ["body"; "main"; "header"; "footer"; "nav"; "aside";
   "h1"; "h2"; "h3"; "h4"; "h5"; "h6";
   "form"; "search";
   "video"; "audio"; "canvas"; "iframe";
   "table"; "thead"; "tbody"; "tfoot"].

Definition MAX_ANCESTOR_DEPTH : nat := 50.
Definition MAX_STABLE_TEXT_LENGTH : nat := 40.
Definition MIN_STABLE_TEXT_LENGTH : nat := 2.
Definition MAX_LABEL_LENGTH : nat := 30.

Definition SVG_NAMESPACE : string := "http://www.w3.org/2000/svg".
Definition HTML_NAMESPACE : string := "http://www.w3.org/1999/xhtml".

Definition slash : ascii := "/"%char.
Definition bar : ascii := "|"%char.
Definition quote : ascii := "'"%char.
Definition doubleQuote : string := String (ascii_of_nat 34) EmptyString.

(** ** Stability validators *)

Module Patterns.
Import Regex.

Definition digit : t := Class Chars.isDigit.
Definition alnum : t := Class Chars.isAlnum.

(** [/^([a-fA-F0-9-]{10,})$/] *)
Definition hexRun : pattern :=
  Pattern true (AtLeast 10 (Class Chars.isHexDash)) true.
(** [/_[a-zA-Z0-9]+_[a-zA-Z0-9]+_/] *)
Definition underscoreTokens : pattern :=
  Pattern false
    (Seq (Lit "_") (Seq (Plus alnum) (Seq (Lit "_") (Seq (Plus alnum) (Lit "_")))))
    false.
(** [/\d{5,}$/] *)
Definition trailingDigits : pattern := Pattern false (AtLeast 5 digit) true.
(** [/^(ember|react-|vue-)\d*/] *)
Definition frameworkPrefix : pattern :=
  Pattern true
    (Seq (Alt (Lit "ember") (Alt (Lit "react-") (Lit "vue-"))) (Star digit))
    false.
(** [/_\d{1,4}$/] *)
Definition dynamicSuffix : pattern :=
  Pattern false (Seq (Lit "_") (Range 1 4 digit)) true.

(** [/^(css|sc)-[a-zA-Z0-9]+$/] *)
Definition cssInJs : pattern :=
  Pattern true (Seq (Alt (Lit "css") (Lit "sc")) (Seq (Lit "-") (Plus alnum))) true.
(** [/^[a-zA-Z0-9]{10,}$/] *)
Definition minified : pattern := Pattern true (AtLeast 10 alnum) true.
(** [/\d/] *)
Definition anyDigit : pattern := Pattern false digit false.

(** [[A-Z][a-z]+] *)
Definition capitalized : t := Seq (Class Chars.isUpper) (Plus (Class Chars.isLower)).
(** [/^([A-Z][a-z]+ [A-Z][a-z]+|[A-Z][a-z]+ [A-Z][a-z]+ [A-Z][a-z]+)$/] *)
Definition personName : pattern :=
  Pattern true
    (Alt (Seq capitalized (Seq (Lit " ") capitalized))
         (Seq capitalized (Seq (Lit " ") (Seq capitalized (Seq (Lit " ") capitalized)))))
    true.
(** [/^[a-z]+$/] *)
Definition lowercaseWord : pattern := Pattern true (Plus (Class Chars.isLower)) true.
(** [/^[a-zA-Z ]+$/] *)
Definition lettersAndSpaces : pattern :=
  Pattern true (Plus (Class Chars.isLetterOrSpace)) true.

(** The pattern of [parseSegment]: a name of [[a-zA-Z0-9_-]] characters
    or a star, then an index of decimal digits in square brackets, the
    whole anchored at both ends. *)
Definition segment : pattern :=
  Pattern true
    (Seq (Alt (Plus (Class Chars.isNameChar)) (Lit "*"))
         (Seq (Lit "[") (Seq (Plus digit) (Lit "]"))))
    true.
End Patterns.

(* generateXPath.js, lines 431-441 *)
Definition isStableId (i : string) : bool :=
  if Str.isEmpty i then false
  else if Regex.test Patterns.hexRun i then false
  else if Regex.test Patterns.underscoreTokens i then false
  else if Regex.test Patterns.trailingDigits i then false
  else if Regex.test Patterns.frameworkPrefix i then false
  else if Regex.test Patterns.dynamicSuffix i then false
  else true.

(* generateXPath.js, lines 443-449 *)
Definition isStableClass (className : string) : bool :=
  if Str.includes ":"%char className || Str.includes "["%char className then false
  else if Regex.test Patterns.cssInJs className then false
  else if Regex.test Patterns.minified className then false
  else if Regex.test Patterns.anyDigit className then false
  else true.

(* generateXPath.js, lines 451-466 *)
Definition hasStableText (e : Element) : bool :=
  let text := Str.trim (textContent e) in
  if Str.isEmpty text then false
  else if Nat.ltb MAX_STABLE_TEXT_LENGTH (String.length text)
          || Nat.ltb (String.length text) MIN_STABLE_TEXT_LENGTH then false
  else if Regex.test Patterns.personName text then false
  else if Regex.test Patterns.lowercaseWord text then false
  else if negb (Regex.test Patterns.lettersAndSpaces text) then false
  else true.

(** ** DOM and XPath utilities *)

Definition isSvg (e : Element) : bool :=
  match namespaceURI e with
  | Some ns => (ns =? SVG_NAMESPACE)
  | None => false
  end
  || match interface (self e) with
     | SVGElementInterface => true
     | _ => false
     end.

(* generateXPath.js, lines 526-532 *)
Definition getNodeTest (e : Element) : string :=
  let tag := Str.toLowerCase (tagName e) in
  if isSvg e then "*[local-name()='" ++ tag ++ "']" else tag.

(** The walk over [previousElementSibling]: along the preceding siblings,
    nearest first, text nodes skipped. *)
Fixpoint elementIndexLoop (tag : string) (siblings : list Node) (index : nat) : nat :=
  match siblings with
  | [] => index
  | TextNode _ :: rest => elementIndexLoop tag rest index
  | ElementNode d _ _ :: rest =>
      elementIndexLoop tag rest (if tag_name d =? tag then S index else index)
  end.

(* generateXPath.js, lines 504-512 *)
Definition getElementIndex (e : Element) : nat :=
  elementIndexLoop (tagName e) (precedingSiblings e) 1.

Definition pathStep (test : string) (index : nat) : string :=
  test ++ "[" ++ Str.ofNat index ++ "]".

Definition height (current : option Element) : nat :=
  match current with
  | None => 0
  | Some c => S (depth c)
  end.

Equations? absolutePathLoop (current : option Element) (segments : list string)
  : list string by wf (height current) lt :=
  absolutePathLoop None segments := segments;
  absolutePathLoop (Some c) segments :=
    absolutePathLoop (parentElement c)
      (pathStep (getNodeTest c) (getElementIndex c) :: segments).
Proof.
  unfold height, parentElement, parentNode, depth.
  destruct (context c) as [| [before d shadow after | before d mode hostKids after] rest];
    simpl; lia.
Qed.

(* generateXPath.js, lines 514-524; the loop is [absolutePathLoop] *)
Definition getAbsolutePath (e : Element) : string :=
  "/" ++ Str.join "/" (absolutePathLoop (Some e) []).

(* generateXPath.js, lines 535-537 *)
Definition countXPathSteps (xpath : string) : nat :=
  List.length (Str.filterBoolean (Str.split slash xpath)).

(* generateXPath.js, lines 539-543 *)
Definition escapeXPathString (str : string) : string :=
  if negb (Str.includes quote str) then str
  else
    let parts := List.map (fun part => "'" ++ part ++ "'") (Str.split quote str) in
    "concat(" ++ Str.join (", " ++ doubleQuote ++ "'" ++ doubleQuote ++ ", ") parts ++ ")".

(* generateXPath.js, lines 242-244 *)
Definition buildClassPredicate (classes : list string) : string :=
  Str.join " and " (List.map (fun c => "contains(@class, '" ++ c ++ "')") classes).

Definition sameTagAt (siblings : list Element) (tag : string) (i : nat) : bool :=
  match nth_error siblings i with
  | Some s => Str.toLowerCase (tagName s) =? tag
  | None => false
  end.

(** generateXPath.js, lines 377-389: the loop
    [for (i = from + 1; i <= to; i++)]. *)
Definition countSameTagBetween (siblings : list Element) (start stop : nat)
                               (tag : string) : nat :=
  let from := Nat.min start stop in
  let to := Nat.max start stop in
  List.length (List.filter (sameTagAt siblings tag) (seq (S from) (to - from))).

(** ** Shadow DOM support *)

Definition childrenOf (p : ParentNode) : list Element :=
  match p with
  | ParentElement parent => children parent
  | ParentShadowRoot host => shadowRootChildren host
  | ParentDocument _ => []
  end.

Fixpoint shadowSiblingIndexLoop (tag : string) (element : Element)
                                (kids : list Element) (index : nat) : nat :=
  match kids with
  | [] => 1
  | child :: rest =>
      let index' := if Str.toLowerCase (localName child) =? tag then S index else index in
      if sameNode child element then index'
      else shadowSiblingIndexLoop tag element rest index'
  end.

(* generateXPath.js, lines 415-428 *)
Definition getShadowSiblingIndex (element : Element) (parent : ParentNode) : nat :=
  shadowSiblingIndexLoop (Str.toLowerCase (localName element)) element (childrenOf parent) 0.

Definition inspect {A : Type} (a : A) : {b : A | a = b} := exist _ a eq_refl.

(** The loop of [getShadowAbsolutePath].  After the step of [current] is put
    in front, the loop ends when the parent is the shadow root
    ([parent === shadowRoot]) and also when it is no element at all (some
    other shadow root, the document): both exits leave the same segments.  A
    shadow root is given by its host. *)
Equations? shadowPathLoop (root : Element) (current : Element) (segments : list string)
  : list string by wf (depth current) lt :=
  shadowPathLoop root current segments with inspect (parentNode current) := {
    | exist _ (ParentElement parent) _ =>
        shadowPathLoop root parent
          (pathStep (Str.toLowerCase (localName current))
                    (getShadowSiblingIndex current (ParentElement parent)) :: segments);
    | exist _ (ParentShadowRoot host) _ =>
        pathStep (Str.toLowerCase (localName current))
                 (getShadowSiblingIndex current (ParentShadowRoot host)) :: segments;
    | exist _ (ParentDocument doc) _ =>
        pathStep (Str.toLowerCase (localName current))
                 (getShadowSiblingIndex current (ParentDocument doc)) :: segments }.
Proof.
  unfold parentNode, depth in *.
  destruct (context current) as [| [before d shadow after | before d mode hostKids after] rest];
    try discriminate.
  match goal with H : ParentElement _ = ParentElement _ |- _ => injection H as <- end.
  simpl. lia.
Qed.

(* generateXPath.js, lines 392-413; the loop is [shadowPathLoop] *)
Definition getShadowAbsolutePath (root : Element) (element : Element) : string :=
  "/" ++ Str.join "/" (shadowPathLoop root element []).

(** The loop of [generateXPath]: from [current] outwards, one shadow root per
    turn, until the root node is a document. *)
Equations? shadowWalk (current : Element) (shadowPaths : list string)
  : Element * list string by wf (shadowDepth current) lt :=
  shadowWalk current shadowPaths with inspect (getRootNode current) := {
    | exist _ (RootDocument _) _ => (current, shadowPaths);
    | exist _ (RootShadowRoot host) _ =>
        shadowWalk host (getShadowAbsolutePath host current :: shadowPaths) }.
Proof.
  clear shadowWalk. unfold getRootNode, shadowDepth in *.
  revert e. generalize (toNode current).
  induction (context current) as [| [before d shadow after | before d mode hostKids after] rest IH];
    simpl; intros n e.
  - discriminate.
  - specialize (IH _ e). lia.
  - injection e as <-. simpl. lia.
Qed.

(** ** Candidates *)

Record Candidate : Type := { xpath : string; score : Z }.

(** [Array.prototype.sort] with a comparator: the stable sort. *)
Fixpoint insertSorted (compare : Candidate -> Candidate -> Z) (x : Candidate)
                      (sorted : list Candidate) : list Candidate :=
  match sorted with
  | [] => [x]
  | y :: rest =>
      if (compare x y <=? 0)%Z then x :: sorted
      else y :: insertSorted compare x rest
  end.

Definition sortBy (compare : Candidate -> Candidate -> Z) (xs : list Candidate)
  : list Candidate :=
  List.fold_right (insertSorted compare) [] xs.

(** The comparator of [generateXPathInDocument]: higher score first, then
    fewer steps, then shorter string. *)
Definition compareCandidates (a b : Candidate) : Z :=
  if negb (score a =? score b)%Z then (score b - score a)%Z
  else
    let stepDiff := (Z.of_nat (countXPathSteps (xpath a))
                     - Z.of_nat (countXPathSteps (xpath b)))%Z in
    if negb (stepDiff =? 0)%Z then stepDiff
    else (Z.of_nat (String.length (xpath a)) - Z.of_nat (String.length (xpath b)))%Z.

(** What a call does: it throws or it returns a string. *)
Inductive Completion : Type :=
| Throws (message : string)
| Returns (value : string).

(** What a caller may pass: nothing ([null], [undefined]), a node that is
    not an element, or an element. *)
Inductive NodeKind : Type :=
| TextKind | CommentKind | DocumentKind | DocumentFragmentKind.

Inductive Argument : Type :=
| Absent
| OtherNode (kind : NodeKind)
| ElementArgument (e : Element).

Definition ELEMENT_NODE : nat := 1.

Definition nodeType (a : Argument) : option nat :=
  match a with
  | Absent => None
  | OtherNode TextKind => Some 3
  | OtherNode CommentKind => Some 8
  | OtherNode DocumentKind => Some 9
  | OtherNode DocumentFragmentKind => Some 11
  | ElementArgument _ => Some ELEMENT_NODE
  end.

Section Generator.

Variable evaluate : Engine.

(** ** Uniqueness checks *)

(** generateXPath.js, lines 484-497:
    [try { ... snapshotLength === 1 } catch { return false }] *)
Definition isUnique (xpath : string) (doc : Document) : bool :=
  match evaluate xpath (DocumentContext doc) with
  | Some matches => Nat.eqb (List.length matches) 1
  | None => false
  end.

(* generateXPath.js, lines 499-501 *)
Definition isUniqueId (i : string) (doc : Document) : bool :=
  Nat.eqb (countId i doc) 1.

Fixpoint uniqueStableAttributeLoop (e : Element) (names : list string)
  : option (string * string) :=
  match names with
  | [] => None
  | attr :: rest =>
      match getAttribute e attr with
      | None => uniqueStableAttributeLoop e rest
      | Some val =>
          if Str.isEmpty val || negb (isStableId val)
          then uniqueStableAttributeLoop e rest
          else
            let xpath := "//" ++ getNodeTest e ++ "[@" ++ attr ++ "='" ++ val ++ "']" in
            if isUnique xpath (ownerDocument e) then Some (attr, val)
            else uniqueStableAttributeLoop e rest
      end
  end.

(* generateXPath.js, lines 468-481 *)
Definition getUniqueStableAttribute (e : Element) : option (string * string) :=
  uniqueStableAttributeLoop e STABLE_ATTRIBUTES.

(** ** Strategies *)

(* generateXPath.js, lines 194-200 *)
Definition getUniqueTagNameSelector (e : Element) : option string :=
  let tag := Str.toLowerCase (tagName e) in
  if negb (existsb (String.eqb tag) UNIQUE_TAG_WHITELIST) then None
  else
    let xpath := "//" ++ getNodeTest e in
    if isUnique xpath (ownerDocument e) then Some xpath else None.

(* generateXPath.js, lines 202-214 *)
Definition getLabelAnchoredPath (e : Element) : option string :=
  match previousElementSibling e with
  | None => None
  | Some prev =>
      if negb (hasStableText prev) then None
      else
        let text := Str.trim (textContent prev) in
        if Nat.ltb MAX_LABEL_LENGTH (String.length text)
           || Nat.ltb (String.length text) MIN_STABLE_TEXT_LENGTH then None
        else
          let labelXpath :=
            "//" ++ Str.toLowerCase (tagName prev)
                 ++ "[normalize-space(text())='" ++ escapeXPathString text ++ "']" in
          if negb (isUnique labelXpath (ownerDocument e)) then None
          else Some (labelXpath ++ "/following-sibling::" ++ getNodeTest e ++ "[1]")
  end.

Definition textAnchor (e : Element) (doc : Document) : list string :=
  if hasStableText e then
    let text := Str.trim (textContent e) in
    let xpath := "//" ++ getNodeTest e
                      ++ "[normalize-space(.)='" ++ escapeXPathString text ++ "']" in
    if isUnique xpath doc then [xpath] else []
  else [].

Definition attributeSelector (e : Element) : list string :=
  match getUniqueStableAttribute e with
  | Some (name, value) =>
      ["//" ++ getNodeTest e ++ "[@" ++ name ++ "='" ++ value ++ "']"]
  | None => []
  end.

(* generateXPath.js, lines 165-192 *)
Definition getDirectSelectors (e : Element) : list string :=
  let doc := ownerDocument e in
  let labelSelector :=
    match getLabelAnchoredPath e with
    | Some labelPath => [labelPath]
    | None => []
    end in
  (attributeSelector e ++ labelSelector ++ textAnchor e doc)%list.

Definition classSelector (e : Element) (doc : Document) (classes : list string)
  : list string :=
  let xpath := "//" ++ getNodeTest e ++ "[" ++ buildClassPredicate classes ++ "]" in
  if isUnique xpath doc then [xpath] else [].

(* generateXPath.js, lines 217-240 *)
Definition getClassSelectors (e : Element) : list string :=
  let doc := ownerDocument e in
  let validClasses := List.filter isStableClass (classList e) in
  match validClasses with
  | [] => []
  | _ =>
      (classSelector e doc validClasses
       ++ List.flat_map (fun cls => classSelector e doc [cls]) validClasses)%list
  end.

Definition idSelector (e : Element) (doc : Document) : list string :=
  if isStableId (id e) && isUniqueId (id e) doc
  then ["//*[@id='" ++ id e ++ "']"] else [].

Definition tagSelector (e : Element) (doc : Document) : list string :=
  let tagXpath := "//" ++ getNodeTest e in
  if isUnique tagXpath doc then [tagXpath] else [].

(* generateXPath.js, lines 274-315 *)
Definition getAnchorXPaths (e : Element) : list string :=
  let doc := ownerDocument e in
  let validClasses := List.filter isStableClass (classList e) in
  let classes :=
    match validClasses with
    | [] => []
    | _ => classSelector e doc validClasses
    end in
  (tagSelector e doc ++ idSelector e doc ++ attributeSelector e
   ++ textAnchor e doc ++ classes)%list.

(** The loop of [getAncestorPaths], with its three variables.  [budget] is
    [MAX_ANCESTOR_DEPTH - depth]: the test [depth < MAX_ANCESTOR_DEPTH] is
    the test that some budget is left.  The loop yields the final [depth]
    and the selectors. *)
Fixpoint ancestorLoop (budget : nat) (current : Element) (depth : nat)
                      (pathSegments selectors : list string) : nat * list string :=
  match budget with
  | 0 => (depth, selectors)
  | S budget' =>
      match parentElement current with
      | None => (depth, selectors)
      | Some parent =>
          let depth' := S depth in
          let pathSegments' :=
            pathStep (getNodeTest current) (getElementIndex current) :: pathSegments in
          let relativePath := Str.join "/" pathSegments' in
          let anchored :=
            List.map (fun anchor => anchor ++ "/" ++ relativePath)
                     (getAnchorXPaths parent) in
          let selectors' := (selectors ++ anchored)%list in
          if tagName parent =? "BODY" then (depth', selectors')
          else ancestorLoop budget' parent depth' pathSegments' selectors'
      end
  end.

(* generateXPath.js, lines 247-272 *)
Definition getAncestorPaths (e : Element) : list string :=
  snd (ancestorLoop MAX_ANCESTOR_DEPTH e 0 [] []).

(* generateXPath.js, lines 349-375 *)
Definition getSiblingAnchor (sibling : Element) (doc : Document) : option string :=
  let nodeTest := getNodeTest sibling in
  let tagXpath := "//" ++ nodeTest in
  if isUnique tagXpath doc then Some tagXpath
  else if isStableId (id sibling) && isUniqueId (id sibling) doc
  then Some ("//*[@id='" ++ id sibling ++ "']")
  else
    match getUniqueStableAttribute sibling with
    | Some (name, value) =>
        Some ("//" ++ nodeTest ++ "[@" ++ name ++ "='" ++ value ++ "']")
    | None =>
        match textAnchor sibling doc with
        | xpath :: _ => Some xpath
        | [] => None
        end
    end.

(** [siblings.indexOf(element)] *)
Fixpoint indexOf (element : Element) (siblings : list Element) (i : nat) : option nat :=
  match siblings with
  | [] => None
  | s :: rest => if sameNode s element then Some i else indexOf element rest (S i)
  end.

(* generateXPath.js, lines 318-347 *)
Definition getSiblingPaths (e : Element) : list string :=
  let doc := ownerDocument e in
  let nodeTest := getNodeTest e in
  let tagLower := Str.toLowerCase (tagName e) in
  match parentElement e with
  | None => []
  | Some parent =>
      let siblings := children parent in
      match indexOf e siblings 0 with
      | None => []
      | Some elementIndex =>
          let anchored (axis : string) (lo hi : nat) (i : nat) : list string :=
            match nth_error siblings i with
            | None => []
            | Some sibling =>
                match getSiblingAnchor sibling doc with
                | None => []
                | Some anchor =>
                    [anchor ++ axis ++ nodeTest ++ "["
                       ++ Str.ofNat (countSameTagBetween siblings lo hi tagLower) ++ "]"]
                end
            end in
          (* for (i = elementIndex - 1; i >= 0; i--) *)
          let preceding :=
            List.flat_map (fun i => anchored "/following-sibling::" i elementIndex i)
                          (List.rev (seq 0 elementIndex)) in
          (* for (i = elementIndex + 1; i < siblings.length; i++) *)
          let following :=
            List.flat_map (fun i => anchored "/preceding-sibling::" elementIndex i i)
                          (seq (S elementIndex)
                               (List.length siblings - S elementIndex)) in
          (preceding ++ following)%list
      end
  end.

(** ** Collection, validation, ranking *)

Definition scored (s : Z) (xpaths : list string) : list Candidate :=
  List.map (fun x => {| xpath := x; score := s |}) xpaths.

(* generateXPath.js, lines 103-145 *)
Definition collectAllCandidates (e : Element) : list Candidate :=
  let doc := ownerDocument e in
  let tagCandidate :=
    match getUniqueTagNameSelector e with
    | Some selector => [{| xpath := selector; score := 90 |}]
    | None => []
    end in
  let abs := getAbsolutePath e in
  let fallback :=
    if isUnique abs doc then [{| xpath := abs; score := 0 |}] else [] in
  (tagCandidate
   ++ scored 100 (idSelector e doc)
   ++ scored 80 (getDirectSelectors e)
   ++ scored 70 (getAncestorPaths e)
   ++ scored 60 (getSiblingPaths e)
   ++ scored 40 (getClassSelectors e)
   ++ fallback)%list.

Fixpoint dedupeLoop (candidates : list Candidate) (doc : Document)
                    (seen : list string) : list Candidate :=
  match candidates with
  | [] => []
  | c :: rest =>
      if Str.isEmpty (xpath c) || existsb (String.eqb (xpath c)) seen
      then dedupeLoop rest doc seen
      else if negb (isUnique (xpath c) doc) then dedupeLoop rest doc seen
      else c :: dedupeLoop rest doc (xpath c :: seen)
  end.

(* generateXPath.js, lines 147-162; the loop is [dedupeLoop] *)
Definition dedupeAndValidate (candidates : list Candidate) (doc : Document)
  : list Candidate :=
  dedupeLoop candidates doc [].

(* generateXPath.js, lines 79-101 *)
Definition generateXPathInDocument (e : Element) : string :=
  let doc := ownerDocument e in
  let candidates := collectAllCandidates e in
  let validCandidates := dedupeAndValidate candidates doc in
  match validCandidates with
  | [] => getAbsolutePath e
  | _ =>
      match sortBy compareCandidates validCandidates with
      | best :: _ => xpath best
      | [] => EmptyString
      end
  end.

(** ** Main function *)

Definition INVALID_INPUT : string := "Invalid input: Input must be a DOM Element.".

(* generateXPath.js, lines 59-77; the loop is [shadowWalk] *)
Definition generateXPath (element : Argument) : Completion :=
  match element with
  | Absent => Throws INVALID_INPUT           (* [!element] *)
  | OtherNode _ => Throws INVALID_INPUT      (* [nodeType !== Node.ELEMENT_NODE] *)
  | ElementArgument e =>
      let (current, shadowPaths) := shadowWalk e [] in
      let base := generateXPathInDocument current in
      match shadowPaths with
      | [] => Returns base
      | _ => Returns (base ++ "|" ++ Str.join "|" shadowPaths)
      end
  end.

End Generator.

(* ===================================================================== *)
(** * Part IV: the resolver ([resolveElementFromStoredSelector])          *)
(* ===================================================================== *)

(** The two capture groups of a matched step [name[digits]]: the text before
    the first bracket, and the number between that bracket and the last
    character. *)
Definition captureNameAndIndex (seg : string) : string * nat :=
  let (name, rest) := Str.breakAt "["%char seg in
  (name, Str.toNat (Str.dropLast rest)).

(* the resolver, [parseSegment] *)
Definition parseSegment (seg : string) : option (string * nat) :=
  if Regex.test Patterns.segment seg then
    let (name, index) := captureNameAndIndex seg in
    if Nat.ltb index 1 then None else Some (Str.toLowerCase name, index)
  else None.

Fixpoint resolveLoop (segments : list string) (parent : ParentNode)
                     (current : option Element) : option Element :=
  match segments with
  | [] => current
  | seg :: rest =>
      match parseSegment seg with
      | None => None
      | Some (tag, index) =>
          let kids := childrenOf parent in
          let matches :=
            if tag =? "*" then kids
            else List.filter (fun c => Str.toLowerCase (localName c) =? tag) kids in
          match nth_error matches (index - 1) with
          | None => None
          | Some found => resolveLoop rest (ParentElement found) (Some found)
          end
      end
  end.

(* the resolver, [resolveInShadowRoot]; the loop is [resolveLoop] *)
Definition resolveInShadowRoot (root : Element) (path : string) : option Element :=
  resolveLoop (Str.filterBoolean (Str.split slash path)) (ParentShadowRoot root) None.

Section Resolver.

Variable evaluate : Engine.
(** The global [document] of the page. *)
Variable document : Document.

(** [FIRST_ORDERED_NODE_TYPE]: the first match in document order, kept when
    it is an element; failures are caught. *)
Definition evaluateFirstXPathInContext (xpath : string) (ctx : ContextNode)
  : option Element :=
  match evaluate xpath ctx with
  | Some (ResultElement e :: _) => Some e
  | _ => None
  end.

Definition evaluateFirstXPath (xpath : string) : option Element :=
  evaluateFirstXPathInContext xpath (DocumentContext document).

Fixpoint resolveShadowParts (parts : list string) (current : Element) : option Element :=
  match parts with
  | [] => Some current
  | part :: rest =>
      let shadowPath := Str.trim part in
      match shadowRoot current with
      | None => None
      | Some root =>
          let found :=
            if Str.startsWith slash shadowPath
            then resolveInShadowRoot root shadowPath
            else evaluateFirstXPathInContext shadowPath (ShadowRootContext root) in
          match found with
          | None => None
          | Some next => resolveShadowParts rest next
          end
      end
  end.

(* the resolver, [resolveElementFromStoredSelector]; the loop over the shadow parts is [resolveShadowParts] *)
Definition resolveElementFromStoredSelector (selector : string) : option Element :=
  match Str.split bar selector with
  | [] => None
  | first :: rest =>
      let baseXPath := Str.trim first in
      if Str.isEmpty baseXPath then None
      else
        match evaluateFirstXPath baseXPath with
        | None => None
        | Some host =>
            match resolveShadowParts rest host with
            | None => None
            | Some current =>
                match interface (self current) with
                | HTMLElementInterface => Some current
                | _ => None
                end
            end
        end
  end.

End Resolver.

(** ** An engine for absolute paths

    The test utilities of the repository keep an evaluator for absolute paths
    of indexed steps ([fallbackEvalXPathSingle], with [nthChildByTagName] and
    [nthChildByLocalName]).  Its absolute-path branch is packaged here as an
    [Engine]: it walks down from the document one step at a time and yields
    the element it reaches (one match) or nothing; a query of any other shape
    makes it fail. *)
Module PathEngine.

(** A step by local name: a star, [[local-name()='NAME']] and [[N]]. *)
Definition localStep : Regex.pattern :=
  Regex.Pattern true
    (Regex.Seq (Regex.Lit "*[local-name()='")
       (Regex.Seq (Regex.Plus (Regex.Class Chars.notQuote))
          (Regex.Seq (Regex.Lit "'][")
             (Regex.Seq (Regex.Plus Patterns.digit) (Regex.Lit "]")))))
    true.

(** A step by tag name: [NAME[N]] with [NAME] in [[a-zA-Z0-9_-]+]. *)
Definition tagStep : Regex.pattern :=
  Regex.Pattern true
    (Regex.Seq (Regex.Plus (Regex.Class Chars.isNameChar))
       (Regex.Seq (Regex.Lit "[") (Regex.Seq (Regex.Plus Patterns.digit) (Regex.Lit "]"))))
    true.

Inductive Cursor : Type :=
| AtDocument (doc : Document)
| AtElement (e : Element).

Definition kidsOf (c : Cursor) : list Element :=
  match c with
  | AtDocument doc =>
      match documentElement doc with
      | Some root => [root]
      | None => []
      end
  | AtElement e => children e
  end.

Definition nthChildBy (name : Element -> string) (parent : Cursor)
                      (wanted : string) (index1 : nat) : option Element :=
  if Nat.ltb index1 1 then None
  else nth_error
         (List.filter
            (fun child => Str.toLowerCase (name child) =? Str.toLowerCase wanted)
            (kidsOf parent))
         (index1 - 1).

Definition nthChildByTagName := nthChildBy tagName.
Definition nthChildByLocalName := nthChildBy localName.

Definition step (current : Cursor) (s : string) : option Element :=
  if Regex.test localStep s then
    let (_, afterQuote) := Str.breakAt quote s in
    let (name, rest) := Str.breakAt quote afterQuote in
    let (_, digits) := Str.breakAt "["%char rest in
    nthChildByLocalName current name (Str.toNat (Str.dropLast digits))
  else if Regex.test tagStep s then
    let (name, index) := captureNameAndIndex s in
    nthChildByTagName current name index
  else None.

Fixpoint walk (steps : list string) (current : Cursor) : option Cursor :=
  match steps with
  | [] => Some current
  | s :: rest =>
      match step current s with
      | Some next => walk rest (AtElement next)
      | None => None
      end
  end.

Definition supported (s : string) : bool :=
  Regex.test localStep s || Regex.test tagStep s.

Definition evaluate : Engine :=
  fun xpath ctx =>
    match ctx with
    | ShadowRootContext _ => None
    | DocumentContext doc =>
        let trimmed := Str.trim xpath in
        let steps :=
          Str.filterBoolean (List.map Str.trim (Str.split slash trimmed)) in
        if Str.startsWith slash trimmed && forallb supported steps then
          match walk steps (AtDocument doc) with
          | Some (AtElement e) => Some [ResultElement e]
          | _ => Some []
          end
        else None
    end.

End PathEngine.

(** ** Sample documents *)

Module Sample.

Definition htmlElement (tag loc : string) (attrs : list (string * string))
  : ElementData :=
  {| tag_name := tag; local_name := loc; namespace_uri := Some HTML_NAMESPACE;
     interface := HTMLElementInterface; attribute_list := attrs |}.

Definition svgElement (name : string) : ElementData :=
  {| tag_name := name; local_name := name; namespace_uri := Some SVG_NAMESPACE;
     interface := SVGElementInterface; attribute_list := [] |}.

Definition MATHML_NAMESPACE : string := "http://www.w3.org/1998/Math/MathML".

Definition mathElement (name : string) : ElementData :=
  {| tag_name := name; local_name := name; namespace_uri := Some MATHML_NAMESPACE;
     interface := PlainElementInterface; attribute_list := [] |}.

Definition leaf (d : ElementData) : Node := ElementNode d None [].

(** The element found by following child indices from a located element;
    [inl i] enters the children, [inr i] the shadow root. *)
Fixpoint descend (e : Element) (path : list (nat + nat)) : option Element :=
  match path with
  | [] => Some e
  | inl i :: rest =>
      match nth_error (children e) i with
      | Some c => descend c rest
      | None => None
      end
  | inr i :: rest =>
      match nth_error (shadowRootChildren e) i with
      | Some c => descend c rest
      | None => None
      end
  end.

Definition at_ (doc : Document) (path : list (nat + nat)) : option Element :=
  match documentElement doc with
  | Some root => descend root path
  | None => None
  end.

(** <html><body><div><span/><span/></div>
      <my-product> #shadow-root(open) <section><div/><div><span>Acme</span></div></section>
      </my-product>
      <svg><g/></svg></body></html> *)
Definition shadowContent : list Node :=
  [ElementNode (htmlElement "SECTION" "section" []) None
     [leaf (htmlElement "DIV" "div" []);
      ElementNode (htmlElement "DIV" "div" []) None
        [ElementNode (htmlElement "SPAN" "span" [("class", "title")]) None
           [TextNode "Acme Widget"]]]].

Definition page (mode : ShadowMode) : Document :=
  ElementNode (htmlElement "HTML" "html" []) None
    [ElementNode (htmlElement "BODY" "body" []) None
       [ElementNode (htmlElement "DIV" "div" []) None
          [leaf (htmlElement "SPAN" "span" []); leaf (htmlElement "SPAN" "span" [])];
        ElementNode (htmlElement "MY-PRODUCT" "my-product" []) (Some (mode, shadowContent)) [];
        ElementNode (svgElement "svg") None [leaf (svgElement "g")]]].

End Sample.

(* ===================================================================== *)
(** * Part IV, continued: the resolver of the test suite ([testUtils.ts]) *)
(* ===================================================================== *)

(** What a call that may throw gives back. *)
Inductive Outcome (A : Type) : Type :=
| Threw
| Gave (value : A).

Arguments Threw {A}.
Arguments Gave {A} value.

Module TestUtils.

(** The first pattern of [fallbackEvalXPathSingle]: two slashes, a star, the
    predicate [[local-name()='NAME']] with a [NAME] free of quotes, anchored
    at both ends. *)
Definition localNameDescendant : Regex.pattern :=
  Regex.Pattern true
    (Regex.Seq (Regex.Lit "//*[local-name()='")
       (Regex.Seq (Regex.Plus (Regex.Class Chars.notQuote)) (Regex.Lit "']")))
    true.

(** The capture group of [localNameDescendant]: the text between the first
    quote and the next one. *)
Definition capturedName (s : string) : string :=
  let (_, afterQuote) := Str.breakAt quote s in
  fst (Str.breakAt quote afterQuote).

(** testUtils.ts, lines 98-108: the scan over the children that counts those
    of the wanted local name and stops at the [index]-th. *)
Fixpoint scanChildren (tag : string) (index : nat) (kids : list Element) (seen : nat)
  : option Element :=
  match kids with
  | [] => None
  | child :: rest =>
      if Str.toLowerCase (localName child) =? Str.toLowerCase tag then
        if Nat.eqb (S seen) index then Some child
        else scanChildren tag index rest (S seen)
      else scanChildren tag index rest seen
  end.

(** The loop over the steps of [resolveShadowAbsolutePath]; the pattern of a
    step is that of a step by tag name, [NAME[N]]. *)
Fixpoint shadowStepsLoop (steps : list string) (current : ParentNode) : option ParentNode :=
  match steps with
  | [] => Some current
  | step :: rest =>
      if Regex.test PathEngine.tagStep step then
        let (tag, index) := captureNameAndIndex step in
        if Nat.ltb index 1 then None
        else
          match scanChildren tag index (childrenOf current) 0 with
          | None => None
          | Some next => shadowStepsLoop rest (ParentElement next)
          end
      else None
  end.

(* testUtils.ts, lines 73-115; the loop is [shadowStepsLoop] *)
Definition resolveShadowAbsolutePath (root : Element) (absolutePath : string)
  : option Element :=
  let steps := Str.filterBoolean (List.map Str.trim (Str.split slash absolutePath)) in
  match shadowStepsLoop steps (ParentShadowRoot root) with
  | Some (ParentElement e) => Some e
  | _ => None
  end.

(** The loop over the shadow parts of [resolveGeneratedSelector]. *)
Fixpoint resolveParts (parts : list string) (current : Element) : option Element :=
  match parts with
  | [] => Some current
  | shadowPath :: rest =>
      match shadowRoot current with
      | None => None
      | Some root =>
          match resolveShadowAbsolutePath root shadowPath with
          | None => None
          | Some next => resolveParts rest next
          end
      end
  end.

Section Evaluation.

Variable evaluate : Engine.
(** [doc.querySelector], of the host environment: it throws on a selector it
    cannot parse. *)
Variable querySelector : Document -> string -> Outcome (option Element).

(* testUtils.ts, lines 117-168; the walk over the steps is [PathEngine.walk] *)
Definition fallbackEvalXPathSingle (doc : Document) (xpath : string)
  : Outcome (option Element) :=
  let trimmed := Str.trim xpath in
  if Regex.test localNameDescendant trimmed then
    querySelector doc (Str.toLowerCase (capturedName trimmed))
  else if Str.startsWith slash trimmed then
    let steps := Str.filterBoolean (List.map Str.trim (Str.split slash trimmed)) in
    match PathEngine.walk steps (PathEngine.AtDocument doc) with
    | Some (PathEngine.AtElement e) => Gave (Some e)
    | _ => Gave None
    end
  else Gave None.

(* testUtils.ts, lines 23-41 *)
Definition evalXPathSingle (doc : Document) (xpath : string) : Outcome (option Element) :=
  match evaluate xpath (DocumentContext doc) with
  | Some (ResultElement e :: _) => Gave (Some e)
  | Some _ => Gave None
  | None => fallbackEvalXPathSingle doc xpath
  end.

(* testUtils.ts, lines 50-71; the loop over the shadow parts is [resolveParts] *)
Definition resolveGeneratedSelector (doc : Document) (selector : string)
  : Outcome (option Element) :=
  match Str.filterBoolean (Str.split bar selector) with
  | [] => Gave None
  | docXpath :: rest =>
      match evalXPathSingle doc docXpath with
      | Threw => Threw
      | Gave None => Gave None
      | Gave (Some current) => Gave (resolveParts rest current)
      end
  end.

End Evaluation.

(** A [querySelector] for documents where no selector is looked up. *)
Definition noQuerySelector (_ : Document) (_ : string) : Outcome (option Element) :=
  Gave None.

End TestUtils.

(* ===================================================================== *)
(** * Part IV, continued: the history of saved selectors (storage, in [Menu.tsx])   *)
(* ===================================================================== *)

Module History.

Record HistoryItem : Type := {
  selector : string;
  pageUrl : string;
  iconUrl : string;
  timestamp : Z;
  innerText : string
}.

(** [Omit<HistoryItem, 'timestamp'>] *)
Record NewItem : Type := {
  newSelector : string;
  newPageUrl : string;
  newIconUrl : string;
  newInnerText : string
}.

(** [{ ...item, timestamp: Date.now() }] *)
Definition stamp (item : NewItem) (now : Z) : HistoryItem :=
  {| selector := newSelector item; pageUrl := newPageUrl item;
     iconUrl := newIconUrl item; timestamp := now;
     innerText := newInnerText item |}.

Definition HISTORY_LIMIT : nat := 50.

(** [chrome.storage.local], as far as the history uses it, over the states
    [S] of the browser storage.  Each call gives a promise: it resolves
    ([Some]) or it rejects ([None], nothing written).  [get] resolves with
    what is kept under the key [history], if anything. *)
Record StorageArea (S : Type) : Type := {
  get : S -> option (option (list HistoryItem));
  set : list HistoryItem -> S -> option S;
  remove : S -> option S
}.

Arguments get {S}.
Arguments set {S}.
Arguments remove {S}.

Section Storage.

Variable S : Type.
(** [chrome.storage.local] when [chrome] is defined and has a storage. *)
Variable chrome : option (StorageArea S).

(* Menu.tsx (storage), [getHistoryItems] *)
Definition getHistoryItems (s : S) : list HistoryItem :=
  match chrome with
  | Some area =>
      match get area s with
      | Some (Some history) => history      (* [result.history || []] *)
      | Some None => []
      | None => []                          (* [catch]: logged *)
      end
  | None => []
  end.

(* Menu.tsx (storage), [saveHistoryItem] *)
Definition saveHistoryItem (now : Z) (item : NewItem) (s : S) : S :=
  let newItem := stamp item now in
  let items := getHistoryItems s in
  let updatedItems := List.firstn HISTORY_LIMIT (newItem :: items) in
  match chrome with
  | Some area =>
      match set area updatedItems s with
      | Some s' => s'
      | None => s                           (* [catch]: logged *)
      end
  | None => s
  end.

(* Menu.tsx (storage), [removeHistoryItem] *)
Definition removeHistoryItem (stampOf : Z) (s : S) : S :=
  match chrome with
  | Some area =>
      let items := getHistoryItems s in
      let updatedItems :=
        List.filter (fun item => negb (timestamp item =? stampOf)%Z) items in
      match set area updatedItems s with
      | Some s' => s'
      | None => s
      end
  | None => s
  end.

(* Menu.tsx (storage), [clearHistory] *)
Definition clearHistory (s : S) : S :=
  match chrome with
  | Some area =>
      match remove area s with
      | Some s' => s'
      | None => s
      end
  | None => s
  end.

(** The calls a page makes, one after the other. *)
Inductive Call : Type :=
| Save (now : Z) (item : NewItem)
| Remove (stampOf : Z)
| Clear.

Definition perform (c : Call) (s : S) : S :=
  match c with
  | Save now item => saveHistoryItem now item s
  | Remove stampOf => removeHistoryItem stampOf s
  | Clear => clearHistory s
  end.

Definition performAll (calls : list Call) (s : S) : S :=
  List.fold_left (fun s c => perform c s) calls s.

End Storage.

(** A storage area that keeps what it is given: the state is the value under
    the key [history], if any. *)
Definition memoryArea : StorageArea (option (list HistoryItem)) :=
  {| get := fun s => Some s;
     set := fun history _ => Some (Some history);
     remove := fun _ => Some None |}.

(** A storage area every call of which rejects. *)
Definition brokenArea : StorageArea (option (list HistoryItem)) :=
  {| get := fun _ => None;
     set := fun _ _ => None;
     remove := fun _ => None |}.

End History.

(* ===================================================================== *)
(** * Part V: the notions of the specification                            *)
(* ===================================================================== *)

(** ** Identifier stability, in the words of the specification *)

(** A long hex run: 10 or more characters, each a hex digit or a hyphen (the
    shape of a UUID or of a hash). *)
Definition LongHexRun (i : string) : Prop :=
  10 <= String.length i /\ Str.all Chars.isHexDash i = true.

Definition AlnumToken (t : string) : Prop :=
  t <> EmptyString /\ Str.all Chars.isAlnum t = true.

(** Two alphanumeric tokens, each between underscores, somewhere in [i]. *)
Definition HasUnderscoreTokens (i : string) : Prop :=
  exists pre t1 t2 post,
    i = pre ++ "_" ++ t1 ++ "_" ++ t2 ++ "_" ++ post
    /\ AlnumToken t1 /\ AlnumToken t2.

(** [i] ends in 5 or more digits. *)
Definition EndsInManyDigits (i : string) : Prop :=
  exists pre ds,
    i = pre ++ ds /\ 5 <= String.length ds /\ Str.all Chars.isDigit ds = true.

Definition FRAMEWORK_PREFIXES : list string := ["ember"; "react-"; "vue-"].

(** [i] starts with a framework prefix, optionally followed by digits. *)
Definition StartsWithFrameworkPrefix (i : string) : Prop :=
  exists prefix ds rest,
    In prefix FRAMEWORK_PREFIXES
    /\ Str.all Chars.isDigit ds = true
    /\ i = prefix ++ ds ++ rest.

(** [i] ends in an underscore and 1 to 4 digits. *)
Definition EndsInUnderscoreDigits (i : string) : Prop :=
  exists pre ds,
    i = pre ++ "_" ++ ds
    /\ (1 <= String.length ds <= 4) /\ Str.all Chars.isDigit ds = true.

(** The five grounds of rejection. *)
Definition RejectedShape (i : string) : Prop :=
  LongHexRun i \/ HasUnderscoreTokens i \/ EndsInManyDigits i
  \/ StartsWithFrameworkPrefix i \/ EndsInUnderscoreDigits i.

(** ** Node tests, in the words of the specification *)

(** The lowercase tag name. *)
Definition plainTest (e : Element) : string := Str.toLowerCase (tagName e).

(** The namespace-agnostic wildcard with a local-name predicate. *)
Definition wildcardTest (e : Element) : string :=
  "*[local-name()='" ++ Str.toLowerCase (tagName e) ++ "']".

Definition inNamespace (ns : string) (e : Element) : Prop :=
  namespaceURI e = Some ns.

Definition isSVGElement (e : Element) : Prop :=
  interface (self e) = SVGElementInterface.

(** A MathML element, alone in its document. *)
Definition mathRoot : Element :=
  {| self := Sample.mathElement "math"; shadowTree := None; childNodes := [];
     context := [] |}.

(** An [svg] element, alone in its document. *)
Definition svgRoot : Element :=
  {| self := Sample.svgElement "svg"; shadowTree := None; childNodes := [];
     context := [] |}.

(** An engine that supports nothing: every evaluation fails. *)
Definition failingEngine : Engine := fun _ _ => None.

(** The second [span] of the sample page. *)
Definition secondSpan : Element :=
  {| self := Sample.htmlElement "SPAN" "span" [];
     shadowTree := None; childNodes := [];
     context :=
       [InChildren [Sample.leaf (Sample.htmlElement "SPAN" "span" [])]
                   (Sample.htmlElement "DIV" "div" []) None [];
        InChildren []
                   (Sample.htmlElement "BODY" "body" []) None
                   [ElementNode (Sample.htmlElement "MY-PRODUCT" "my-product" [])
                                (Some (OpenMode, Sample.shadowContent)) [];
                    ElementNode (Sample.svgElement "svg") None
                                [Sample.leaf (Sample.svgElement "g")]];
        InChildren [] (Sample.htmlElement "HTML" "html" []) None []] |}.

(** ** Ranking, in the words of the specification *)

(** The steps of a selector, in the words of the specification: its
    non-empty segments, a segment being what stands between two slashes, or
    between an end of the selector and a slash.  The scan goes through the
    characters and counts the places where a non-empty segment begins: a
    character other than a slash that comes first or follows a slash. *)
Fixpoint segmentsFrom (insideSegment : bool) (s : string) : nat :=
  match s with
  | EmptyString => 0
  | String c s' =>
      if (c =? "/")%char then segmentsFrom false s'
      else (if insideSegment then 0 else 1) + segmentsFrom true s'
  end.

Definition pathSteps (selector : string) : nat := segmentsFrom false selector.

(** [best] is preferred to [c]: its score is at least as high; at equal
    scores it has no more steps; at equal scores and steps it is no longer. *)
Definition Preferred (best c : Candidate) : Prop :=
  (score c <= score best)%Z
  /\ (score c = score best -> pathSteps (xpath best) <= pathSteps (xpath c))
  /\ (score c = score best ->
      pathSteps (xpath c) = pathSteps (xpath best) ->
      String.length (xpath best) <= String.length (xpath c)).

(** The order of the comparator: [a] does not come after [b]. *)
Definition rankedBefore (a b : Candidate) : Prop := (compareCandidates a b <= 0)%Z.

(** The head of a list comes before every member. *)
Definition headFirst (l : list Candidate) : Prop :=
  match l with
  | [] => True
  | h :: _ => forall c, In c l -> rankedBefore h c
  end.

(** An engine for the sample page: absolute paths are walked; three more
    queries are answered from a table, with the nodes they select on the
    page. *)
Definition selects (path : list (nat + nat)) : list ResultNode :=
  match Sample.at_ (Sample.page OpenMode) path with
  | Some e => [ResultElement e]
  | None => []
  end.

Definition sampleTable : list (string * list ResultNode) :=
  [("//body", selects [inl 0]);
   ("//div", selects [inl 0; inl 0]);
   ("//div/span[2]", selects [inl 0; inl 0; inl 1]);
   ("//body/div[1]/span[2]", selects [inl 0; inl 0; inl 1]);
   ("//span", selects [inl 0; inl 0; inl 0] ++ selects [inl 0; inl 0; inl 1])%list].

Fixpoint lookupQuery (x : string) (table : list (string * list ResultNode))
  : option (list ResultNode) :=
  match table with
  | [] => None
  | (q, r) :: rest => if (q =? x)%string then Some r else lookupQuery x rest
  end.

Definition sampleEngine : Engine :=
  fun x ctx =>
    match ctx with
    | DocumentContext _ =>
        match lookupQuery x sampleTable with
        | Some r => Some r
        | None => PathEngine.evaluate x ctx
        end
    | ShadowRootContext _ => None
    end.

(** ** Walks towards the root *)

(** The tag names of the parent elements, nearest first, up to the root of
    the tree the element is in (a document or a shadow root). *)
Fixpoint parentTags (ctx : list Frame) : list string :=
  match ctx with
  | InChildren _ d _ _ :: rest => tag_name d :: parentTags rest
  | _ => []
  end.

(** The number of parents visited by a walk that ends with the first
    [BODY]. *)
Fixpoint turnsUntilBody (tags : list string) : nat :=
  match tags with
  | [] => 0
  | t :: rest => if t =? "BODY" then 1 else S (turnsUntilBody rest)
  end.

(** Elements of the sample page, by their place. *)
Definition sampleElement (path : list (nat + nat)) : Element :=
  match Sample.at_ (Sample.page OpenMode) path with
  | Some e => e
  | None => secondSpan
  end.

(** The custom element of the sample page, a shadow host, and the [span]
    inside its shadow root. *)
Definition productHost : Element := sampleElement [inl 0; inl 1].
Definition shadowSpan : Element := sampleElement [inl 0; inl 1; inr 0; inl 1; inl 0].

(** ** Shadow-compound selectors, in the words of the specification *)

(** The parent elements of a node inside its own tree, nearest first. *)
Fixpoint parentsFrom (n : Node) (ctx : list Frame) : list Element :=
  match ctx with
  | InChildren before d shadow after :: rest =>
      let p := {| self := d; shadowTree := shadow;
                  childNodes := rev_append before (n :: after);
                  context := rest |} in
      p :: parentsFrom (toNode p) rest
  | _ => []
  end.

Definition parents (e : Element) : list Element := parentsFrom (toNode e) (context e).

(** The element and its ancestors up to, but not including, the root of its
    tree; outermost first. *)
Definition scopePath (e : Element) : list Element := List.rev (e :: parents e).

(** The hosts of the shadow roots around a node, nearest first. *)
Fixpoint hostsFrom (n : Node) (ctx : list Frame) : list Element :=
  match ctx with
  | [] => []
  | InChildren before d shadow after :: rest =>
      hostsFrom (ElementNode d shadow (rev_append before (n :: after))) rest
  | InShadowRoot before d mode hostKids after :: rest =>
      let h := {| self := d;
                  shadowTree := Some (mode, rev_append before (n :: after));
                  childNodes := hostKids;
                  context := rest |} in
      h :: hostsFrom (toNode h) rest
  end.

Definition hosts (e : Element) : list Element := hostsFrom (toNode e) (context e).

(** The outermost shadow host: an element of the document. *)
Definition outermostHost (e : Element) : Element := List.last (hosts e) e.

(** The elements that lie directly in a shadow tree on the way to [e]: [e]
    and every host but the outermost; outermost first. *)
Definition crossings (e : Element) : list Element :=
  List.rev (List.removelast (e :: hosts e)).

(** The elements among some nodes. *)
Fixpoint elementData (l : list Node) : list ElementData :=
  match l with
  | [] => []
  | TextNode _ :: rest => elementData rest
  | ElementNode d _ _ :: rest => d :: elementData rest
  end.

Definition hasLocalName (tag : string) (d : ElementData) : bool :=
  Str.toLowerCase (local_name d) =? tag.

(** The 1-based index of an element among the siblings of its local name
    (compared in lower case) that come before it. *)
Definition sameNameIndex (e : Element) : nat :=
  S (List.length
       (List.filter (hasLocalName (Str.toLowerCase (localName e)))
                    (elementData (precedingSiblings e)))).

Definition shadowStep (e : Element) : string :=
  pathStep (Str.toLowerCase (localName e)) (sameNameIndex e).

(** The absolute path of an element inside its shadow root: one step for
    each element of its scope path. *)
Definition expectedShadowPath (e : Element) : string :=
  "/" ++ Str.join "/" (List.map shadowStep (scopePath e)).

Definition frameBefore (f : Frame) : list Node :=
  match f with
  | InChildren before _ _ _ => before
  | InShadowRoot before _ _ _ _ => before
  end.

Definition frameAfter (f : Frame) : list Node :=
  match f with
  | InChildren _ _ _ after => after
  | InShadowRoot _ _ _ _ after => after
  end.

(** The children of the parent node of [e] that come before [e]; [f] is the
    frame of [e]. *)
Definition earlierSiblings (e : Element) (f : Frame) (rest : list Frame) : list Element :=
  locate (fun b a => refocus f b (a ++ toNode e :: frameAfter f)%list) rest []
         (List.rev (frameBefore f)).

(** ** Resolution, in the words of the specification *)

(** A local name the step parser of the resolver reads back: not empty, made
    of the characters [[a-zA-Z0-9_-]]. *)
Definition NameOk (name : string) : Prop :=
  name <> EmptyString /\ Str.all Chars.isNameChar name = true.

(** A host whose shadow root is open. *)
Definition OpenHost (h : Element) : Prop :=
  exists kids, shadowTree h = Some (OpenMode, kids).

(** A selector that begins with a slash. *)
Definition Rooted (s : string) : Prop := Str.startsWith slash s = true.

(** The [g] element inside the [svg] of the sample page, and the [span] inside
    a closed shadow root. *)
Definition svgGroup : Element := sampleElement [inl 0; inl 2; inl 0].

Definition closedShadowSpan : Element :=
  match Sample.at_ (Sample.page ClosedMode) [inl 0; inl 1; inr 0; inl 1; inl 0] with
  | Some e => e
  | None => secondSpan
  end.

(** ** Absolute paths *)

(** A page with an [svg] whose two children have tag names that differ only
    in letter case:
    <html><body><svg><linearGradient/><lineargradient/></svg></body></html> *)
Definition gradientPage : Document :=
  ElementNode (Sample.htmlElement "HTML" "html" []) None
    [ElementNode (Sample.htmlElement "BODY" "body" []) None
       [ElementNode (Sample.svgElement "svg") None
          [Sample.leaf (Sample.svgElement "linearGradient");
           Sample.leaf (Sample.svgElement "lineargradient")]]].

Definition gradientAt (i : nat) : Element :=
  match Sample.at_ gradientPage [inl 0; inl 0; inl i] with
  | Some e => e
  | None => secondSpan
  end.

Definition firstGradient : Element := gradientAt 0.
Definition secondGradient : Element := gradientAt 1.

(** One step of the absolute path of an element. *)
Definition absoluteStep (x : Element) : string :=
  pathStep (getNodeTest x) (getElementIndex x).

(** What the path engine asks of a child when it evaluates the step of [x]:
    the local name (for a local-name step) or the tag name (for a plain
    step), compared in lower case. *)
Definition queryMatches (x : Element) (d : ElementData) : bool :=
  if isSvg x
  then Str.toLowerCase (local_name d) =? Str.toLowerCase (tagName x)
  else Str.toLowerCase (tag_name d) =? Str.toLowerCase (tagName x).

(** The step of [x] and the index of [x] agree: [x] passes its own node test,
    and among its preceding siblings the node test picks exactly those of the
    same [tagName] (none differs from [x] by letter case only). *)
Definition PathAgrees (x : Element) : Prop :=
  queryMatches x (self x) = true
  /\ Forall (fun d => queryMatches x d = (tag_name d =? tagName x))
            (elementData (precedingSiblings x)).

(** An engine with a gap the test utilities of the repository report for
    jsdom: it fails on every query that calls [local-name()]. *)
Definition callsLocalName : Regex.pattern :=
  Regex.Pattern false (Regex.Lit "local-name()") false.

Definition engineWithoutLocalName : Engine :=
  fun x ctx => if Regex.test callsLocalName x then None else PathEngine.evaluate x ctx.

(** ** A label before two prices *)

(** A page with two prices, each after its label; the first label holds its
    text in a [b]:
    <html><body>
      <p><span><b>Price</b></span><em>19</em></p>
      <p><span>Price</span><em>20</em></p>
    </body></html> *)
Definition pricePage : Document :=
  ElementNode (Sample.htmlElement "HTML" "html" []) None
    [ElementNode (Sample.htmlElement "BODY" "body" []) None
       [ElementNode (Sample.htmlElement "P" "p" []) None
          [ElementNode (Sample.htmlElement "SPAN" "span" []) None
             [ElementNode (Sample.htmlElement "B" "b" []) None [TextNode "Price"]];
           ElementNode (Sample.htmlElement "EM" "em" []) None [TextNode "19"]];
        ElementNode (Sample.htmlElement "P" "p" []) None
          [ElementNode (Sample.htmlElement "SPAN" "span" []) None [TextNode "Price"];
           ElementNode (Sample.htmlElement "EM" "em" []) None [TextNode "20"]]]].

Definition priceAt (path : list (nat + nat)) : Element :=
  match Sample.at_ pricePage path with
  | Some e => e
  | None => secondSpan
  end.

Definition firstPrice : Element := priceAt [inl 0; inl 0; inl 1].
Definition secondPrice : Element := priceAt [inl 0; inl 1; inl 1].

(** What XPath selects on the page of the prices, for the queries the
    generator makes there.  [text()] takes the text nodes that are children:
    the first [span] has none, so that the label query selects the second
    [span] alone, and the [em] that follows it is the second price. *)
Definition priceTable : list (string * list ResultNode) :=
  [("//span[normalize-space(text())='Price']",
    [ResultElement (priceAt [inl 0; inl 1; inl 0])]);
   ("//span[normalize-space(text())='Price']/following-sibling::em[1]",
    [ResultElement secondPrice]);
   ("//p", [ResultElement (priceAt [inl 0; inl 0]); ResultElement (priceAt [inl 0; inl 1])]);
   ("//body", [ResultElement (priceAt [inl 0])]);
   ("//body/p[1]/em[1]", [ResultElement firstPrice]);
   ("//span", [ResultElement (priceAt [inl 0; inl 0; inl 0]);
               ResultElement (priceAt [inl 0; inl 1; inl 0])]);
   ("//span[normalize-space(.)='Price']",
    [ResultElement (priceAt [inl 0; inl 0; inl 0]);
     ResultElement (priceAt [inl 0; inl 1; inl 0])])].

(** An engine for the page of the prices: the table, and the walk of
    absolute paths; [unknown] answers any other query. *)
Definition tableEngine (table : list (string * list ResultNode))
                       (unknown : option (list ResultNode)) : Engine :=
  fun x ctx =>
    match ctx with
    | DocumentContext _ =>
        match lookupQuery x table with
        | Some r => Some r
        | None =>
            match PathEngine.evaluate x ctx with
            | Some r => Some r
            | None => unknown
            end
        end
    | ShadowRootContext _ => None
    end.

Definition priceEngine : Engine := tableEngine priceTable None.

(** ** A gradient *)

(** A page with one gradient:
    <html><body><svg><linearGradient/></svg></body></html> *)
Definition loneGradientPage : Document :=
  ElementNode (Sample.htmlElement "HTML" "html" []) None
    [ElementNode (Sample.htmlElement "BODY" "body" []) None
       [ElementNode (Sample.svgElement "svg") None
          [Sample.leaf (Sample.svgElement "linearGradient")]]].

Definition loneGradientAt (path : list (nat + nat)) : Element :=
  match Sample.at_ loneGradientPage path with
  | Some e => e
  | None => secondSpan
  end.

Definition loneGradient : Element := loneGradientAt [inl 0; inl 0; inl 0].

(** The walk of an absolute path as XPath makes it.  A step
    [*[local-name()='NAME'][N]] takes the [N]-th child whose local name is
    [NAME], letter for letter; a step [NAME[N]] takes, in an HTML document,
    the [N]-th child that is an HTML element with the local name [NAME]. *)
Module ExactWalk.

Definition isHtml (e : Element) : bool :=
  match namespaceURI e with
  | Some ns => ns =? HTML_NAMESPACE
  | None => false
  end.

Definition nthChild (selects : Element -> bool) (parent : PathEngine.Cursor)
                    (index1 : nat) : option Element :=
  if Nat.ltb index1 1 then None
  else nth_error (List.filter selects (PathEngine.kidsOf parent)) (index1 - 1).

Definition step (current : PathEngine.Cursor) (s : string) : option Element :=
  if Regex.test PathEngine.localStep s then
    let (_, afterQuote) := Str.breakAt quote s in
    let (name, rest) := Str.breakAt quote afterQuote in
    let (_, digits) := Str.breakAt "["%char rest in
    nthChild (fun child => localName child =? name) current
             (Str.toNat (Str.dropLast digits))
  else if Regex.test PathEngine.tagStep s then
    let (name, index) := captureNameAndIndex s in
    nthChild (fun child => isHtml child && (localName child =? Str.toLowerCase name))
             current index
  else None.

Fixpoint walk (steps : list string) (current : PathEngine.Cursor)
  : option PathEngine.Cursor :=
  match steps with
  | [] => Some current
  | s :: rest =>
      match step current s with
      | Some next => walk rest (PathEngine.AtElement next)
      | None => None
      end
  end.

(** The matches of an absolute path of indexed steps; no answer for a query
    of another shape. *)
Definition evaluate (x : string) (doc : Document) : option (list ResultNode) :=
  let steps := Str.filterBoolean (Str.split slash x) in
  if Str.startsWith slash x && forallb PathEngine.supported steps then
    match walk steps (PathEngine.AtDocument doc) with
    | Some (PathEngine.AtElement e) => Some [ResultElement e]
    | _ => Some []
    end
  else None.

End ExactWalk.

(** What XPath selects on the page of the gradient, for the queries the
    generator makes there: the table, and the exact walk of absolute
    paths. *)
Definition gradientTable : list (string * list ResultNode) :=
  [("//body", [ResultElement (loneGradientAt [inl 0])]);
   ("//*[local-name()='svg']", [ResultElement (loneGradientAt [inl 0; inl 0])]);
   ("//*[local-name()='svg']/*[local-name()='lineargradient'][1]", []);
   ("//body/*[local-name()='svg'][1]/*[local-name()='lineargradient'][1]", [])].

Definition exactEngine (table : list (string * list ResultNode))
                       (unknown : option (list ResultNode)) : Engine :=
  fun x ctx =>
    match ctx with
    | DocumentContext doc =>
        match lookupQuery x table with
        | Some r => Some r
        | None =>
            match ExactWalk.evaluate x doc with
            | Some r => Some r
            | None => unknown
            end
        end
    | ShadowRootContext _ => None
    end.

Definition gradientEngine : Engine := exactEngine gradientTable None.

(** ** Class names and texts *)

(** Some character of [s] satisfies [p]. *)
Definition Contains (p : ascii -> bool) (s : string) : Prop :=
  exists pre c post, s = pre ++ String c post /\ p c = true.

(** A class name as CSS-in-JS libraries make them: [css-] or [sc-], then an
    alphanumeric token. *)
Definition CssInJsName (c : string) : Prop :=
  exists t, (c = "css-" ++ t \/ c = "sc-" ++ t) /\ AlnumToken t.

(** Ten or more characters, all of them letters or digits. *)
Definition MinifiedName (c : string) : Prop :=
  10 <= String.length c /\ Str.all Chars.isAlnum c = true.

(** A capital letter followed by one or more small letters. *)
Definition Capitalized (w : string) : Prop :=
  exists c rest,
    w = String c rest /\ Chars.isUpper c = true
    /\ rest <> EmptyString /\ Str.all Chars.isLower rest = true.

(** Two or three capitalized words, one space between them. *)
Definition PersonName (text : string) : Prop :=
  (exists a b, text = a ++ " " ++ b /\ Capitalized a /\ Capitalized b)
  \/ (exists a b c,
        text = a ++ " " ++ b ++ " " ++ c
        /\ Capitalized a /\ Capitalized b /\ Capitalized c).

(** One word of small letters. *)
Definition LowercaseWord (text : string) : Prop :=
  text <> EmptyString /\ Str.all Chars.isLower text = true.

(** The text a text anchor is made of. *)
Definition anchorText (e : Element) : string := Str.trim (textContent e).

(** A [button] with a text, alone in its document. *)
Definition cartButton : Element :=
  {| self := Sample.htmlElement "BUTTON" "button" [("name", "buy")];
     shadowTree := None; childNodes := [TextNode "  Add to cart "];
     context := [] |}.

(** ** Candidates *)

(** [l1] is what remains of [l2] when some of its members are dropped: the
    members kept are in their order. *)
Inductive Subsequence {A : Type} : list A -> list A -> Prop :=
| SubsequenceNil : Subsequence [] []
| SubsequenceDrop x l1 l2 : Subsequence l1 l2 -> Subsequence l1 (x :: l2)
| SubsequenceKeep x l1 l2 : Subsequence l1 l2 -> Subsequence (x :: l1) (x :: l2).

(** The selector by identifier. *)
Definition idXPath (e : Element) : string := "//*[@id='" ++ id e ++ "']".

(** The selector by an attribute. *)
Definition attributeXPath (e : Element) (name value : string) : string :=
  "//" ++ getNodeTest e ++ "[@" ++ name ++ "='" ++ value ++ "']".

(** The selector by classes. *)
Definition classXPath (e : Element) (classes : list string) : string :=
  "//" ++ getNodeTest e ++ "[" ++ buildClassPredicate classes ++ "]".

(** An attribute that [getUniqueStableAttribute] may return: present, with a
    stable value, and selecting one node. *)
Definition Qualifies (evaluate : Engine) (e : Element) (name value : string) : Prop :=
  getAttribute e name = Some value
  /\ isStableId value = true
  /\ isUnique evaluate (attributeXPath e name value) (ownerDocument e) = true.

(** The last [k] steps of the absolute path of [e], joined: the path from
    the [k]-th parent down to [e]. *)
Definition relativePath (e : Element) (k : nat) : string :=
  Str.join "/" (List.map absoluteStep (List.rev (List.firstn k (e :: parents e)))).

(** A page of a shop:
    <html><body><h1 id=product-title class=title>Acme Widget</h1>
      <button name=buy class=btn>Add to cart</button></body></html> *)
Definition shopPage : Document :=
  ElementNode (Sample.htmlElement "HTML" "html" []) None
    [ElementNode (Sample.htmlElement "BODY" "body" []) None
       [ElementNode (Sample.htmlElement "H1" "h1"
                       [("id", "product-title"); ("class", "title css-1q2w3e")])
                    None [TextNode "Acme Widget"];
        ElementNode (Sample.htmlElement "BUTTON" "button"
                       [("name", "buy"); ("class", "btn")])
                    None [TextNode "Add to cart"]]].

Definition shopAt (path : list (nat + nat)) : Element :=
  match Sample.at_ shopPage path with
  | Some e => e
  | None => secondSpan
  end.

Definition shopBody : Element := shopAt [inl 0].
Definition shopTitle : Element := shopAt [inl 0; inl 0].
Definition shopButton : Element := shopAt [inl 0; inl 1].

(** An engine for the page of the shop: the queries of the table are
    answered with the nodes they select on the page, absolute paths are
    walked, and every other query has no match. *)
Definition shopTable : list (string * list ResultNode) :=
  [("//body", [ResultElement shopBody]);
   ("//h1", [ResultElement shopTitle]);
   ("//button", [ResultElement shopButton]);
   ("//*[@id='product-title']", [ResultElement shopTitle]);
   ("//h1[@id='product-title']", [ResultElement shopTitle]);
   ("//button[@name='buy']", [ResultElement shopButton]);
   ("//button[normalize-space(.)='Add to cart']", [ResultElement shopButton]);
   ("//h1[contains(@class, 'title')]", [ResultElement shopTitle]);
   ("//button[contains(@class, 'btn')]", [ResultElement shopButton])].

Definition shopEngine : Engine :=
  fun x ctx =>
    match ctx with
    | DocumentContext _ =>
        match lookupQuery x shopTable with
        | Some r => Some r
        | None =>
            match PathEngine.evaluate x ctx with
            | Some r => Some r
            | None => Some []
            end
        end
    | ShadowRootContext _ => None
    end.

(** ** Steps of a shadow path *)

(** A step [NAME[DIGITS]]: the name is made of the characters
    [[a-zA-Z0-9_-]] or is a star, the index is made of decimal digits. *)
Definition IndexedStep (seg name digits : string) : Prop :=
  seg = name ++ "[" ++ digits ++ "]"
  /\ (NameOk name \/ name = "*")
  /\ digits <> EmptyString /\ Str.all Chars.isDigit digits = true.

(** A character that is neither white space nor a star. *)
Definition isPlain (c : ascii) : bool :=
  negb (Chars.isSpace c) && negb (c =? "*")%char.

(** ** The history of saved selectors *)

(** A storage area that keeps its word: after a [set] that resolved, [get]
    resolves with what was set; after a [remove] that resolved, [get]
    resolves with nothing. *)
Definition Lawful {S : Type} (area : History.StorageArea S) : Prop :=
  (forall history s s',
      History.set area history s = Some s' ->
      History.get area s' = Some (Some history))
  /\ (forall s s',
        History.remove area s = Some s' -> History.get area s' = Some None).

(** The items are in the order of their time stamps, the newest first, and
    none is later than [latest]. *)
Fixpoint NewestFirst (latest : Z) (items : list History.HistoryItem) : Prop :=
  match items with
  | [] => True
  | item :: rest =>
      (History.timestamp item <= latest)%Z /\ NewestFirst (History.timestamp item) rest
  end.

(** The clock does not go back: every save is stamped no earlier than the
    one before, and than [latest]. *)
Fixpoint Chronological (latest : Z) (calls : list History.Call) : Prop :=
  match calls with
  | [] => True
  | History.Save now _ :: rest => (latest <= now)%Z /\ Chronological now rest
  | _ :: rest => Chronological latest rest
  end.

Definition sampleItem (s : string) : History.NewItem :=
  {| History.newSelector := s; History.newPageUrl := "https://shop.example/p/1";
     History.newIconUrl := "https://shop.example/favicon.ico";
     History.newInnerText := "Acme Widget" |}.

(** ** Sibling anchors *)

(** The number of siblings with the tag, at the places strictly between [lo]
    and [hi]. *)
Definition sameTagStrictlyBetween (siblings : list Element) (tag : string)
                                  (lo hi : nat) : nat :=
  List.length (List.filter (sameTagAt siblings tag) (seq (S lo) (hi - S lo))).

(* ===================================================================== *)
(** * Part VI: lemmas                                                     *)
(* ===================================================================== *)

(** ** Examples: the scenarios of the specification *)

Example sample_elements :
  Sample.at_ (Sample.page OpenMode) [inl 0; inl 0; inl 1] = Some secondSpan
  /\ localName productHost = "my-product"
  /\ localName shadowSpan = "span"
  /\ shadowDepth shadowSpan = 1
  /\ localName svgGroup = "g".
Proof. repeat split. Qed.

Example stable_identifiers :
  isStableId "product-title" = true
  /\ isStableId "u_0_9_QM" = false
  /\ isStableId "3f2a9c1e-77b0" = false
  /\ isStableId "item-482913" = false
  /\ isStableId "ember42" = false
  /\ isStableId "row_17" = false.
Proof. repeat split; vm_compute; reflexivity. Qed.

Example stable_classes :
  isStableClass "productTitle" = false
  /\ isStableClass "title" = true
  /\ isStableClass "md:flex" = false
  /\ isStableClass "css-1q2w3e" = false
  /\ isStableClass "col2" = false.
Proof. repeat split; vm_compute; reflexivity. Qed.

Example shadow_scenario :
  generateXPath PathEngine.evaluate (ElementArgument shadowSpan)
  = Returns "/html[1]/body[1]/my-product[1]|/section[1]/div[2]/span[1]"
  /\ resolveElementFromStoredSelector PathEngine.evaluate (Sample.page OpenMode)
       "/html[1]/body[1]/my-product[1]|/section[1]/div[2]/span[1]"
     = Some shadowSpan.
Proof. split; vm_compute; reflexivity. Qed.

Example svg_scenario :
  generateXPath PathEngine.evaluate (ElementArgument svgGroup)
  = Returns "/html[1]/body[1]/*[local-name()='svg'][1]/*[local-name()='g'][1]".
Proof. vm_compute. reflexivity. Qed.

Example ranking_scenario :
  List.map xpath (dedupeAndValidate sampleEngine (collectAllCandidates sampleEngine secondSpan)
                                    (ownerDocument secondSpan))
  = ["//div/span[2]"; "//body/div[1]/span[2]"; "/html[1]/body[1]/div[1]/span[2]"]
  /\ generateXPath sampleEngine (ElementArgument secondSpan) = Returns "//div/span[2]".
Proof. split; vm_compute; reflexivity. Qed.

(** ** Strings *)

Lemma append_nil_r (s : string) : s ++ EmptyString = s.
Proof. induction s as [| c s IH]; simpl; congruence. Qed.

Lemma append_assoc (s t u : string) : (s ++ t) ++ u = s ++ (t ++ u).
Proof. induction s as [| c s IH]; simpl; congruence. Qed.

Lemma length_append (s t : string) :
  String.length (s ++ t) = String.length s + String.length t.
Proof. induction s as [| c s IH]; simpl; congruence. Qed.

Lemma append_eq_nil (s t : string) :
  s ++ t = EmptyString -> s = EmptyString /\ t = EmptyString.
Proof. destruct s; simpl; intros H; [split; trivial | discriminate]. Qed.

Lemma all_append (p : ascii -> bool) (s t : string) :
  Str.all p (s ++ t) = Str.all p s && Str.all p t.
Proof.
  induction s as [| c s IH]; simpl; [reflexivity |].
  rewrite IH. apply andb_assoc.
Qed.

Lemma all_impl (p q : ascii -> bool) (s : string) :
  (forall c, p c = true -> q c = true) -> Str.all p s = true -> Str.all q s = true.
Proof.
  intros Hpq. induction s as [| c s IH]; simpl; [trivial |].
  rewrite !andb_true_iff. intros [Hc Hs]. auto.
Qed.

Lemma isEmpty_true (s : string) : Str.isEmpty s = true <-> s = EmptyString.
Proof. destruct s; simpl; split; congruence. Qed.

Lemma isEmpty_false (s : string) : Str.isEmpty s = false <-> s <> EmptyString.
Proof. destruct s; simpl; split; congruence. Qed.

(** ** Regular expressions: the matcher decides the language *)

Lemma Lang_Seq_inv r1 r2 s :
  Regex.Lang (Regex.Seq r1 r2) s ->
  exists s1 s2, s = s1 ++ s2 /\ Regex.Lang r1 s1 /\ Regex.Lang r2 s2.
Proof. intros H. inversion H; subst. eauto. Qed.

Lemma Lang_Alt_inv r1 r2 s :
  Regex.Lang (Regex.Alt r1 r2) s -> Regex.Lang r1 s \/ Regex.Lang r2 s.
Proof. intros H. inversion H; subst; auto. Qed.

Lemma Lang_Eps_inv s : Regex.Lang Regex.Eps s -> s = EmptyString.
Proof. intros H. inversion H. reflexivity. Qed.

Lemma Lang_Class_inv p s :
  Regex.Lang (Regex.Class p) s -> exists c, s = String c EmptyString /\ p c = true.
Proof. intros H. inversion H; subst. eauto. Qed.

Lemma nullable_Lang (r : Regex.t) :
  Regex.nullable r = true <-> Regex.Lang r EmptyString.
Proof.
  induction r as [| | p | r1 IH1 r2 IH2 | r1 IH1 r2 IH2 | r IH]; simpl.
  - split; [discriminate | intros H; inversion H].
  - split; [constructor | trivial].
  - split; [discriminate | intros H; inversion H].
  - rewrite andb_true_iff, IH1, IH2. split.
    + intros [H1 H2]. change EmptyString with (EmptyString ++ EmptyString).
      now constructor.
    + intros H. apply Lang_Seq_inv in H as (s1 & s2 & E & H1 & H2).
      symmetry in E. apply append_eq_nil in E as [-> ->]. auto.
  - rewrite orb_true_iff, IH1, IH2. split.
    + intros [H | H]; [now apply Regex.LangAltL | now apply Regex.LangAltR].
    + apply Lang_Alt_inv.
  - split; [constructor | trivial].
Qed.

Lemma deriv_sound (c : ascii) (r : Regex.t) :
  forall s, Regex.Lang (Regex.deriv c r) s -> Regex.Lang r (String c s).
Proof.
  induction r as [| | p | r1 IH1 r2 IH2 | r1 IH1 r2 IH2 | r IH]; simpl; intros s H.
  - inversion H.
  - inversion H.
  - destruct (p c) eqn:Hp; [| inversion H].
    apply Lang_Eps_inv in H as ->. now constructor.
  - assert (Hseq : forall t, Regex.Lang (Regex.Seq (Regex.deriv c r1) r2) t ->
                             Regex.Lang (Regex.Seq r1 r2) (String c t)).
    { intros t Ht. apply Lang_Seq_inv in Ht as (s1 & s2 & -> & H1 & H2).
      change (String c (s1 ++ s2)) with (String c s1 ++ s2). constructor; auto. }
    destruct (Regex.nullable r1) eqn:Hn; [| auto].
    apply Lang_Alt_inv in H as [H | H]; [auto |].
    change (String c s) with (EmptyString ++ String c s).
    constructor; [now apply nullable_Lang | auto].
  - apply Lang_Alt_inv in H as [H | H];
      [apply Regex.LangAltL | apply Regex.LangAltR]; auto.
  - apply Lang_Seq_inv in H as (s1 & s2 & -> & H1 & H2).
    change (String c (s1 ++ s2)) with (String c s1 ++ s2). constructor; auto.
Qed.

Lemma deriv_complete (r : Regex.t) (w : string) :
  Regex.Lang r w ->
  forall c s, w = String c s -> Regex.Lang (Regex.deriv c r) s.
Proof.
  induction 1 as [| p a Hp | r1 r2 s1 s2 H1 IH1 H2 IH2 | r1 r2 s0 H IH
                  | r1 r2 s0 H IH | r | r s1 s2 H1 IH1 H2 IH2];
    intros c s E; simpl.
  - discriminate.
  - injection E as -> <-. rewrite Hp. constructor.
  - destruct s1 as [| a s1'].
    + simpl in E. apply nullable_Lang in H1. rewrite H1.
      apply Regex.LangAltR. auto.
    + simpl in E. injection E as -> <-.
      specialize (IH1 _ _ eq_refl).
      destruct (Regex.nullable r1);
        [apply Regex.LangAltL |]; now constructor.
  - apply Regex.LangAltL. auto.
  - apply Regex.LangAltR. auto.
  - discriminate.
  - destruct s1 as [| a s1'].
    + simpl in E. exact (IH2 _ _ E).
    + simpl in E. injection E as -> <-.
      constructor; auto.
Qed.

Lemma accepts_Lang (r : Regex.t) (s : string) :
  Regex.accepts r s = true <-> Regex.Lang r s.
Proof.
  revert r. induction s as [| c s IH]; intros r; simpl.
  - apply nullable_Lang.
  - rewrite IH. split; [apply deriv_sound |].
    intros H. now apply (deriv_complete _ _ H).
Qed.

(** ** The languages of the derived forms *)

Lemma Lang_Lit (w s : string) : Regex.Lang (Regex.Lit w) s <-> s = w.
Proof.
  revert s. induction w as [| c w IH]; intros s; simpl.
  - split; [apply Lang_Eps_inv | intros ->; constructor].
  - split.
    + intros H. apply Lang_Seq_inv in H as (s1 & s2 & -> & H1 & H2).
      apply Lang_Class_inv in H1 as (a & -> & Ha).
      apply IH in H2 as ->. unfold Chars.isChar in Ha.
      apply Ascii.eqb_eq in Ha as ->. reflexivity.
    + intros ->. change (String c w) with (String c EmptyString ++ w).
      constructor; [| now apply IH].
      constructor. apply Ascii.eqb_refl.
Qed.

Lemma Lang_Star_Class (p : ascii -> bool) (s : string) :
  Regex.Lang (Regex.Star (Regex.Class p)) s <-> Str.all p s = true.
Proof.
  split.
  - intros H. remember (Regex.Star (Regex.Class p)) as r eqn:E.
    induction H as [| | | | | r0 | r0 s1 s2 H1 _ H2 IH2]; try discriminate.
    + reflexivity.
    + injection E as ->. apply Lang_Class_inv in H1 as (a & -> & Ha).
      simpl. rewrite Ha. now apply IH2.
  - induction s as [| c s IH]; simpl; intros H.
    + constructor.
    + apply andb_true_iff in H as [Hc Hs].
      change (String c s) with (String c EmptyString ++ s).
      constructor; [now constructor | auto].
Qed.

Lemma Lang_Plus_Class (p : ascii -> bool) (s : string) :
  Regex.Lang (Regex.Plus (Regex.Class p)) s <-> s <> EmptyString /\ Str.all p s = true.
Proof.
  unfold Regex.Plus. split.
  - intros H. apply Lang_Seq_inv in H as (s1 & s2 & -> & H1 & H2).
    apply Lang_Class_inv in H1 as (a & -> & Ha).
    apply Lang_Star_Class in H2. simpl. rewrite Ha, H2. split; [discriminate | reflexivity].
  - intros [Hne H]. destruct s as [| c s]; [congruence |].
    simpl in H. apply andb_true_iff in H as [Hc Hs].
    change (String c s) with (String c EmptyString ++ s).
    constructor; [now constructor | now apply Lang_Star_Class].
Qed.

Lemma Lang_Times_Class (p : ascii -> bool) (n : nat) (s : string) :
  Regex.Lang (Regex.Times n (Regex.Class p)) s
  <-> String.length s = n /\ Str.all p s = true.
Proof.
  revert s. induction n as [| n IH]; intros s; simpl.
  - split.
    + intros H. apply Lang_Eps_inv in H as ->. auto.
    + intros [H _]. destruct s; [constructor | discriminate].
  - split.
    + intros H. apply Lang_Seq_inv in H as (s1 & s2 & -> & H1 & H2).
      apply Lang_Class_inv in H1 as (a & -> & Ha).
      apply IH in H2 as [<- H2]. simpl. rewrite Ha, H2. auto.
    + intros [Hlen H]. destruct s as [| c s]; [discriminate |].
      simpl in *. apply andb_true_iff in H as [Hc Hs].
      change (String c s) with (String c EmptyString ++ s).
      constructor; [now constructor |]. apply IH. split; [lia | trivial].
Qed.

Lemma split_at (n : nat) (s : string) :
  n <= String.length s ->
  exists s1 s2, s = s1 ++ s2 /\ String.length s1 = n.
Proof.
  revert s. induction n as [| n IH]; intros s H.
  - exists EmptyString, s. auto.
  - destruct s as [| c s]; simpl in H; [lia |].
    destruct (IH s) as (s1 & s2 & -> & Hlen); [lia |].
    exists (String c s1), s2. simpl. auto.
Qed.

Lemma Lang_AtLeast_Class (p : ascii -> bool) (n : nat) (s : string) :
  Regex.Lang (Regex.AtLeast n (Regex.Class p)) s
  <-> n <= String.length s /\ Str.all p s = true.
Proof.
  unfold Regex.AtLeast. split.
  - intros H. apply Lang_Seq_inv in H as (s1 & s2 & -> & H1 & H2).
    apply Lang_Times_Class in H1 as [<- H1]. apply Lang_Star_Class in H2.
    rewrite length_append, all_append, H1, H2. split; [lia | reflexivity].
  - intros [Hlen H]. destruct (split_at _ _ Hlen) as (s1 & s2 & -> & Hn).
    rewrite all_append in H. apply andb_true_iff in H as [H1 H2].
    constructor; [apply Lang_Times_Class | apply Lang_Star_Class]; auto.
Qed.

Lemma Lang_UpTo_Class (p : ascii -> bool) (n : nat) (s : string) :
  Regex.Lang (Regex.UpTo n (Regex.Class p)) s
  <-> String.length s <= n /\ Str.all p s = true.
Proof.
  revert s. induction n as [| n IH]; intros s; simpl.
  - split.
    + intros H. apply Lang_Eps_inv in H as ->. auto.
    + intros [H _]. destruct s; [constructor | simpl in H; lia].
  - unfold Regex.Opt. split.
    + intros H. apply Lang_Alt_inv in H as [H | H].
      * apply Lang_Seq_inv in H as (s1 & s2 & -> & H1 & H2).
        apply Lang_Class_inv in H1 as (a & -> & Ha).
        apply IH in H2 as [Hlen H2]. simpl. rewrite Ha, H2. split; [lia | reflexivity].
      * apply Lang_Eps_inv in H as ->. simpl. split; [lia | reflexivity].
    + intros [Hlen H]. destruct s as [| c s].
      * apply Regex.LangAltR. constructor.
      * simpl in *. apply andb_true_iff in H as [Hc Hs].
        apply Regex.LangAltL.
        change (String c s) with (String c EmptyString ++ s).
        constructor; [now constructor |]. apply IH. split; [lia | trivial].
Qed.

Lemma Lang_Range_Class (p : ascii -> bool) (m n : nat) (s : string) :
  m <= n ->
  Regex.Lang (Regex.Range m n (Regex.Class p)) s
  <-> (m <= String.length s <= n) /\ Str.all p s = true.
Proof.
  intros Hmn. unfold Regex.Range. split.
  - intros H. apply Lang_Seq_inv in H as (s1 & s2 & -> & H1 & H2).
    apply Lang_Times_Class in H1 as [<- H1]. apply Lang_UpTo_Class in H2 as [Hlen H2].
    rewrite length_append, all_append, H1, H2. split; [lia | reflexivity].
  - intros [[Hlo Hhi] H]. destruct (split_at _ _ Hlo) as (s1 & s2 & -> & Hn).
    rewrite all_append in H. apply andb_true_iff in H as [H1 H2].
    rewrite length_append in Hhi.
    constructor; [apply Lang_Times_Class | apply Lang_UpTo_Class]; split; auto; lia.
Qed.

Lemma Lang_anything (s : string) : Regex.Lang Regex.anything s.
Proof.
  apply Lang_Star_Class. induction s as [| c s IH]; simpl; auto.
Qed.

(** [test]: some part of the subject is a word of the body, at the start
    when the pattern begins with [^], up to the end when it ends with [$]. *)
Lemma test_spec (p : Regex.pattern) (s : string) :
  Regex.test p s = true
  <-> exists pre mid post,
        s = pre ++ mid ++ post
        /\ Regex.Lang (Regex.body p) mid
        /\ (Regex.fromStart p = true -> pre = EmptyString)
        /\ (Regex.toEnd p = true -> post = EmptyString).
Proof.
  unfold Regex.test, Regex.unanchored. rewrite accepts_Lang. split.
  - intros H. apply Lang_Seq_inv in H as (pre & rest & -> & Hpre & H).
    apply Lang_Seq_inv in H as (mid & post & -> & Hmid & Hpost).
    exists pre, mid, post. repeat split; trivial.
    + intros E. rewrite E in Hpre. now apply Lang_Eps_inv in Hpre.
    + intros E. rewrite E in Hpost. now apply Lang_Eps_inv in Hpost.
  - intros (pre & mid & post & -> & Hmid & Hpre & Hpost).
    constructor; [| constructor; trivial].
    + destruct (Regex.fromStart p); [rewrite Hpre by reflexivity; constructor
                                    | apply Lang_anything].
    + destruct (Regex.toEnd p); [rewrite Hpost by reflexivity; constructor
                                | apply Lang_anything].
Qed.

Lemma test_whole (p : Regex.pattern) (s : string) :
  Regex.Lang (Regex.body p) s -> Regex.test p s = true.
Proof.
  intros H. apply test_spec. exists EmptyString, s, EmptyString.
  split; [simpl; now rewrite append_nil_r |].
  split; [exact H | split; reflexivity].
Qed.

(** ** Identifier stability (C6) *)

Lemma test_hexRun (i : string) :
  Regex.test Patterns.hexRun i = true <-> LongHexRun i.
Proof.
  rewrite test_spec. unfold LongHexRun. simpl. split.
  - intros (pre & mid & post & -> & H & Hpre & Hpost).
    rewrite Hpre, Hpost by reflexivity. simpl. rewrite append_nil_r.
    now apply Lang_AtLeast_Class.
  - intros H. exists EmptyString, i, EmptyString. simpl. rewrite append_nil_r.
    repeat split; trivial. now apply Lang_AtLeast_Class.
Qed.

Lemma Lang_token (t : string) :
  Regex.Lang (Regex.Plus Patterns.alnum) t <-> AlnumToken t.
Proof. apply Lang_Plus_Class. Qed.

Lemma test_underscoreTokens (i : string) :
  Regex.test Patterns.underscoreTokens i = true <-> HasUnderscoreTokens i.
Proof.
  rewrite test_spec. unfold HasUnderscoreTokens. simpl. split.
  - intros (pre & mid & post & -> & H & _ & _).
    apply Lang_Seq_inv in H as (u1 & r1 & -> & Hu1 & H).
    apply Lang_Seq_inv in H as (t1 & r2 & -> & Ht1 & H).
    apply Lang_Seq_inv in H as (u2 & r3 & -> & Hu2 & H).
    apply Lang_Seq_inv in H as (t2 & u3 & -> & Ht2 & Hu3).
    apply (Lang_Lit "_") in Hu1 as ->. apply (Lang_Lit "_") in Hu2 as ->.
    apply (Lang_Lit "_") in Hu3 as ->.
    apply Lang_token in Ht1, Ht2.
    exists pre, t1, t2, post. split; [| split; assumption].
    f_equal. simpl. f_equal. rewrite !append_assoc. simpl.
    f_equal. f_equal. now rewrite append_assoc.
  - intros (pre & t1 & t2 & post & -> & Ht1 & Ht2).
    exists pre, ("_" ++ t1 ++ "_" ++ t2 ++ "_"), post.
    split; [| split; [| split; discriminate]].
    + f_equal. simpl. f_equal. rewrite !append_assoc. simpl.
      f_equal. f_equal. now rewrite append_assoc.
    + apply Lang_token in Ht1, Ht2.
      constructor; [now apply (Lang_Lit "_") |].
      constructor; [trivial |].
      constructor; [now apply (Lang_Lit "_") |].
      constructor; [trivial | now apply (Lang_Lit "_")].
Qed.

Lemma test_trailingDigits (i : string) :
  Regex.test Patterns.trailingDigits i = true <-> EndsInManyDigits i.
Proof.
  rewrite test_spec. unfold EndsInManyDigits. simpl. split.
  - intros (pre & mid & post & -> & H & _ & Hpost).
    rewrite Hpost by reflexivity. rewrite append_nil_r.
    apply Lang_AtLeast_Class in H. exists pre, mid. tauto.
  - intros (pre & ds & -> & Hlen & Hds).
    exists pre, ds, EmptyString. rewrite append_nil_r.
    repeat split; try discriminate. now apply Lang_AtLeast_Class.
Qed.

Lemma Lang_frameworkPrefix (s : string) :
  Regex.Lang (Regex.Alt (Regex.Lit "ember")
                        (Regex.Alt (Regex.Lit "react-") (Regex.Lit "vue-"))) s
  <-> In s FRAMEWORK_PREFIXES.
Proof.
  unfold FRAMEWORK_PREFIXES. simpl. split.
  - intros H. apply Lang_Alt_inv in H as [H | H];
      [apply (Lang_Lit "ember") in H; auto |].
    apply Lang_Alt_inv in H as [H | H];
      [apply (Lang_Lit "react-") in H | apply (Lang_Lit "vue-") in H]; auto.
  - intros [<- | [<- | [<- | []]]].
    + apply Regex.LangAltL. now apply (Lang_Lit "ember").
    + apply Regex.LangAltR, Regex.LangAltL. now apply (Lang_Lit "react-").
    + apply Regex.LangAltR, Regex.LangAltR. now apply (Lang_Lit "vue-").
Qed.

Lemma test_frameworkPrefix (i : string) :
  Regex.test Patterns.frameworkPrefix i = true <-> StartsWithFrameworkPrefix i.
Proof.
  rewrite test_spec. unfold StartsWithFrameworkPrefix. simpl. split.
  - intros (pre & mid & post & -> & H & Hpre & _).
    rewrite Hpre by reflexivity. simpl.
    apply Lang_Seq_inv in H as (prefix & ds & -> & Hp & Hds).
    apply Lang_frameworkPrefix in Hp. apply Lang_Star_Class in Hds.
    exists prefix, ds, post. repeat split; trivial. apply append_assoc.
  - intros (prefix & ds & rest & Hp & Hds & ->).
    exists EmptyString, (prefix ++ ds), rest. simpl.
    repeat split; try discriminate.
    + symmetry. apply append_assoc.
    + constructor; [now apply Lang_frameworkPrefix | now apply Lang_Star_Class].
Qed.

Lemma test_dynamicSuffix (i : string) :
  Regex.test Patterns.dynamicSuffix i = true <-> EndsInUnderscoreDigits i.
Proof.
  rewrite test_spec. unfold EndsInUnderscoreDigits. simpl. split.
  - intros (pre & mid & post & -> & H & _ & Hpost).
    rewrite Hpost by reflexivity. rewrite append_nil_r.
    apply Lang_Seq_inv in H as (u & ds & -> & Hu & Hds).
    apply (Lang_Lit "_") in Hu as ->.
    apply (Lang_Range_Class Chars.isDigit 1 4) in Hds; [| lia].
    exists pre, ds. tauto.
  - intros (pre & ds & -> & Hlen & Hds).
    exists pre, ("_" ++ ds), EmptyString. rewrite append_nil_r.
    repeat split; try discriminate.
    constructor; [now apply (Lang_Lit "_") |].
    apply (Lang_Range_Class Chars.isDigit 1 4); [lia | tauto].
Qed.

Lemma rejected_shape_not_empty (i : string) : RejectedShape i -> i <> EmptyString.
Proof.
  intros H ->. destruct H as [H | [H | [H | [H | H]]]].
  - destruct H as [H _]. simpl in H. lia.
  - destruct H as (pre & t1 & t2 & post & E & _).
    symmetry in E. apply append_eq_nil in E as [_ E]. discriminate.
  - destruct H as (pre & ds & E & Hlen & _).
    symmetry in E. apply append_eq_nil in E as [_ ->]. simpl in Hlen. lia.
  - destruct H as (prefix & ds & rest & Hp & _ & E).
    symmetry in E. apply append_eq_nil in E as [-> _].
    unfold FRAMEWORK_PREFIXES in Hp. simpl in Hp.
    destruct Hp as [Hp | [Hp | [Hp | []]]]; discriminate.
  - destruct H as (pre & ds & E & _).
    symmetry in E. apply append_eq_nil in E as [_ E]. discriminate.
Qed.

(** C6, as the specification words it, fails on the empty identifier: the
    code rejects it, and it has none of the five shapes. *)
Lemma isStableId_rejects_empty_identifier :
  isStableId EmptyString = false /\ ~ RejectedShape EmptyString.
Proof.
  split; [reflexivity |].
  intros H. now apply rejected_shape_not_empty in H.
Qed.

(** C6 (amended).  [isStableId] rejects an identifier if and only if it is
    empty, or is a run of 10 or more hex digits and hyphens, or contains two
    alphanumeric tokens each bounded by underscores, or ends in 5 or more
    digits, or starts with [ember], [react-] or [vue-] (digits may follow), or
    ends in an underscore and 1 to 4 digits; every other identifier passes. *)
Theorem isStableId_characterization (i : string) :
  (isStableId i = false <-> i = EmptyString \/ RejectedShape i)
  /\ (isStableId i = true <-> i <> EmptyString /\ ~ RejectedShape i).
Proof.
  assert (Hfalse : isStableId i = false <-> i = EmptyString \/ RejectedShape i).
  { unfold isStableId, RejectedShape.
    rewrite <- test_hexRun, <- test_underscoreTokens, <- test_trailingDigits,
            <- test_frameworkPrefix, <- test_dynamicSuffix.
    destruct i as [| c i]; [simpl; tauto |].
    cbn [Str.isEmpty].
    destruct (Regex.test Patterns.hexRun _); [tauto |].
    destruct (Regex.test Patterns.underscoreTokens _); [tauto |].
    destruct (Regex.test Patterns.trailingDigits _); [tauto |].
    destruct (Regex.test Patterns.frameworkPrefix _); [tauto |].
    destruct (Regex.test Patterns.dynamicSuffix _); [tauto |].
    split; [discriminate |].
    intros [H | H]; [discriminate | intuition discriminate]. }
  split; [exact Hfalse |].
  destruct (isStableId i).
  - split; [intros _ | trivial].
    split; intros H; [assert (true = false) by (apply Hfalse; auto)
                     | assert (true = false) by (apply Hfalse; auto)]; discriminate.
  - split; [discriminate |].
    intros [Hne Hnot]. destruct Hfalse as [Hf _].
    destruct (Hf eq_refl); contradiction.
Qed.

(** ** Node-test resolution (C7) *)

Lemma isSvg_true (e : Element) :
  isSvg e = true <-> inNamespace SVG_NAMESPACE e \/ isSVGElement e.
Proof.
  unfold isSvg, inNamespace, isSVGElement. rewrite orb_true_iff. split.
  - intros [H | H].
    + left. destruct (namespaceURI e) as [ns |]; [| discriminate].
      apply String.eqb_eq in H. now subst.
    + right. now destruct (interface (self e)).
  - intros [H | H].
    + left. rewrite H. apply String.eqb_refl.
    + right. now rewrite H.
Qed.

(** C7, as the specification words it, fails outside SVG: a MathML element is
    in a non-default namespace and still gets the plain tag name. *)
Lemma getNodeTest_plain_for_mathml :
  ~ inNamespace HTML_NAMESPACE mathRoot
  /\ getNodeTest mathRoot = "math"
  /\ getNodeTest mathRoot <> wildcardTest mathRoot.
Proof.
  repeat split; [| discriminate]. intros H. discriminate H.
Qed.

(** C7 (amended).  For an element of the SVG namespace (or one that is an
    [SVGElement]) [getNodeTest] returns the wildcard test on the lowercase tag
    name; for every other element, of the HTML namespace or of any other
    namespace, it returns the lowercase tag name. *)
Theorem getNodeTest_by_namespace (e : Element) :
  (inNamespace SVG_NAMESPACE e \/ isSVGElement e -> getNodeTest e = wildcardTest e)
  /\ (~ inNamespace SVG_NAMESPACE e -> ~ isSVGElement e -> getNodeTest e = plainTest e).
Proof.
  unfold getNodeTest, wildcardTest, plainTest. split.
  - intros H. apply isSvg_true in H. now rewrite H.
  - intros Hns Hif. destruct (isSvg e) eqn:E; [| reflexivity].
    apply isSvg_true in E. tauto.
Qed.

Lemma getNodeTest_by_namespace_witness :
  getNodeTest svgRoot = wildcardTest svgRoot
  /\ getNodeTest secondSpan = plainTest secondSpan.
Proof.
  split.
  - apply (proj1 (getNodeTest_by_namespace svgRoot)). left. reflexivity.
  - apply (proj2 (getNodeTest_by_namespace secondSpan)); intros H; discriminate H.
Defined.

(** ** Validation and evaluation failures (C2, C8, C9) *)

Lemma isUnique_spec (evaluate : Engine) (x : string) (doc : Document) :
  isUnique evaluate x doc = true
  <-> exists n, evaluate x (DocumentContext doc) = Some [n].
Proof.
  unfold isUnique. destruct (evaluate x (DocumentContext doc)) as [[| n [| m l]] |];
    simpl; split; try discriminate; try (intros [k H]; discriminate).
  - eauto.
  - reflexivity.
Qed.

Lemma dedupeLoop_valid (evaluate : Engine) (doc : Document) (candidates : list Candidate) :
  forall seen c,
    In c (dedupeLoop evaluate candidates doc seen) ->
    In c candidates /\ xpath c <> EmptyString /\ isUnique evaluate (xpath c) doc = true.
Proof.
  induction candidates as [| a rest IH]; simpl; intros seen c H; [contradiction |].
  destruct (Str.isEmpty (xpath a)) eqn:Hempty; simpl in H.
  - destruct (IH _ _ H) as (? & ? & ?). auto.
  - destruct (existsb (String.eqb (xpath a)) seen).
    + destruct (IH _ _ H) as (? & ? & ?). auto.
    + destruct (isUnique evaluate (xpath a) doc) eqn:Hu; simpl in H.
      * destruct H as [<- | H].
        -- apply isEmpty_false in Hempty. auto.
        -- destruct (IH _ _ H) as (? & ? & ?). auto.
      * destruct (IH _ _ H) as (? & ? & ?). auto.
Qed.

Lemma insertSorted_In (compare : Candidate -> Candidate -> Z) (x c : Candidate)
      (l : list Candidate) :
  In c (insertSorted compare x l) <-> c = x \/ In c l.
Proof.
  induction l as [| y l IH]; simpl.
  - intuition congruence.
  - destruct (compare x y <=? 0)%Z; simpl; [intuition congruence |].
    rewrite IH. intuition congruence.
Qed.

Lemma sortBy_In (compare : Candidate -> Candidate -> Z) (c : Candidate)
      (l : list Candidate) :
  In c (sortBy compare l) <-> In c l.
Proof.
  induction l as [| x l IH]; simpl; [tauto |].
  rewrite insertSorted_In, IH. intuition congruence.
Qed.

Lemma sortBy_nonempty (compare : Candidate -> Candidate -> Z) (l : list Candidate) :
  l <> [] -> exists best rest, sortBy compare l = best :: rest.
Proof.
  intros H. destruct (sortBy compare l) as [| b r] eqn:E; [| eauto].
  destruct l as [| x l]; [congruence |].
  assert (Hin : In x (sortBy compare (x :: l))) by (apply sortBy_In; now left).
  rewrite E in Hin. contradiction.
Qed.

(** What [generateXPathInDocument] returns when some candidate is valid: the
    head of the sorted valid candidates. *)
Lemma generateXPathInDocument_ranked (evaluate : Engine) (e : Element) :
  dedupeAndValidate evaluate (collectAllCandidates evaluate e) (ownerDocument e) <> [] ->
  exists best rest,
    sortBy compareCandidates
      (dedupeAndValidate evaluate (collectAllCandidates evaluate e) (ownerDocument e))
    = best :: rest
    /\ generateXPathInDocument evaluate e = xpath best.
Proof.
  intros Hne. unfold generateXPathInDocument.
  destruct (sortBy_nonempty compareCandidates _ Hne) as (best & rest & E).
  exists best, rest. split; [exact E |].
  destruct (dedupeAndValidate evaluate (collectAllCandidates evaluate e) (ownerDocument e));
    [congruence |].
  now rewrite E.
Qed.

(** C2.  Every candidate that survives the dedupe/validate pass evaluates, in
    the document it was validated against, to exactly one node; and when the
    ranker has candidates to choose from, the selector it returns evaluates
    to exactly one node of the document. *)
Theorem validated_candidates_are_unique (evaluate : Engine) :
  (forall candidates doc c,
      In c (dedupeAndValidate evaluate candidates doc) ->
      exists n, evaluate (xpath c) (DocumentContext doc) = Some [n])
  /\ (forall e,
         dedupeAndValidate evaluate (collectAllCandidates evaluate e) (ownerDocument e) <> [] ->
         exists n,
           evaluate (generateXPathInDocument evaluate e)
                    (DocumentContext (ownerDocument e)) = Some [n]).
Proof.
  assert (H1 : forall candidates doc c,
             In c (dedupeAndValidate evaluate candidates doc) ->
             exists n, evaluate (xpath c) (DocumentContext doc) = Some [n]).
  { intros candidates doc c H. apply dedupeLoop_valid in H as (_ & _ & H).
    now apply isUnique_spec. }
  split; [exact H1 |].
  intros e Hne.
  destruct (generateXPathInDocument_ranked evaluate e Hne) as (best & rest & E & ->).
  apply (H1 (collectAllCandidates evaluate e)).
  apply (sortBy_In compareCandidates). rewrite E. now left.
Qed.

Lemma validated_candidates_are_unique_witness :
  exists n,
    PathEngine.evaluate (generateXPathInDocument PathEngine.evaluate secondSpan)
                        (DocumentContext (ownerDocument secondSpan)) = Some [n].
Proof.
  apply (proj2 (validated_candidates_are_unique PathEngine.evaluate) secondSpan).
  vm_compute. discriminate.
Defined.

Lemma generateXPath_returns (evaluate : Engine) (e : Element) :
  exists s, generateXPath evaluate (ElementArgument e) = Returns s.
Proof.
  unfold generateXPath. destruct (shadowWalk e []) as [current [| p ps]]; eauto.
Qed.

(** C8.  A candidate whose evaluation fails is treated as not unique: the
    validator answers [false], the candidate is dropped by the
    dedupe/validate pass, and the generation call still returns a string. *)
Theorem evaluation_failure_is_not_unique (evaluate : Engine) :
  (forall x doc,
      evaluate x (DocumentContext doc) = None -> isUnique evaluate x doc = false)
  /\ (forall candidates doc c,
         evaluate (xpath c) (DocumentContext doc) = None ->
         ~ In c (dedupeAndValidate evaluate candidates doc))
  /\ (forall e, exists s, generateXPath evaluate (ElementArgument e) = Returns s).
Proof.
  assert (H1 : forall x doc,
             evaluate x (DocumentContext doc) = None -> isUnique evaluate x doc = false).
  { intros x doc H. unfold isUnique. now rewrite H. }
  repeat split.
  - exact H1.
  - intros candidates doc c Hfail Hin.
    apply dedupeLoop_valid in Hin as (_ & _ & Hu).
    rewrite (H1 _ _ Hfail) in Hu. discriminate.
  - apply generateXPath_returns.
Qed.

Lemma evaluation_failure_is_not_unique_witness :
  isUnique failingEngine "//span[" (ownerDocument secondSpan) = false
  /\ generateXPath failingEngine (ElementArgument secondSpan)
     = Returns "/html[1]/body[1]/div[1]/span[2]".
Proof.
  split.
  - apply (proj1 (evaluation_failure_is_not_unique failingEngine)). reflexivity.
  - destruct (proj2 (proj2 (evaluation_failure_is_not_unique failingEngine)) secondSpan)
      as [s Hs].
    rewrite Hs. vm_compute in Hs. congruence.
Defined.

(** C9.  [generateXPath] throws the invalid-input error exactly when its
    argument is absent or is a node that is not an element; for every element
    it returns a string. *)
Theorem generateXPath_input_validation (evaluate : Engine) (a : Argument) :
  (generateXPath evaluate a = Throws INVALID_INPUT
   <-> a = Absent \/ nodeType a <> Some ELEMENT_NODE)
  /\ (forall e, a = ElementArgument e ->
                exists s, generateXPath evaluate a = Returns s)
  /\ (forall message, generateXPath evaluate a = Throws message -> message = INVALID_INPUT).
Proof.
  repeat split.
  - intros H. destruct a as [| kind | e]; [now left | right | ].
    + destruct kind; discriminate.
    + destruct (generateXPath_returns evaluate e) as [s Hs]. congruence.
  - intros [-> | H]; [reflexivity |].
    destruct a as [| kind | e]; [reflexivity | reflexivity |].
    simpl in H. congruence.
  - intros e ->. apply generateXPath_returns.
  - intros message H. destruct a as [| kind | e].
    + simpl in H. congruence.
    + simpl in H. congruence.
    + destruct (generateXPath_returns evaluate e) as [s Hs]. congruence.
Qed.

Lemma generateXPath_input_validation_witness :
  exists s, generateXPath PathEngine.evaluate (ElementArgument secondSpan) = Returns s.
Proof.
  apply (proj1 (proj2 (generateXPath_input_validation PathEngine.evaluate
                         (ElementArgument secondSpan))) secondSpan).
  reflexivity.
Defined.

(** ** Termination (C10) *)

Lemma shadowWalk_step (c : Element) (acc : list string) :
  shadowWalk c acc
  = match getRootNode c with
    | RootDocument _ => (c, acc)
    | RootShadowRoot host => shadowWalk host (getShadowAbsolutePath host c :: acc)
    end.
Proof.
  apply (shadowWalk_elim
           (fun c acc r =>
              r = match getRootNode c with
                  | RootDocument _ => (c, acc)
                  | RootShadowRoot host =>
                      shadowWalk host (getShadowAbsolutePath host c :: acc)
                  end)).
  - intros current doc E paths _. now rewrite E.
  - intros current host E paths _ _. now rewrite E.
Qed.

Lemma shadowPathLoop_step (root c : Element) (segments : list string) :
  shadowPathLoop root c segments
  = match parentNode c with
    | ParentElement parent =>
        shadowPathLoop root parent
          (pathStep (Str.toLowerCase (localName c))
                    (getShadowSiblingIndex c (parentNode c)) :: segments)
    | _ =>
        pathStep (Str.toLowerCase (localName c))
                 (getShadowSiblingIndex c (parentNode c)) :: segments
    end.
Proof.
  apply (shadowPathLoop_elim
           (fun root c segments r =>
              r = match parentNode c with
                  | ParentElement parent =>
                      shadowPathLoop root parent
                        (pathStep (Str.toLowerCase (localName c))
                                  (getShadowSiblingIndex c (parentNode c)) :: segments)
                  | _ =>
                      pathStep (Str.toLowerCase (localName c))
                               (getShadowSiblingIndex c (parentNode c)) :: segments
                  end)).
  - intros r current doc E segs _. now rewrite E.
  - intros r current parent E segs _ _. now rewrite E.
  - intros r current host E segs _. now rewrite E.
Qed.

(** One turn of the shadow walk: the host lies under strictly fewer shadow
    roots. *)
Lemma rootFrom_shadowDepth (ctx : list Frame) :
  forall n host,
    rootFrom n ctx = RootShadowRoot host ->
    S (shadowDepth host) = shadowDepthOf ctx.
Proof.
  induction ctx as [| [before d shadow after | before d mode hostKids after] rest IH];
    simpl; intros n host H.
  - discriminate.
  - eauto.
  - injection H as <-. reflexivity.
Qed.

Lemma rootFrom_document (ctx : list Frame) :
  forall n doc, rootFrom n ctx = RootDocument doc -> shadowDepthOf ctx = 0.
Proof.
  induction ctx as [| [before d shadow after | before d mode hostKids after] rest IH];
    simpl; intros n doc H; eauto. discriminate.
Qed.

Lemma getRootNode_shadowDepth (c host : Element) :
  getRootNode c = RootShadowRoot host -> S (shadowDepth host) = shadowDepth c.
Proof. apply rootFrom_shadowDepth. Qed.

Lemma shadowWalk_length (n : nat) :
  forall c acc,
    shadowDepth c = n ->
    List.length (snd (shadowWalk c acc)) = n + List.length acc.
Proof.
  induction n as [| n IH]; intros c acc Hn; rewrite shadowWalk_step;
    destruct (getRootNode c) as [doc | host] eqn:E.
  - reflexivity.
  - apply getRootNode_shadowDepth in E. lia.
  - apply rootFrom_document in E. unfold shadowDepth in Hn. lia.
  - apply getRootNode_shadowDepth in E.
    rewrite IH by lia. simpl. lia.
Qed.

Lemma parentElement_context (c : Element) :
  match context c with
  | InChildren _ d _ _ :: rest =>
      exists parent, parentElement c = Some parent
                     /\ self parent = d /\ context parent = rest
  | _ => parentElement c = None
  end.
Proof.
  unfold parentElement, parentNode.
  destruct (context c) as [| [before d shadow after | before d mode hostKids after] rest];
    simpl; eauto.
Qed.

Lemma ancestorLoop_turns (evaluate : Engine) (budget : nat) :
  forall current turns segments selectors,
    fst (ancestorLoop evaluate budget current turns segments selectors)
    = turns + Nat.min budget (turnsUntilBody (parentTags (context current))).
Proof.
  induction budget as [| budget IH]; intros current turns segments selectors; simpl.
  - lia.
  - pose proof (parentElement_context current) as Hp.
    destruct (context current) as [| [before d shadow after | before d mode hostKids after] rest].
    + rewrite Hp. simpl. lia.
    + destruct Hp as (parent & -> & Hd & Hrest). simpl.
      unfold tagName. rewrite Hd.
      destruct (tag_name d =? "BODY"); simpl; [lia |].
      rewrite IH, Hrest. lia.
    + rewrite Hp. simpl. lia.
Qed.

Lemma turnsUntilBody_le (tags : list string) : turnsUntilBody tags <= List.length tags.
Proof.
  induction tags as [| t rest IH]; simpl; [lia |].
  destruct (t =? "BODY"); lia.
Qed.

Lemma parentTags_le (ctx : list Frame) : List.length (parentTags ctx) <= List.length ctx.
Proof.
  induction ctx as [| [before d shadow after | before d mode hostKids after] rest IH];
    simpl; lia.
Qed.

Lemma absolutePathLoop_length (n : nat) :
  forall c segments,
    depth c = n ->
    List.length (absolutePathLoop (Some c) segments)
    = S (List.length (parentTags (context c))) + List.length segments.
Proof.
  induction n as [| n IH]; intros c segments Hn;
    rewrite absolutePathLoop_equation_1;
    pose proof (parentElement_context c) as Hp; unfold depth in Hn;
    destruct (context c) as [| [before d shadow after | before d mode hostKids after] rest];
    simpl in Hn; try discriminate.
  - rewrite Hp, absolutePathLoop_equation_2. simpl. lia.
  - destruct Hp as (parent & -> & _ & Hrest).
    rewrite IH by (unfold depth; rewrite Hrest; lia).
    rewrite Hrest. simpl. lia.
  - rewrite Hp, absolutePathLoop_equation_2. simpl. lia.
Qed.

(** C10.  [generateXPath] returns for every element.  Each turn of the shadow
    walk moves to a host under strictly fewer shadow roots, and the walk makes
    as many turns as there are shadow roots around the element; the ancestor
    walk makes at most [MAX_ANCESTOR_DEPTH] turns, never more than there are
    parent elements, and none after a [BODY] parent; the absolute-path walk
    makes one turn for the element and one for each of its parent elements. *)
Theorem generateXPath_terminates (evaluate : Engine) (e : Element) :
  (exists s, generateXPath evaluate (ElementArgument e) = Returns s)
  /\ (forall host, getRootNode e = RootShadowRoot host ->
                   shadowDepth host < shadowDepth e)
  /\ List.length (snd (shadowWalk e [])) = shadowDepth e
  /\ (let turns := fst (ancestorLoop evaluate MAX_ANCESTOR_DEPTH e 0 [] []) in
      turns = Nat.min MAX_ANCESTOR_DEPTH (turnsUntilBody (parentTags (context e)))
      /\ turns <= MAX_ANCESTOR_DEPTH
      /\ turns <= depth e)
  /\ List.length (absolutePathLoop (Some e) [])
     = S (List.length (parentTags (context e))).
Proof.
  split; [apply generateXPath_returns |].
  split; [intros host H; apply getRootNode_shadowDepth in H; lia |].
  split; [rewrite (shadowWalk_length _ e [] eq_refl); simpl; lia |].
  split.
  - cbv zeta. rewrite ancestorLoop_turns, Nat.add_0_l.
    pose proof (turnsUntilBody_le (parentTags (context e))).
    pose proof (parentTags_le (context e)).
    unfold depth. lia.
  - rewrite (absolutePathLoop_length _ e [] eq_refl). simpl. lia.
Qed.

Lemma generateXPath_terminates_witness :
  shadowDepth productHost < shadowDepth shadowSpan.
Proof.
  apply (proj1 (proj2 (generateXPath_terminates PathEngine.evaluate shadowSpan))).
  reflexivity.
Defined.

(** ** Characters and strings: what the selectors are made of *)

Ltac by_cases_on_char c :=
  destruct c as [[] [] [] [] [] [] [] []]; vm_compute; try reflexivity;
  try discriminate; intros; try discriminate; try reflexivity.

Lemma lower_idempotent (c : ascii) : Chars.lower (Chars.lower c) = Chars.lower c.
Proof. by_cases_on_char c. Qed.

Lemma lower_isNameChar (c : ascii) :
  Chars.isNameChar c = true -> Chars.isNameChar (Chars.lower c) = true.
Proof. by_cases_on_char c. Qed.

Lemma isNameChar_not_special (c : ascii) :
  Chars.isNameChar c = true ->
  c <> "/"%char /\ c <> "|"%char /\ c <> "["%char /\ c <> "*"%char
  /\ Chars.isSpace c = false.
Proof.
  intros H. repeat split; try (intros ->; discriminate H).
  revert H. by_cases_on_char c.
Qed.

Lemma isDigit_not_special (c : ascii) :
  Chars.isDigit c = true -> c <> "/"%char /\ c <> "|"%char.
Proof. intros H. split; intros ->; discriminate H. Qed.

Lemma toLowerCase_idempotent (s : string) :
  Str.toLowerCase (Str.toLowerCase s) = Str.toLowerCase s.
Proof.
  unfold Str.toLowerCase. induction s as [| c s IH]; simpl; [reflexivity |].
  now rewrite lower_idempotent, IH.
Qed.

Lemma toLowerCase_names (s : string) :
  Str.all Chars.isNameChar s = true ->
  Str.all Chars.isNameChar (Str.toLowerCase s) = true.
Proof.
  unfold Str.toLowerCase. induction s as [| c s IH]; simpl; [trivial |].
  rewrite !andb_true_iff. intros [Hc Hs]. split; [now apply lower_isNameChar | auto].
Qed.

Lemma toLowerCase_empty (s : string) :
  Str.toLowerCase s = EmptyString <-> s = EmptyString.
Proof. destruct s; simpl; split; intros H; try reflexivity; discriminate H. Qed.

Lemma includes_append (c : ascii) (s t : string) :
  Str.includes c (s ++ t) = Str.includes c s || Str.includes c t.
Proof.
  induction s as [| a s IH]; simpl; [reflexivity |].
  now rewrite IH, orb_assoc.
Qed.

Lemma includes_all (p : ascii -> bool) (c : ascii) (s : string) :
  p c = false -> Str.all p s = true -> Str.includes c s = false.
Proof.
  intros Hc. induction s as [| a s IH]; simpl; [reflexivity |].
  rewrite andb_true_iff. intros [Ha Hs]. rewrite (IH Hs), orb_false_r.
  apply Ascii.eqb_neq. intros ->. congruence.
Qed.

(** *** Decimal numerals *)

Lemma string_of_uint_digits (d : Decimal.uint) :
  Str.all Chars.isDigit (NilEmpty.string_of_uint d) = true.
Proof. induction d; simpl; trivial. Qed.

Lemma ofNat_digits (n : nat) : Str.all Chars.isDigit (Str.ofNat n) = true.
Proof. apply string_of_uint_digits. Qed.

Lemma ofNat_not_empty (n : nat) : Str.ofNat n <> EmptyString.
Proof.
  unfold Str.ofNat. intros H.
  assert (Hn : Nat.to_uint n <> Decimal.Nil).
  { rewrite <- (Unsigned.of_to n) at 1. rewrite Unsigned.to_of.
    apply DecimalFacts.unorm_nonnil. }
  destruct (Nat.to_uint n); simpl in H; congruence.
Qed.

Lemma toNat_ofNat (n : nat) : Str.toNat (Str.ofNat n) = n.
Proof.
  unfold Str.toNat, Str.ofNat. rewrite NilEmpty.usu. apply Unsigned.of_to.
Qed.

(** *** Splitting and joining *)

Lemma split_not_nil (sep : ascii) (s : string) : Str.split sep s <> [].
Proof.
  induction s as [| c s IH]; simpl; [discriminate |].
  destruct (c =? sep)%char; [discriminate |].
  destruct (Str.split sep s); [congruence | discriminate].
Qed.

Lemma split_without (sep : ascii) (s : string) :
  Str.includes sep s = false -> Str.split sep s = [s].
Proof.
  induction s as [| c s IH]; simpl; [reflexivity |].
  rewrite orb_false_iff. intros [Hc Hs]. rewrite Hc, (IH Hs). reflexivity.
Qed.

Lemma split_append (sep : ascii) (s t : string) :
  Str.includes sep s = false ->
  Str.split sep (s ++ String sep t) = s :: Str.split sep t.
Proof.
  induction s as [| c s IH]; simpl.
  - intros _. now rewrite Ascii.eqb_refl.
  - rewrite orb_false_iff. intros [Hc Hs]. rewrite Hc, (IH Hs). reflexivity.
Qed.

Lemma split_join (sep : ascii) (x : string) (xs : list string) :
  Forall (fun s => Str.includes sep s = false) (x :: xs) ->
  Str.split sep (Str.join (String sep EmptyString) (x :: xs)) = x :: xs.
Proof.
  revert x. induction xs as [| y ys IH]; intros x H; inversion H as [| ? ? Hx Hxs]; subst.
  - simpl. now apply split_without.
  - change (Str.join (String sep EmptyString) (x :: y :: ys))
      with (x ++ String sep (Str.join (String sep EmptyString) (y :: ys))).
    rewrite split_append by trivial. now rewrite IH.
Qed.

Lemma filterBoolean_id (xs : list string) :
  Forall (fun s => s <> EmptyString) xs -> Str.filterBoolean xs = xs.
Proof.
  unfold Str.filterBoolean. induction 1 as [| x xs Hx _ IH]; simpl; [reflexivity |].
  destruct x; [congruence |]. simpl. now rewrite IH.
Qed.

(** The absolute form: a slash, then the steps joined by slashes. *)
Lemma split_absolute (steps : list string) :
  steps <> [] ->
  Forall (fun s => Str.includes slash s = false) steps ->
  Forall (fun s => s <> EmptyString) steps ->
  Str.filterBoolean (Str.split slash ("/" ++ Str.join "/" steps)) = steps.
Proof.
  intros Hne Hslash Hfull. destruct steps as [| x xs]; [congruence |].
  change ("/" ++ Str.join "/" (x :: xs))
    with (EmptyString ++ String slash (Str.join (String slash EmptyString) (x :: xs))).
  rewrite split_append by reflexivity. rewrite split_join by trivial.
  change (Str.filterBoolean (EmptyString :: x :: xs)) with (Str.filterBoolean (x :: xs)).
  now apply filterBoolean_id.
Qed.

Lemma includes_join (c : ascii) (sep : string) (xs : list string) :
  Str.includes c sep = false ->
  Forall (fun s => Str.includes c s = false) xs ->
  Str.includes c (Str.join sep xs) = false.
Proof.
  intros Hsep. induction 1 as [| x xs Hx Hxs IH]; [reflexivity |].
  destruct xs as [| y ys]; [exact Hx |].
  change (Str.join sep (x :: y :: ys)) with (x ++ sep ++ Str.join sep (y :: ys)).
  now rewrite !includes_append, Hx, Hsep, IH.
Qed.

(** *** Trimming *)

Lemma trimEnd_closed (s : string) (c : ascii) :
  Chars.isSpace c = false ->
  Str.trimEnd (s ++ String c EmptyString) = s ++ String c EmptyString.
Proof.
  intros Hc. induction s as [| a s IH]; simpl.
  - now rewrite Hc.
  - rewrite IH. destruct (s ++ String c EmptyString) eqn:E.
    + apply append_eq_nil in E as [_ E]. discriminate.
    + simpl. now rewrite andb_false_r.
Qed.

Lemma join_ends_with (c : ascii) (sep : string) (xs : list string) :
  xs <> [] ->
  Forall (fun s => exists q, s = q ++ String c EmptyString) xs ->
  exists q, Str.join sep xs = q ++ String c EmptyString.
Proof.
  intros Hne H. induction H as [| x xs Hx Hxs IH]; [congruence |].
  destruct xs as [| y ys]; [exact Hx |].
  destruct IH as [q Hq]; [discriminate |].
  exists (x ++ sep ++ q).
  change (Str.join sep (x :: y :: ys)) with (x ++ sep ++ Str.join sep (y :: ys)).
  now rewrite Hq, !append_assoc.
Qed.

(** *** One step, parsed back *)

Lemma breakAt_append (c : ascii) (s t : string) :
  Str.includes c s = false ->
  Str.breakAt c (s ++ String c t) = (s, t).
Proof.
  induction s as [| a s IH]; simpl.
  - intros _. now rewrite Ascii.eqb_refl.
  - rewrite orb_false_iff. intros [Ha Hs]. now rewrite Ha, (IH Hs).
Qed.

Lemma dropLast_append (s : string) (c : ascii) :
  Str.dropLast (s ++ String c EmptyString) = s.
Proof.
  induction s as [| a s IH]; simpl; [reflexivity |].
  rewrite IH. destruct (s ++ String c EmptyString) eqn:E; [| reflexivity].
  apply append_eq_nil in E as [_ E]. discriminate.
Qed.

(** A name for a step: not empty, made of [[a-zA-Z0-9_-]]. *)
Lemma pathStep_shape (tag : string) (index : nat) :
  pathStep tag index = tag ++ String "["%char (Str.ofNat index ++ "]").
Proof. reflexivity. Qed.

Lemma test_segment_pathStep (tag : string) (index : nat) :
  tag <> EmptyString -> Str.all Chars.isNameChar tag = true ->
  Regex.test Patterns.segment (pathStep tag index) = true.
Proof.
  intros Hne Hall. apply test_spec.
  exists EmptyString, (pathStep tag index), EmptyString.
  split; [simpl; now rewrite append_nil_r |].
  split; [| split; reflexivity].
  rewrite pathStep_shape. cbn [Patterns.segment Regex.body].
  constructor.
  - apply Regex.LangAltL. now apply Lang_Plus_Class.
  - change (String "["%char (Str.ofNat index ++ "]"))
      with ("[" ++ (Str.ofNat index ++ "]")).
    constructor; [now apply (Lang_Lit "[") |].
    constructor; [| now apply (Lang_Lit "]")].
    apply Lang_Plus_Class. split; [apply ofNat_not_empty | apply ofNat_digits].
Qed.

Lemma parseSegment_pathStep (tag : string) (index : nat) :
  tag <> EmptyString -> Str.all Chars.isNameChar tag = true -> 1 <= index ->
  parseSegment (pathStep tag index) = Some (Str.toLowerCase tag, index).
Proof.
  intros Hne Hall Hindex. unfold parseSegment.
  rewrite test_segment_pathStep by trivial.
  unfold captureNameAndIndex. rewrite pathStep_shape.
  rewrite breakAt_append by (apply (includes_all Chars.isNameChar); trivial).
  rewrite dropLast_append, toNat_ofNat.
  destruct (Nat.ltb_spec index 1); [lia | reflexivity].
Qed.

Lemma pathStep_not_empty (tag : string) (index : nat) : pathStep tag index <> EmptyString.
Proof.
  rewrite pathStep_shape. intros H. apply append_eq_nil in H as [_ H]. discriminate.
Qed.

Lemma pathStep_ends (tag : string) (index : nat) :
  exists q, pathStep tag index = q ++ String "]"%char EmptyString.
Proof.
  exists (tag ++ "[" ++ Str.ofNat index). unfold pathStep.
  now rewrite !append_assoc.
Qed.

Lemma pathStep_without (c : ascii) (tag : string) (index : nat) :
  Chars.isNameChar c = false -> Chars.isDigit c = false ->
  c <> "["%char -> c <> "]"%char ->
  Str.all Chars.isNameChar tag = true ->
  Str.includes c (pathStep tag index) = false.
Proof.
  intros Hn Hd Hl Hr Hall. unfold pathStep.
  rewrite !includes_append.
  rewrite (includes_all Chars.isNameChar c tag Hn Hall).
  rewrite (includes_all Chars.isDigit c _ Hd (ofNat_digits index)).
  cbn [Str.includes].
  assert (El : ("["%char =? c)%char = false) by (apply Ascii.eqb_neq; congruence).
  assert (Er : ("]"%char =? c)%char = false) by (apply Ascii.eqb_neq; congruence).
  now rewrite El, Er.
Qed.

(** ** Ranking (C5) *)

Lemma compareCandidates_spec (a b : Candidate) :
  rankedBefore a b
  <-> (score b < score a)%Z
      \/ (score a = score b
          /\ (countXPathSteps (xpath a) < countXPathSteps (xpath b)
              \/ (countXPathSteps (xpath a) = countXPathSteps (xpath b)
                  /\ String.length (xpath a) <= String.length (xpath b)))).
Proof.
  unfold rankedBefore, compareCandidates.
  destruct (Z.eqb_spec (score a) (score b)) as [Es | Es]; simpl; [| lia].
  destruct (Z.eqb_spec (Z.of_nat (countXPathSteps (xpath a))
                        - Z.of_nat (countXPathSteps (xpath b))) 0) as [Ed | Ed];
    simpl; lia.
Qed.

Lemma rankedBefore_refl (a : Candidate) : rankedBefore a a.
Proof. apply compareCandidates_spec. right. split; [reflexivity | right; lia]. Qed.

Lemma rankedBefore_total (a b : Candidate) : rankedBefore a b \/ rankedBefore b a.
Proof. rewrite !compareCandidates_spec. lia. Qed.

Lemma rankedBefore_trans (a b c : Candidate) :
  rankedBefore a b -> rankedBefore b c -> rankedBefore a c.
Proof. rewrite !compareCandidates_spec. lia. Qed.

(** The steps of the specification on examples. *)
Example path_steps :
  pathSteps "//div/span[2]" = 2
  /\ pathSteps "/html[1]/body[1]/div[1]/span[2]" = 4
  /\ pathSteps "//*[@id='title']" = 1
  /\ pathSteps "a//b/" = 2
  /\ pathSteps "///" = 0
  /\ pathSteps "" = 0.
Proof. repeat split. Qed.

(** The scan and the pieces between slashes: the segments that begin after
    the first slash are the non-empty pieces after the first piece. *)
Lemma segmentsFrom_split (s : string) :
  segmentsFrom false s = List.length (Str.filterBoolean (Str.split slash s))
  /\ segmentsFrom true s
     = List.length (Str.filterBoolean (List.tl (Str.split slash s))).
Proof.
  induction s as [| c s [IHf IHt]]; [split; reflexivity |].
  cbn [segmentsFrom Str.split]. fold slash.
  destruct (Ascii.eqb c slash).
  - cbn [List.tl]. unfold Str.filterBoolean at 1. cbn [List.filter Str.isEmpty negb].
    fold (Str.filterBoolean (Str.split slash s)). split; exact IHf.
  - pose proof (split_not_nil slash s) as Hne.
    destruct (Str.split slash s) as [| piece pieces]; [congruence |].
    cbn [List.tl] in *. unfold Str.filterBoolean at 1. cbn [List.filter Str.isEmpty negb].
    fold (Str.filterBoolean pieces). cbn [List.length]. rewrite IHt. split; reflexivity.
Qed.

(** [countXPathSteps] counts the steps of the specification. *)
Lemma countXPathSteps_pathSteps (selector : string) :
  countXPathSteps selector = pathSteps selector.
Proof.
  unfold countXPathSteps, pathSteps. symmetry. apply segmentsFrom_split.
Qed.

(** The steps are the non-empty ones among the pieces that the slashes
    delimit: for pieces free of slashes, joined by slashes. *)
Lemma pathSteps_of_pieces (pieces : list string) :
  Forall (fun piece => Str.includes slash piece = false) pieces ->
  pathSteps (Str.join "/" pieces) = List.length (Str.filterBoolean pieces).
Proof.
  intros H. rewrite <- countXPathSteps_pathSteps. unfold countXPathSteps.
  destruct pieces as [| piece pieces]; [reflexivity |].
  now rewrite (split_join slash) by exact H.
Qed.

Lemma rankedBefore_Preferred (a b : Candidate) : rankedBefore a b -> Preferred a b.
Proof.
  rewrite compareCandidates_spec. unfold Preferred.
  rewrite <- !countXPathSteps_pathSteps. lia.
Qed.

Lemma insertSorted_headFirst (x : Candidate) (l : list Candidate) :
  headFirst l -> headFirst (insertSorted compareCandidates x l).
Proof.
  destruct l as [| y rest]; simpl.
  - intros _ c [<- | []]. apply rankedBefore_refl.
  - intros Hy. destruct (Z.leb_spec (compareCandidates x y) 0) as [Hle | Hgt].
    + intros c [<- | Hc]; [apply rankedBefore_refl |].
      apply rankedBefore_trans with y; [exact Hle | apply Hy, Hc].
    + intros c [<- | Hc]; [apply rankedBefore_refl |].
      apply insertSorted_In in Hc as [-> | Hc].
      * destruct (rankedBefore_total x y) as [H | H]; [| exact H].
        unfold rankedBefore in H. lia.
      * apply Hy. now right.
Qed.

Lemma sortBy_headFirst (l : list Candidate) : headFirst (sortBy compareCandidates l).
Proof.
  induction l as [| x l IH]; simpl; [trivial |].
  now apply insertSorted_headFirst.
Qed.

(** C5.  When validated candidates exist, the selector returned is that of a
    validated candidate with maximal score; among those of equal score, one
    with the fewest steps; among those equal on score and steps, one of the
    shortest.  The steps are those of the specification, [pathSteps]: the
    non-empty segments that the slashes delimit. *)
Theorem ranking_order (evaluate : Engine) (e : Element) :
  let valid :=
    dedupeAndValidate evaluate (collectAllCandidates evaluate e) (ownerDocument e) in
  valid <> [] ->
  exists best,
    In best valid
    /\ generateXPathInDocument evaluate e = xpath best
    /\ forall c, In c valid -> Preferred best c.
Proof.
  intros valid Hne.
  destruct (generateXPathInDocument_ranked evaluate e Hne) as (best & rest & E & Hgen).
  fold valid in E.
  assert (Hbest : In best (sortBy compareCandidates valid)) by (rewrite E; now left).
  exists best. split; [now apply (sortBy_In compareCandidates) |].
  split; [exact Hgen |].
  intros c Hc. apply rankedBefore_Preferred.
  pose proof (sortBy_headFirst valid) as Hhead. rewrite E in Hhead.
  apply Hhead. rewrite <- E. now apply sortBy_In.
Qed.

Lemma ranking_order_witness :
  exists best,
    In best (dedupeAndValidate sampleEngine (collectAllCandidates sampleEngine secondSpan)
                               (ownerDocument secondSpan))
    /\ generateXPathInDocument sampleEngine secondSpan = xpath best
    /\ forall c,
         In c (dedupeAndValidate sampleEngine (collectAllCandidates sampleEngine secondSpan)
                                 (ownerDocument secondSpan)) ->
         Preferred best c.
Proof.
  apply (ranking_order sampleEngine secondSpan).
  vm_compute. discriminate.
Defined.

(** ** The tree: children, positions, sibling indices *)

Lemma samePosition_refl (p : list (bool * nat)) : samePosition p p = true.
Proof.
  induction p as [| [s i] p IH]; simpl; [reflexivity |].
  now rewrite Bool.eqb_reflx, Nat.eqb_refl, IH.
Qed.

Lemma sameNode_refl (e : Element) : sameNode e e = true.
Proof. apply samePosition_refl. Qed.

Lemma refocus_own (f : Frame) : refocus f (frameBefore f) (frameAfter f) = f.
Proof. now destruct f. Qed.

Lemma frameIndex_refocus (f : Frame) (before after : list Node) :
  frameIndex (refocus f before after) = (fst (frameIndex f), List.length before).
Proof. now destruct f. Qed.

Lemma element_eta (e : Element) :
  {| self := self e; shadowTree := shadowTree e; childNodes := childNodes e;
     context := context e |} = e.
Proof. now destruct e. Qed.

Lemma locate_app (frame : list Node -> list Node -> Frame) (rest : list Frame)
      (l1 l2 : list Node) :
  forall acc,
    locate frame rest acc (l1 ++ l2)%list
    = (locate (fun b a => frame b (a ++ l2)%list) rest acc l1
       ++ locate frame rest (List.rev l1 ++ acc) l2)%list.
Proof.
  induction l1 as [| n l1 IH]; intros acc; simpl; [reflexivity |].
  destruct n as [t | d shadow kids]; rewrite IH, <- app_assoc; reflexivity.
Qed.

Lemma locate_self (frame : list Node -> list Node -> Frame) (rest : list Frame)
      (l : list Node) :
  forall acc, List.map self (locate frame rest acc l) = elementData l.
Proof.
  induction l as [| [t | d shadow kids] l IH]; intros acc; simpl; auto.
  now rewrite IH.
Qed.

Lemma locate_indices (frame : list Node -> list Node -> Frame) (rest : list Frame)
      (l : list Node) :
  forall acc c,
    In c (locate frame rest acc l) ->
    exists b a,
      context c = frame b a :: rest
      /\ List.length acc <= List.length b < List.length acc + List.length l.
Proof.
  induction l as [| [t | d shadow kids] l IH]; intros acc c H; simpl in H.
  - contradiction.
  - destruct (IH _ _ H) as (b & a & E & Hb). simpl in Hb.
    exists b, a. split; [exact E | simpl; lia].
  - destruct H as [<- | H].
    + exists acc, l. simpl. split; [reflexivity | lia].
    + destruct (IH _ _ H) as (b & a & E & Hb). simpl in Hb.
      exists b, a. split; [exact E | simpl; lia].
Qed.

(** The children of the parent node of [e]: those before [e], [e] itself,
    those after. *)
Lemma childrenOf_parentNode (e : Element) (f : Frame) (rest : list Frame) :
  context e = f :: rest ->
  childrenOf (parentNode e)
  = (earlierSiblings e f rest
     ++ e :: locate (refocus f) rest (toNode e :: frameBefore f) (frameAfter f))%list.
Proof.
  intros E.
  assert (H : childrenOf (parentNode e)
              = locate (refocus f) rest []
                       (rev_append (frameBefore f) (toNode e :: frameAfter f))).
  { unfold parentNode. rewrite E.
    destruct f as [before d shadow after | before d mode hostKids after]; reflexivity. }
  rewrite H, rev_append_rev, locate_app. unfold earlierSiblings. f_equal.
  rewrite rev_involutive, app_nil_r.
  unfold toNode at 1. simpl. f_equal.
  rewrite refocus_own, <- E. apply element_eta.
Qed.

Lemma earlier_sibling_differs (e : Element) (f : Frame) (rest : list Frame) (c : Element) :
  context e = f :: rest ->
  In c (earlierSiblings e f rest) ->
  sameNode c e = false.
Proof.
  intros E H. apply locate_indices in H as (b & a & Ec & Hb).
  rewrite length_rev in Hb. simpl in Hb.
  unfold sameNode, position. rewrite Ec, E. simpl.
  rewrite frameIndex_refocus.
  destruct (frameIndex f) as [s i] eqn:Ef.
  assert (Ei : i = List.length (frameBefore f)).
  { destruct f; simpl in Ef; injection Ef as _ <-; reflexivity. }
  simpl. rewrite Bool.eqb_reflx. simpl.
  destruct (Nat.eqb_spec (List.length b) i); [lia | reflexivity].
Qed.

Lemma shadowSiblingIndexLoop_app (tag : string) (e x : Element) (pre post : list Element) :
  (forall c, In c pre -> sameNode c e = false) ->
  sameNode x e = true ->
  forall index,
    shadowSiblingIndexLoop tag e (pre ++ x :: post)%list index
    = index
      + List.length (List.filter (fun c => hasLocalName tag (self c)) pre)
      + (if hasLocalName tag (self x) then 1 else 0).
Proof.
  intros Hpre Hx. induction pre as [| c pre IH]; intros index; simpl.
  - rewrite Hx. unfold hasLocalName, localName.
    destruct (Str.toLowerCase (local_name (self x)) =? tag); lia.
  - rewrite (Hpre c) by now left.
    rewrite IH by (intros; apply Hpre; now right).
    unfold hasLocalName, localName.
    destruct (Str.toLowerCase (local_name (self c)) =? tag); simpl; lia.
Qed.

Lemma elementData_app (l1 l2 : list Node) :
  elementData (l1 ++ l2)%list = (elementData l1 ++ elementData l2)%list.
Proof.
  induction l1 as [| [t | d shadow kids] l1 IH]; simpl; auto. now rewrite IH.
Qed.

Lemma elementData_rev (l : list Node) :
  elementData (List.rev l) = List.rev (elementData l).
Proof.
  induction l as [| [t | d shadow kids] l IH]; simpl; auto.
  - rewrite elementData_app, IH. simpl. apply app_nil_r.
  - rewrite elementData_app, IH. reflexivity.
Qed.

Lemma filter_length_rev {A : Type} (p : A -> bool) (l : list A) :
  List.length (List.filter p (List.rev l)) = List.length (List.filter p l).
Proof.
  induction l as [| x l IH]; simpl; [reflexivity |].
  rewrite filter_app, length_app, IH. simpl. destruct (p x); simpl; lia.
Qed.

Lemma filter_map_self (p : ElementData -> bool) (l : list Element) :
  List.length (List.filter (fun c => p (self c)) l)
  = List.length (List.filter p (List.map self l)).
Proof.
  induction l as [| x l IH]; simpl; [reflexivity |].
  destruct (p (self x)); simpl; congruence.
Qed.

(** The siblings before [e] with a given local name, counted among the
    located children or among the nodes. *)
Lemma earlier_siblings_count (tag : string) (e : Element) (f : Frame) (rest : list Frame) :
  List.length (List.filter (fun c => hasLocalName tag (self c)) (earlierSiblings e f rest))
  = List.length (List.filter (hasLocalName tag) (elementData (frameBefore f))).
Proof.
  unfold earlierSiblings.
  rewrite filter_map_self, locate_self, elementData_rev. apply filter_length_rev.
Qed.

Lemma precedingSiblings_frame (e : Element) (f : Frame) (rest : list Frame) :
  context e = f :: rest -> precedingSiblings e = frameBefore f.
Proof. unfold precedingSiblings. intros ->. now destruct f. Qed.

Lemma hasLocalName_own (e : Element) :
  hasLocalName (Str.toLowerCase (localName e)) (self e) = true.
Proof. apply String.eqb_refl. Qed.

(** The index computed by the loop over the children of the parent is the
    index among the preceding siblings of the same local name. *)
Lemma getShadowSiblingIndex_spec (e : Element) :
  getShadowSiblingIndex e (parentNode e) = sameNameIndex e.
Proof.
  unfold getShadowSiblingIndex, sameNameIndex.
  destruct (context e) as [| f rest] eqn:E.
  - unfold parentNode, precedingSiblings. rewrite E. reflexivity.
  - rewrite (childrenOf_parentNode e f rest E).
    rewrite shadowSiblingIndexLoop_app.
    + rewrite hasLocalName_own, earlier_siblings_count,
              (precedingSiblings_frame e f rest E). lia.
    + intros c Hc. exact (earlier_sibling_differs e f rest c E Hc).
    + apply sameNode_refl.
Qed.

(** Among the children of its parent node that bear its local name, [e] is
    the one at its index. *)
Lemma nth_child_by_name (e : Element) (f : Frame) (rest : list Frame) :
  context e = f :: rest ->
  nth_error
    (List.filter (fun c => Str.toLowerCase (localName c) =? Str.toLowerCase (localName e))
                 (childrenOf (parentNode e)))
    (sameNameIndex e - 1)
  = Some e.
Proof.
  intros E. rewrite (childrenOf_parentNode e f rest E), filter_app. simpl.
  rewrite String.eqb_refl.
  unfold sameNameIndex. rewrite (precedingSiblings_frame e f rest E).
  rewrite <- (earlier_siblings_count _ e f rest). simpl. rewrite Nat.sub_0_r.
  rewrite nth_error_app2 by (unfold hasLocalName, localName; lia).
  unfold hasLocalName, localName. now rewrite Nat.sub_diag.
Qed.

(** ** Shadow-compound construction (C3) *)

Lemma parents_step (e : Element) :
  parents e
  = match parentNode e with
    | ParentElement p => p :: parents p
    | _ => []
    end.
Proof.
  unfold parents, parentNode.
  destruct (context e) as [| [before d shadow after | before d mode hostKids after] rest];
    reflexivity.
Qed.

Lemma parentNode_depth (e p : Element) :
  parentNode e = ParentElement p -> S (depth p) = depth e.
Proof.
  unfold parentNode, depth.
  destruct (context e) as [| [before d shadow after | before d mode hostKids after] rest];
    intros H; try discriminate.
  injection H as <-. reflexivity.
Qed.

Lemma scopePath_step (e : Element) :
  scopePath e
  = match parentNode e with
    | ParentElement p => (scopePath p ++ [e])%list
    | _ => [e]
    end.
Proof.
  unfold scopePath. rewrite (parents_step e).
  destruct (parentNode e); reflexivity.
Qed.

(** The loop of [getShadowAbsolutePath] yields one step for each element of
    the scope path, outermost first. *)
Lemma shadowPathLoop_spec (root : Element) (n : nat) :
  forall e segments,
    depth e = n ->
    shadowPathLoop root e segments
    = (List.map shadowStep (scopePath e) ++ segments)%list.
Proof.
  induction n as [| n IH]; intros e segments Hn;
    rewrite shadowPathLoop_step, scopePath_step, getShadowSiblingIndex_spec;
    destruct (parentNode e) as [doc | p | host] eqn:E; try reflexivity.
  - apply parentNode_depth in E. lia.
  - apply parentNode_depth in E.
    rewrite IH by lia. rewrite map_app, <- app_assoc. reflexivity.
Qed.

Lemma getShadowAbsolutePath_spec (root e : Element) :
  getShadowAbsolutePath root e = expectedShadowPath e.
Proof.
  unfold getShadowAbsolutePath, expectedShadowPath.
  now rewrite (shadowPathLoop_spec root (depth e) e [] eq_refl), app_nil_r.
Qed.

Lemma hostsFrom_root (ctx : list Frame) :
  forall n,
    hostsFrom n ctx
    = match rootFrom n ctx with
      | RootShadowRoot h => h :: hosts h
      | RootDocument _ => []
      end.
Proof.
  induction ctx as [| [before d shadow after | before d mode hostKids after] rest IH];
    intros n; simpl; auto.
Qed.

Lemma hosts_step (e : Element) :
  hosts e
  = match getRootNode e with
    | RootShadowRoot h => h :: hosts h
    | RootDocument _ => []
    end.
Proof. apply hostsFrom_root. Qed.

Lemma hostsFrom_length (ctx : list Frame) :
  forall n, List.length (hostsFrom n ctx) = shadowDepthOf ctx.
Proof.
  induction ctx as [| [before d shadow after | before d mode hostKids after] rest IH];
    intros n; simpl; auto.
Qed.

Lemma hosts_length (e : Element) : List.length (hosts e) = shadowDepth e.
Proof. apply hostsFrom_length. Qed.

Lemma last_default {A : Type} (x : A) (l : list A) (d d' : A) :
  List.last (x :: l) d = List.last (x :: l) d'.
Proof.
  revert x. induction l as [| y l IH]; intros x; [reflexivity |].
  change (List.last (y :: l) d = List.last (y :: l) d'). apply IH.
Qed.

Lemma last_cons {A : Type} (x : A) (l : list A) (d : A) :
  List.last (x :: l) d = List.last l x.
Proof.
  destruct l as [| y l]; [reflexivity |].
  change (List.last (y :: l) d = List.last (y :: l) x). apply last_default.
Qed.

Lemma outermostHost_step (e : Element) :
  outermostHost e
  = match getRootNode e with
    | RootShadowRoot h => outermostHost h
    | RootDocument _ => e
    end.
Proof.
  unfold outermostHost. rewrite (hosts_step e).
  destruct (getRootNode e) as [doc | h]; [reflexivity | apply last_cons].
Qed.

Lemma crossings_step (e : Element) :
  crossings e
  = match getRootNode e with
    | RootShadowRoot h => (crossings h ++ [e])%list
    | RootDocument _ => []
    end.
Proof.
  unfold crossings. rewrite (hosts_step e).
  destruct (getRootNode e) as [doc | h]; reflexivity.
Qed.

Lemma crossings_length (e : Element) : List.length (crossings e) = shadowDepth e.
Proof.
  unfold crossings. rewrite length_rev.
  rewrite <- hosts_length.
  generalize (hosts e). intros l. revert e.
  induction l as [| h l IH]; intros e; [reflexivity |].
  change (S (List.length (List.removelast (h :: l))) = S (List.length l)).
  f_equal. apply IH.
Qed.

(** The shadow walk ends at the outermost host, with one path for each
    crossing, outermost first. *)
Lemma shadowWalk_spec (n : nat) :
  forall e acc,
    shadowDepth e = n ->
    shadowWalk e acc
    = (outermostHost e, (List.map expectedShadowPath (crossings e) ++ acc)%list).
Proof.
  induction n as [| n IH]; intros e acc Hn;
    rewrite shadowWalk_step, outermostHost_step, crossings_step;
    destruct (getRootNode e) as [doc | h] eqn:E; try reflexivity.
  - apply getRootNode_shadowDepth in E. lia.
  - apply getRootNode_shadowDepth in E.
    rewrite IH by lia.
    rewrite getShadowAbsolutePath_spec, map_app, <- app_assoc. reflexivity.
Qed.

Lemma outermostHost_in_document (n : nat) :
  forall e, shadowDepth e = n -> shadowDepth (outermostHost e) = 0.
Proof.
  induction n as [| n IH]; intros e Hn; rewrite outermostHost_step;
    destruct (getRootNode e) as [doc | h] eqn:E.
  - exact Hn.
  - apply getRootNode_shadowDepth in E. lia.
  - apply rootFrom_document in E. exact E.
  - apply getRootNode_shadowDepth in E. apply IH. lia.
Qed.

Lemma crossings_order (n : nat) :
  forall e k x,
    shadowDepth e = n ->
    nth_error (crossings e) k = Some x -> shadowDepth x = S k.
Proof.
  induction n as [| n IH]; intros e k x Hn; rewrite crossings_step;
    destruct (getRootNode e) as [doc | h] eqn:E.
  - destruct k; discriminate.
  - apply getRootNode_shadowDepth in E. lia.
  - destruct k; discriminate.
  - apply getRootNode_shadowDepth in E.
    assert (Hlen : List.length (crossings h) = n)
      by (rewrite crossings_length; lia).
    destruct (Nat.lt_ge_cases k n) as [Hk | Hk].
    + rewrite nth_error_app1 by lia. apply IH. lia.
    + rewrite nth_error_app2 by lia. rewrite Hlen.
      destruct (k - n) as [| j] eqn:Ej; simpl.
      * intros H. injection H as <-. lia.
      * destruct j; discriminate.
Qed.

(** C3.  For an element inside [n >= 1] nested shadow roots, [generateXPath]
    returns the document-level selector of the outermost shadow host, then a
    bar, then the [n] shadow paths joined by bars, outermost first (the k-th
    belongs to the element that lies under k shadow roots).  Each shadow path
    is a slash followed by the steps [tag[index]], joined by slashes, of the
    element and its ancestors up to but not including the shadow root,
    outermost first; [tag] is the lowercase local name and [index] the 1-based
    index among the preceding siblings of that local name. *)
Theorem shadow_compound_construction (evaluate : Engine) (e : Element) (n : nat) :
  shadowDepth e = n -> 1 <= n ->
  generateXPath evaluate (ElementArgument e)
  = Returns (generateXPathInDocument evaluate (outermostHost e)
             ++ "|" ++ Str.join "|" (List.map expectedShadowPath (crossings e)))
  /\ shadowDepth (outermostHost e) = 0
  /\ List.length (List.map expectedShadowPath (crossings e)) = n
  /\ (forall k x, nth_error (crossings e) k = Some x -> shadowDepth x = S k)
  /\ (forall x, In x (crossings e) ->
        expectedShadowPath x
        = "/" ++ Str.join "/"
            (List.map (fun a => Str.toLowerCase (localName a)
                                ++ "[" ++ Str.ofNat (sameNameIndex a) ++ "]")
                      (scopePath x))).
Proof.
  intros Hn Hpos.
  assert (Hlen : List.length (crossings e) = n) by (rewrite crossings_length; exact Hn).
  split; [| split; [| split; [| split]]].
  - unfold generateXPath. rewrite (shadowWalk_spec n e [] Hn), app_nil_r.
    destruct (crossings e) as [| x xs]; [simpl in Hlen; lia | reflexivity].
  - exact (outermostHost_in_document n e Hn).
  - now rewrite length_map.
  - intros k x. exact (crossings_order n e k x Hn).
  - reflexivity.
Qed.

Lemma shadow_compound_construction_witness :
  generateXPath PathEngine.evaluate (ElementArgument shadowSpan)
  = Returns (generateXPathInDocument PathEngine.evaluate (outermostHost shadowSpan)
             ++ "|" ++ Str.join "|" (List.map expectedShadowPath (crossings shadowSpan))).
Proof.
  apply (shadow_compound_construction PathEngine.evaluate shadowSpan 1).
  - reflexivity.
  - lia.
Defined.

(** ** Resolution of generated selectors (C1) *)

(** *** Every candidate begins with a slash *)

Lemma Rooted_append (s t : string) : Rooted s -> Rooted (s ++ t).
Proof. unfold Rooted. destruct s; simpl; [discriminate | trivial]. Qed.

Lemma Rooted_trim (s : string) : Rooted s -> Str.isEmpty (Str.trim s) = false.
Proof.
  unfold Rooted, Str.trim. destruct s as [| c s]; simpl; [discriminate |].
  intros H. apply Ascii.eqb_eq in H as ->. simpl.
  reflexivity.
Qed.

Lemma attributeSelector_rooted (evaluate : Engine) (e : Element) :
  Forall Rooted (attributeSelector evaluate e).
Proof.
  unfold attributeSelector.
  destruct (getUniqueStableAttribute evaluate e) as [[name value] |]; constructor;
    [reflexivity | constructor].
Qed.

Lemma textAnchor_rooted (evaluate : Engine) (e : Element) (doc : Document) :
  Forall Rooted (textAnchor evaluate e doc).
Proof.
  unfold textAnchor. destruct (hasStableText e); [| constructor].
  match goal with |- context [isUnique evaluate ?x doc] =>
    destruct (isUnique evaluate x doc) end; constructor; [reflexivity | constructor].
Qed.

Lemma classSelector_rooted (evaluate : Engine) (e : Element) (doc : Document)
      (classes : list string) :
  Forall Rooted (classSelector evaluate e doc classes).
Proof.
  unfold classSelector.
  match goal with |- context [isUnique evaluate ?x doc] =>
    destruct (isUnique evaluate x doc) end; constructor; [reflexivity | constructor].
Qed.

Lemma idSelector_rooted (e : Element) (doc : Document) :
  Forall Rooted (idSelector e doc).
Proof.
  unfold idSelector.
  destruct (isStableId (id e) && isUniqueId (id e) doc); constructor;
    [reflexivity | constructor].
Qed.

Lemma tagSelector_rooted (evaluate : Engine) (e : Element) (doc : Document) :
  Forall Rooted (tagSelector evaluate e doc).
Proof.
  unfold tagSelector.
  match goal with |- context [isUnique evaluate ?x doc] =>
    destruct (isUnique evaluate x doc) end; constructor; [reflexivity | constructor].
Qed.

Lemma getAnchorXPaths_rooted (evaluate : Engine) (e : Element) :
  Forall Rooted (getAnchorXPaths evaluate e).
Proof.
  unfold getAnchorXPaths.
  rewrite !Forall_app; repeat split.
  - apply tagSelector_rooted.
  - apply idSelector_rooted.
  - apply attributeSelector_rooted.
  - apply textAnchor_rooted.
  - destruct (List.filter isStableClass (classList e)); [constructor |].
    apply classSelector_rooted.
Qed.

Lemma ancestorLoop_rooted (evaluate : Engine) (budget : nat) :
  forall current turns segments selectors,
    Forall Rooted selectors ->
    Forall Rooted (snd (ancestorLoop evaluate budget current turns segments selectors)).
Proof.
  induction budget as [| budget IH]; intros current turns segments selectors H; simpl;
    [exact H |].
  destruct (parentElement current) as [parent |]; [| exact H].
  match goal with |- context [(selectors ++ ?l)%list] =>
    assert (Hl : Forall Rooted (selectors ++ l)%list) end.
  { apply Forall_app. split; [exact H |].
    apply Forall_map. eapply Forall_impl; [| apply getAnchorXPaths_rooted].
    intros a Ha. now apply Rooted_append. }
  destruct (tagName parent =? "BODY"); [exact Hl | now apply IH].
Qed.

Lemma getSiblingAnchor_rooted (evaluate : Engine) (sibling : Element) (doc : Document)
      (anchor : string) :
  getSiblingAnchor evaluate sibling doc = Some anchor -> Rooted anchor.
Proof.
  unfold getSiblingAnchor.
  destruct (isUnique evaluate ("//" ++ getNodeTest sibling) doc);
    [intros H; injection H as <-; reflexivity |].
  destruct (isStableId (id sibling) && isUniqueId (id sibling) doc);
    [intros H; injection H as <-; reflexivity |].
  destruct (getUniqueStableAttribute evaluate sibling) as [[name value] |];
    [intros H; injection H as <-; reflexivity |].
  pose proof (textAnchor_rooted evaluate sibling doc) as Ht.
  destruct (textAnchor evaluate sibling doc) as [| x xs]; [discriminate |].
  intros H. injection H as <-. now inversion Ht.
Qed.

Lemma getSiblingPaths_rooted (evaluate : Engine) (e : Element) :
  Forall Rooted (getSiblingPaths evaluate e).
Proof.
  unfold getSiblingPaths.
  destruct (parentElement e) as [parent |]; [| constructor].
  destruct (indexOf e (children parent) 0) as [elementIndex |]; [| constructor].
  apply Forall_app. split; apply Forall_flat_map, Forall_forall; intros i _;
    (destruct (nth_error (children parent) i) as [sibling |]; [| constructor]);
    (destruct (getSiblingAnchor evaluate sibling (ownerDocument e)) as [anchor |] eqn:Ea;
     [| constructor]);
    (constructor; [| constructor]);
    apply Rooted_append; exact (getSiblingAnchor_rooted _ _ _ _ Ea).
Qed.

Lemma getDirectSelectors_rooted (evaluate : Engine) (e : Element) :
  Forall Rooted (getDirectSelectors evaluate e).
Proof.
  unfold getDirectSelectors. rewrite !Forall_app; repeat split.
  - apply attributeSelector_rooted.
  - unfold getLabelAnchoredPath.
    destruct (previousElementSibling e) as [prev |]; [| constructor].
    destruct (negb (hasStableText prev)); [constructor |].
    match goal with |- context [if ?b then None else _] => destruct b end;
      [constructor |].
    match goal with |- context [if ?b then None else _] => destruct b end;
      constructor; [reflexivity | constructor].
  - apply textAnchor_rooted.
Qed.

Lemma getClassSelectors_rooted (evaluate : Engine) (e : Element) :
  Forall Rooted (getClassSelectors evaluate e).
Proof.
  unfold getClassSelectors.
  destruct (List.filter isStableClass (classList e)) as [| c cs]; [constructor |].
  apply Forall_app. split; [apply classSelector_rooted |].
  apply Forall_flat_map, Forall_forall. intros cls _. apply classSelector_rooted.
Qed.

Lemma scored_rooted (s : Z) (xs : list string) :
  Forall Rooted xs -> Forall (fun c => Rooted (xpath c)) (scored s xs).
Proof. intros H. unfold scored. apply Forall_map. exact H. Qed.

Lemma getAbsolutePath_rooted (e : Element) : Rooted (getAbsolutePath e).
Proof. reflexivity. Qed.

Lemma collectAllCandidates_rooted (evaluate : Engine) (e : Element) :
  Forall (fun c => Rooted (xpath c)) (collectAllCandidates evaluate e).
Proof.
  unfold collectAllCandidates. rewrite !Forall_app; repeat split.
  - unfold getUniqueTagNameSelector.
    destruct (negb (existsb (String.eqb (Str.toLowerCase (tagName e))) UNIQUE_TAG_WHITELIST));
      [constructor |].
    match goal with |- context [isUnique evaluate ?x ?d] =>
      destruct (isUnique evaluate x d) end; constructor; [reflexivity | constructor].
  - apply scored_rooted, idSelector_rooted.
  - apply scored_rooted, getDirectSelectors_rooted.
  - apply scored_rooted. unfold getAncestorPaths. apply ancestorLoop_rooted. constructor.
  - apply scored_rooted, getSiblingPaths_rooted.
  - apply scored_rooted, getClassSelectors_rooted.
  - destruct (isUnique evaluate (getAbsolutePath e) (ownerDocument e)); constructor;
      [reflexivity | constructor].
Qed.

(** The document-level selector always begins with a slash. *)
Lemma generateXPathInDocument_rooted (evaluate : Engine) (e : Element) :
  Rooted (generateXPathInDocument evaluate e).
Proof.
  destruct (dedupeAndValidate evaluate (collectAllCandidates evaluate e) (ownerDocument e))
    as [| c cs] eqn:E.
  - unfold generateXPathInDocument. rewrite E. reflexivity.
  - destruct (generateXPathInDocument_ranked evaluate e) as (best & rest & Es & ->);
      [rewrite E; discriminate |].
    assert (Hin : In best (dedupeAndValidate evaluate (collectAllCandidates evaluate e)
                                             (ownerDocument e))).
    { apply (sortBy_In compareCandidates). rewrite Es. now left. }
    apply dedupeLoop_valid in Hin as (Hin & _ & _).
    pose proof (collectAllCandidates_rooted evaluate e) as H.
    rewrite Forall_forall in H. now apply H.
Qed.

(** *** Shadow paths, resolved *)

Lemma getRootNode_step (e : Element) :
  getRootNode e
  = match parentNode e with
    | ParentDocument doc => RootDocument doc
    | ParentElement p => getRootNode p
    | ParentShadowRoot h => RootShadowRoot h
    end.
Proof.
  unfold getRootNode, parentNode.
  destruct (context e) as [| [before d shadow after | before d mode hostKids after] rest];
    reflexivity.
Qed.

Lemma NameOk_lower (name : string) :
  NameOk name -> NameOk (Str.toLowerCase name).
Proof.
  intros [Hne Hall]. split.
  - intros H. apply Hne. now apply (proj1 (toLowerCase_empty name)).
  - now apply toLowerCase_names.
Qed.

Lemma NameOk_not_star (name : string) : NameOk name -> (name =? "*") = false.
Proof.
  intros [_ Hall]. apply String.eqb_neq. intros ->. discriminate Hall.
Qed.

(** One step of the resolver undoes one step of the generator. *)
Lemma resolveLoop_step (x : Element) (segments : list string) (current : option Element) :
  (forall doc, parentNode x <> ParentDocument doc) ->
  NameOk (localName x) ->
  resolveLoop (shadowStep x :: segments) (parentNode x) current
  = resolveLoop segments (ParentElement x) (Some x).
Proof.
  intros Hparent Hname.
  destruct (context x) as [| f rest] eqn:E.
  { exfalso. apply (Hparent (toNode x)). unfold parentNode. now rewrite E. }
  apply NameOk_lower in Hname.
  cbn [resolveLoop]. unfold shadowStep.
  destruct Hname as [Hne Hall].
  rewrite parseSegment_pathStep by (trivial; unfold sameNameIndex; lia).
  rewrite toLowerCase_idempotent.
  rewrite NameOk_not_star by (split; trivial).
  now rewrite (nth_child_by_name x f rest E).
Qed.

Lemma resolveLoop_scope (h : Element) (n : nat) :
  forall x segments current,
    depth x = n ->
    getRootNode x = RootShadowRoot h ->
    Forall (fun a => NameOk (localName a)) (scopePath x) ->
    resolveLoop (List.map shadowStep (scopePath x) ++ segments)%list
                (ParentShadowRoot h) current
    = resolveLoop segments (ParentElement x) (Some x).
Proof.
  induction n as [| n IH]; intros x segments current Hn Hroot Hnames;
    rewrite getRootNode_step in Hroot; rewrite scopePath_step in Hnames |- *;
    destruct (parentNode x) as [doc | p | host] eqn:Ep; try discriminate.
  - apply parentNode_depth in Ep. lia.
  - injection Hroot as Hh. rewrite Hh in Ep.
    inversion Hnames as [| ? ? Hxname _]; subst.
    change (List.map shadowStep [x] ++ segments)%list with (shadowStep x :: segments).
    rewrite <- Ep. apply resolveLoop_step; [| exact Hxname].
    intros doc. rewrite Ep. discriminate.
  - pose proof (parentNode_depth x p Ep) as Hd.
    apply Forall_app in Hnames as [Hp Hx]. inversion Hx as [| ? ? Hxname _]; subst.
    rewrite map_app, <- app_assoc.
    change (List.map shadowStep [x] ++ segments)%list with (shadowStep x :: segments).
    rewrite IH by (trivial; lia).
    rewrite <- Ep. apply resolveLoop_step; [| exact Hxname].
    intros doc. rewrite Ep. discriminate.
  - injection Hroot as Hh. rewrite Hh in Ep.
    inversion Hnames as [| ? ? Hxname _]; subst.
    change (List.map shadowStep [x] ++ segments)%list with (shadowStep x :: segments).
    rewrite <- Ep. apply resolveLoop_step; [| exact Hxname].
    intros doc. rewrite Ep. discriminate.
Qed.

Lemma shadowStep_without (c : ascii) (x : Element) :
  Chars.isNameChar c = false -> Chars.isDigit c = false ->
  c <> "["%char -> c <> "]"%char ->
  NameOk (localName x) ->
  Str.includes c (shadowStep x) = false.
Proof.
  intros Hn Hd Hl Hr Hname. apply NameOk_lower in Hname as [_ Hall].
  now apply pathStep_without.
Qed.

Lemma expectedShadowPath_steps (x : Element) :
  Forall (fun a => NameOk (localName a)) (scopePath x) ->
  Str.filterBoolean (Str.split slash (expectedShadowPath x))
  = List.map shadowStep (scopePath x).
Proof.
  intros Hnames. unfold expectedShadowPath. apply split_absolute.
  - unfold scopePath. simpl. destruct (List.rev (parents x)); discriminate.
  - apply Forall_map. eapply Forall_impl; [| exact Hnames].
    intros a Ha. apply shadowStep_without; trivial; discriminate.
  - apply Forall_map, Forall_forall. intros a _. apply pathStep_not_empty.
Qed.

Lemma expectedShadowPath_trim (x : Element) :
  Str.trim (expectedShadowPath x) = expectedShadowPath x.
Proof.
  unfold expectedShadowPath, Str.trim. cbn [Str.trimStart append].
  change (Chars.isSpace "/"%char) with false. cbv iota.
  destruct (join_ends_with "]"%char "/" (List.map shadowStep (scopePath x))) as [q Hq].
  - unfold scopePath. simpl. destruct (List.rev (parents x)); discriminate.
  - apply Forall_map, Forall_forall. intros a _. apply pathStep_ends.
  - rewrite Hq.
    change (String "/"%char (q ++ String "]"%char EmptyString))
      with (String "/"%char q ++ String "]"%char EmptyString).
    now apply trimEnd_closed.
Qed.

Lemma expectedShadowPath_without_bar (x : Element) :
  Forall (fun a => NameOk (localName a)) (scopePath x) ->
  Str.includes bar (expectedShadowPath x) = false.
Proof.
  intros Hnames. unfold expectedShadowPath.
  change ("/" ++ ?s) with (String "/"%char s). cbn [Str.includes].
  change (("/"%char =? bar)%char) with false. cbn [orb].
  apply includes_join; [reflexivity |].
  apply Forall_map. eapply Forall_impl; [| exact Hnames].
  intros a Ha. apply shadowStep_without; trivial; discriminate.
Qed.

(** One shadow segment leads from the host to the element it was built
    for. *)
Lemma resolveShadowParts_step (evaluate : Engine) (x h : Element) (parts : list string) :
  getRootNode x = RootShadowRoot h ->
  OpenHost h ->
  Forall (fun a => NameOk (localName a)) (scopePath x) ->
  resolveShadowParts evaluate (expectedShadowPath x :: parts) h
  = resolveShadowParts evaluate parts x.
Proof.
  intros Hroot [kids Hopen] Hnames. cbn [resolveShadowParts].
  rewrite expectedShadowPath_trim.
  unfold shadowRoot. rewrite Hopen.
  change (Str.startsWith slash (expectedShadowPath x)) with true. cbv iota.
  unfold resolveInShadowRoot. rewrite expectedShadowPath_steps by trivial.
  rewrite <- (app_nil_r (List.map shadowStep (scopePath x))).
  now rewrite (resolveLoop_scope h (depth x) x [] None eq_refl Hroot Hnames).
Qed.

Lemma resolveShadowParts_crossings (evaluate : Engine) (n : nat) :
  forall e parts,
    shadowDepth e = n ->
    Forall OpenHost (hosts e) ->
    Forall (fun x => Forall (fun a => NameOk (localName a)) (scopePath x)) (crossings e) ->
    resolveShadowParts evaluate
      (List.map expectedShadowPath (crossings e) ++ parts)%list (outermostHost e)
    = resolveShadowParts evaluate parts e.
Proof.
  induction n as [| n IH]; intros e parts Hn Hopen Hnames;
    rewrite hosts_step in Hopen; rewrite crossings_step in Hnames |- *;
    rewrite outermostHost_step;
    destruct (getRootNode e) as [doc | h] eqn:E; try reflexivity.
  - apply getRootNode_shadowDepth in E. lia.
  - pose proof (getRootNode_shadowDepth e h E) as Hd.
    inversion Hopen as [| ? ? Hh Hhs]; subst.
    apply Forall_app in Hnames as [Hnh Hne]. inversion Hne as [| ? ? Hx _]; subst.
    rewrite map_app, <- app_assoc. simpl.
    rewrite IH by (trivial; lia).
    now apply resolveShadowParts_step.
Qed.

Lemma crossings_without_bar (e : Element) :
  Forall (fun x => Forall (fun a => NameOk (localName a)) (scopePath x)) (crossings e) ->
  Forall (fun s => Str.includes bar s = false) (List.map expectedShadowPath (crossings e)).
Proof.
  intros H. apply Forall_map. eapply Forall_impl; [| exact H].
  intros x Hx. now apply expectedShadowPath_without_bar.
Qed.

(** The selector is split at its bars into the document-level segment and the
    shadow paths. *)
Lemma split_compound (base : string) (paths : list string) :
  Str.includes bar base = false ->
  Forall (fun s => Str.includes bar s = false) paths ->
  Str.split bar (match paths with
                 | [] => base
                 | _ => base ++ "|" ++ Str.join "|" paths
                 end)
  = base :: paths.
Proof.
  intros Hbase Hpaths. destruct paths as [| p ps]; [now apply split_without |].
  change (base ++ "|" ++ Str.join "|" (p :: ps))
    with (base ++ String bar (Str.join (String bar EmptyString) (p :: ps))).
  rewrite split_append by trivial. now rewrite split_join.
Qed.

Lemma generateXPath_spec (evaluate : Engine) (e : Element) :
  generateXPath evaluate (ElementArgument e)
  = Returns (match List.map expectedShadowPath (crossings e) with
             | [] => generateXPathInDocument evaluate (outermostHost e)
             | _ => generateXPathInDocument evaluate (outermostHost e)
                    ++ "|" ++ Str.join "|" (List.map expectedShadowPath (crossings e))
             end).
Proof.
  unfold generateXPath.
  rewrite (shadowWalk_spec (shadowDepth e) e [] eq_refl), app_nil_r.
  destruct (List.map expectedShadowPath (crossings e)); reflexivity.
Qed.

(** The resolver returns only [HTMLElement]s and enters only open shadow
    roots.  On the sample page, the
    selector generated for the [g] inside the [svg] selects that element, and
    the resolver returns nothing; so it does for the [span] inside a closed
    shadow root. *)
Lemma resolution_fails_for_svg_and_closed_roots :
  (exists s,
      generateXPath PathEngine.evaluate (ElementArgument svgGroup) = Returns s
      /\ evaluateFirstXPath PathEngine.evaluate (ownerDocument svgGroup) s = Some svgGroup
      /\ resolveElementFromStoredSelector PathEngine.evaluate (ownerDocument svgGroup) s
         <> Some svgGroup)
  /\ (exists s,
         generateXPath PathEngine.evaluate (ElementArgument closedShadowSpan) = Returns s
         /\ resolveElementFromStoredSelector PathEngine.evaluate
              (ownerDocument closedShadowSpan) s
            <> Some closedShadowSpan).
Proof.
  split.
  - exists "/html[1]/body[1]/*[local-name()='svg'][1]/*[local-name()='g'][1]".
    split; [vm_compute; reflexivity |].
    split; [vm_compute; reflexivity |].
    vm_compute. discriminate.
  - exists "/html[1]/body[1]/my-product[1]|/section[1]/div[2]/span[1]".
    split; [vm_compute; reflexivity |].
    vm_compute. discriminate.
Qed.

(** From the outermost host inwards the resolver follows the shadow paths of
    the generator.  Let [e] be an [HTMLElement] inside any number of nested
    shadow roots, all of them open, such that the local names on its shadow
    paths are made of [[a-zA-Z0-9_-]].  If the document-level segment of
    [generateXPath(e)] holds no bar and the first match of the engine for it
    is the outermost shadow host, then resolving the generated selector
    returns exactly [e]. *)
Lemma resolution_of_generated_selector (evaluate : Engine) (e : Element) :
  interface (self e) = HTMLElementInterface ->
  Forall OpenHost (hosts e) ->
  Forall (fun x => Forall (fun a => NameOk (localName a)) (scopePath x)) (crossings e) ->
  Str.includes bar (generateXPathInDocument evaluate (outermostHost e)) = false ->
  evaluateFirstXPath evaluate (ownerDocument e)
    (Str.trim (generateXPathInDocument evaluate (outermostHost e)))
  = Some (outermostHost e) ->
  exists s,
    generateXPath evaluate (ElementArgument e) = Returns s
    /\ resolveElementFromStoredSelector evaluate (ownerDocument e) s = Some e.
Proof.
  intros Hhtml Hopen Hnames Hbar Hfirst.
  eexists. split; [apply generateXPath_spec |].
  unfold resolveElementFromStoredSelector.
  rewrite split_compound by (trivial; now apply crossings_without_bar).
  rewrite (Rooted_trim _ (generateXPathInDocument_rooted evaluate (outermostHost e))).
  rewrite Hfirst.
  rewrite <- (app_nil_r (List.map expectedShadowPath (crossings e))).
  rewrite (resolveShadowParts_crossings evaluate (shadowDepth e) e [] eq_refl Hopen Hnames).
  cbn [resolveShadowParts]. now rewrite Hhtml.
Qed.

Lemma resolution_of_generated_selector_witness :
  exists s,
    generateXPath PathEngine.evaluate (ElementArgument shadowSpan) = Returns s
    /\ resolveElementFromStoredSelector PathEngine.evaluate (ownerDocument shadowSpan) s
       = Some shadowSpan.
Proof.
  apply (resolution_of_generated_selector PathEngine.evaluate shadowSpan).
  - reflexivity.
  - repeat constructor. eexists. reflexivity.
  - repeat constructor; discriminate.
  - vm_compute. reflexivity.
  - vm_compute. reflexivity.
Defined.

(** C1.  The round trip fails where nothing stands in its way: for an
    [HTMLElement] of a plain page, outside any shadow root.  On the page
    <html><body><p><span><b>Price</b></span><em>19</em></p>
                <p><span>Price</span><em>20</em></p></body></html>
    the target is the first price, the [em] with the text 19.  The label
    before it has the stable text Price ([textContent] reads through the
    [b]), so that [getLabelAnchoredPath] asks for the [span] whose [text()]
    is Price; [text()] takes child text nodes only, the query selects the
    second [span] alone and is found unique, and the path built on it selects
    one element: the second price.  The pass of validation counts the
    matches and does not ask which element matched; the candidate has the
    highest score, and the generator returns it.  The resolver gives back the
    second price. *)
Theorem label_anchor_resolves_to_another_element :
  interface (self firstPrice) = HTMLElementInterface
  /\ shadowDepth firstPrice = 0
  /\ ownerDocument firstPrice = pricePage
  /\ textContent firstPrice = "19"
  /\ getLabelAnchoredPath priceEngine firstPrice
     = Some "//span[normalize-space(text())='Price']/following-sibling::em[1]"
  /\ List.map xpath
       (dedupeAndValidate priceEngine (collectAllCandidates priceEngine firstPrice)
          (ownerDocument firstPrice))
     = ["//span[normalize-space(text())='Price']/following-sibling::em[1]";
        "//body/p[1]/em[1]";
        "/html[1]/body[1]/p[1]/em[1]"]
  /\ generateXPath priceEngine (ElementArgument firstPrice)
     = Returns "//span[normalize-space(text())='Price']/following-sibling::em[1]"
  /\ resolveElementFromStoredSelector priceEngine pricePage
       "//span[normalize-space(text())='Price']/following-sibling::em[1]"
     = Some secondPrice
  /\ textContent secondPrice = "20"
  /\ sameNode secondPrice firstPrice = false
  /\ resolveElementFromStoredSelector priceEngine pricePage
       "//span[normalize-space(text())='Price']/following-sibling::em[1]"
     <> Some firstPrice.
Proof.
  repeat split; try (vm_compute; reflexivity).
  vm_compute. discriminate.
Qed.

(** ** The absolute path (C4) *)

(** The absolute path is the last resort: it is returned when no candidate
    validates, and also when the only candidates that validate carry it. *)
Lemma absolute_path_is_the_last_resort (evaluate : Engine) (e : Element) :
  (forall c,
      In c (dedupeAndValidate evaluate (collectAllCandidates evaluate e) (ownerDocument e)) ->
      xpath c = getAbsolutePath e) ->
  generateXPathInDocument evaluate e = getAbsolutePath e.
Proof.
  intros Honly.
  destruct (dedupeAndValidate evaluate (collectAllCandidates evaluate e) (ownerDocument e))
    as [| c cs] eqn:E.
  - unfold generateXPathInDocument. now rewrite E.
  - destruct (generateXPathInDocument_ranked evaluate e) as (best & rest & Es & ->);
      [rewrite E; discriminate |].
    apply Honly. rewrite <- E.
    apply (sortBy_In compareCandidates). rewrite Es. now left.
Qed.

Lemma scored_score (s : Z) (xs : list string) (c : Candidate) :
  In c (scored s xs) -> score c = s.
Proof.
  unfold scored. intros H. apply in_map_iff in H as (x & <- & _). reflexivity.
Qed.

(** The absolute path is offered as a candidate, with score 0, only when the
    engine finds it unique. *)
Lemma absolute_candidate_is_validated (evaluate : Engine) (e : Element) (c : Candidate) :
  In c (collectAllCandidates evaluate e) -> score c = 0%Z ->
  xpath c = getAbsolutePath e
  /\ isUnique evaluate (getAbsolutePath e) (ownerDocument e) = true.
Proof.
  unfold collectAllCandidates. rewrite !in_app_iff.
  intros [H | [H | [H | [H | [H | [H | H]]]]]] Hs;
    try (apply scored_score in H; rewrite H in Hs; discriminate Hs).
  - destruct (getUniqueTagNameSelector evaluate e); [| contradiction].
    destruct H as [<- | []]. discriminate Hs.
  - destruct (isUnique evaluate (getAbsolutePath e) (ownerDocument e)); [| contradiction].
    destruct H as [<- | []]. auto.
Qed.

(** *** The absolute path, walked by the path engine *)

Lemma parentElement_parentNode (e : Element) :
  parentElement e
  = match parentNode e with
    | ParentElement p => Some p
    | _ => None
    end.
Proof. reflexivity. Qed.

Lemma absolutePathLoop_spec (n : nat) :
  forall e segments,
    depth e = n ->
    absolutePathLoop (Some e) segments
    = (List.map absoluteStep (scopePath e) ++ segments)%list.
Proof.
  induction n as [| n IH]; intros e segments Hn;
    rewrite absolutePathLoop_equation_1, scopePath_step, parentElement_parentNode;
    destruct (parentNode e) as [doc | p | host] eqn:E;
    try (rewrite absolutePathLoop_equation_2; reflexivity).
  - apply parentNode_depth in E. lia.
  - apply parentNode_depth in E.
    rewrite IH by lia. rewrite map_app, <- app_assoc. reflexivity.
Qed.

Lemma getAbsolutePath_spec (e : Element) :
  getAbsolutePath e = "/" ++ Str.join "/" (List.map absoluteStep (scopePath e)).
Proof.
  unfold getAbsolutePath.
  now rewrite (absolutePathLoop_spec (depth e) e [] eq_refl), app_nil_r.
Qed.

Lemma elementIndexLoop_spec (tag : string) (siblings : list Node) :
  forall index,
    elementIndexLoop tag siblings index
    = index + List.length (List.filter (fun d => tag_name d =? tag) (elementData siblings)).
Proof.
  induction siblings as [| [t | d shadow kids] rest IH]; intros index; simpl.
  - lia.
  - apply IH.
  - rewrite IH. destruct (tag_name d =? tag); simpl; lia.
Qed.

Lemma getElementIndex_spec (x : Element) :
  getElementIndex x
  = S (List.length (List.filter (fun d => tag_name d =? tagName x)
                                (elementData (precedingSiblings x)))).
Proof. unfold getElementIndex. now rewrite elementIndexLoop_spec. Qed.

Lemma filter_agree {A : Type} (p q : A -> bool) (l : list A) :
  Forall (fun a => p a = q a) l ->
  List.length (List.filter p l) = List.length (List.filter q l).
Proof.
  induction 1 as [| a l Ha _ IH]; simpl; [reflexivity |].
  rewrite Ha. destruct (q a); simpl; congruence.
Qed.

Lemma earlier_siblings_count_by (q : ElementData -> bool) (e : Element) (f : Frame)
      (rest : list Frame) :
  List.length (List.filter (fun c => q (self c)) (earlierSiblings e f rest))
  = List.length (List.filter q (elementData (frameBefore f))).
Proof.
  unfold earlierSiblings.
  rewrite filter_map_self, locate_self, elementData_rev. apply filter_length_rev.
Qed.

(** Among the children the engine looks at, [x] is the one its step names. *)
Lemma nth_child_by_query (x : Element) (kids : list Element) :
  PathAgrees x ->
  (context x = [] /\ kids = [x]
   \/ exists f rest, context x = f :: rest /\ kids = childrenOf (parentNode x)) ->
  nth_error (List.filter (fun c => queryMatches x (self c)) kids) (getElementIndex x - 1)
  = Some x.
Proof.
  intros [Hown Hbefore] [[E ->] | (f & rest & E & ->)]; rewrite getElementIndex_spec.
  - unfold precedingSiblings. rewrite E. simpl. now rewrite Hown.
  - rewrite (childrenOf_parentNode x f rest E), filter_app. simpl. rewrite Hown.
    rewrite <- (filter_agree _ _ _ Hbefore).
    rewrite (precedingSiblings_frame x f rest E).
    rewrite <- (earlier_siblings_count_by (queryMatches x) x f rest).
    simpl. rewrite Nat.sub_0_r.
    rewrite nth_error_app2 by lia. now rewrite Nat.sub_diag.
Qed.

Lemma local_step_shape (name : string) (index : nat) :
  pathStep ("*[local-name()='" ++ name ++ "']") index
  = "*[local-name()=" ++ String quote (name ++ String quote ("][" ++ Str.ofNat index ++ "]")).
Proof.
  unfold pathStep. rewrite !append_assoc. reflexivity.
Qed.

Lemma NameOk_without (c : ascii) (name : string) :
  Chars.isNameChar c = false -> NameOk name -> Str.includes c name = false.
Proof. intros Hc [_ Hall]. now apply (includes_all Chars.isNameChar). Qed.

Lemma NameOk_notQuote (name : string) :
  NameOk name -> name <> EmptyString /\ Str.all Chars.notQuote name = true.
Proof.
  intros [Hne Hall]. split; [exact Hne |].
  apply (all_impl Chars.isNameChar); [| exact Hall].
  intros c Hc. unfold Chars.notQuote.
  destruct (Ascii.eqb_spec c "'"%char) as [-> | _]; [discriminate Hc | reflexivity].
Qed.

Lemma digits_Lang (index : nat) :
  Regex.Lang (Regex.Plus Patterns.digit) (Str.ofNat index).
Proof.
  apply Lang_Plus_Class. split; [apply ofNat_not_empty | apply ofNat_digits].
Qed.

Lemma test_localStep (name : string) (index : nat) :
  NameOk name ->
  Regex.test PathEngine.localStep (pathStep ("*[local-name()='" ++ name ++ "']") index) = true.
Proof.
  intros Hname. apply NameOk_notQuote in Hname.
  rewrite local_step_shape. apply test_whole.
  change ("*[local-name()=" ++ String quote (name ++ String quote ("][" ++ Str.ofNat index ++ "]")))
    with ("*[local-name()='" ++ (name ++ ("'][" ++ (Str.ofNat index ++ "]")))).
  cbn [PathEngine.localStep Regex.body].
  constructor; [now apply (Lang_Lit "*[local-name()='") |].
  constructor; [now apply Lang_Plus_Class |].
  constructor; [now apply (Lang_Lit "'][") |].
  constructor; [apply digits_Lang | now apply (Lang_Lit "]")].
Qed.

Lemma test_tagStep (tag : string) (index : nat) :
  NameOk tag -> Regex.test PathEngine.tagStep (pathStep tag index) = true.
Proof.
  intros [Hne Hall]. apply test_whole.
  rewrite pathStep_shape. cbn [PathEngine.tagStep Regex.body].
  constructor; [now apply Lang_Plus_Class |].
  change (String "["%char (Str.ofNat index ++ "]"))
    with ("[" ++ (Str.ofNat index ++ "]")).
  constructor; [now apply (Lang_Lit "[") |].
  constructor; [apply digits_Lang | now apply (Lang_Lit "]")].
Qed.

Lemma test_localStep_plain (tag : string) (index : nat) :
  NameOk tag -> Regex.test PathEngine.localStep (pathStep tag index) = false.
Proof.
  intros [Hne Hall].
  destruct (Regex.test PathEngine.localStep (pathStep tag index)) eqn:E; [| reflexivity].
  exfalso. apply test_spec in E as (pre & mid & post & Es & H & Hpre & _).
  rewrite (Hpre eq_refl) in Es. simpl in Es.
  cbn [PathEngine.localStep Regex.body] in H.
  apply Lang_Seq_inv in H as (lit & more & -> & Hlit & _).
  apply (Lang_Lit "*[local-name()='") in Hlit as ->.
  destruct tag as [| c tag]; [congruence |].
  simpl in Es. injection Es as -> _. discriminate Hall.
Qed.

Lemma step_plain (current : PathEngine.Cursor) (tag : string) (index : nat) :
  NameOk tag -> 1 <= index ->
  PathEngine.step current (pathStep tag index)
  = nth_error
      (List.filter (fun c => Str.toLowerCase (tagName c) =? Str.toLowerCase tag)
                   (PathEngine.kidsOf current))
      (index - 1).
Proof.
  intros Hname Hindex. unfold PathEngine.step.
  rewrite test_localStep_plain, test_tagStep by trivial.
  unfold captureNameAndIndex. rewrite pathStep_shape.
  rewrite breakAt_append by (apply NameOk_without; trivial).
  rewrite dropLast_append, toNat_ofNat.
  unfold PathEngine.nthChildByTagName, PathEngine.nthChildBy.
  destruct (Nat.ltb_spec index 1); [lia | reflexivity].
Qed.

Lemma step_local (current : PathEngine.Cursor) (name : string) (index : nat) :
  NameOk name -> 1 <= index ->
  PathEngine.step current (pathStep ("*[local-name()='" ++ name ++ "']") index)
  = nth_error
      (List.filter (fun c => Str.toLowerCase (localName c) =? Str.toLowerCase name)
                   (PathEngine.kidsOf current))
      (index - 1).
Proof.
  intros Hname Hindex. unfold PathEngine.step.
  rewrite test_localStep by trivial.
  rewrite local_step_shape.
  rewrite (breakAt_append quote "*[local-name()=") by reflexivity.
  rewrite (breakAt_append quote name) by (apply NameOk_without; trivial).
  change ("][" ++ Str.ofNat index ++ "]")
    with ("]" ++ String "["%char (Str.ofNat index ++ "]")).
  rewrite (breakAt_append "["%char "]") by reflexivity.
  rewrite dropLast_append, toNat_ofNat.
  unfold PathEngine.nthChildByLocalName, PathEngine.nthChildBy.
  destruct (Nat.ltb_spec index 1); [lia | reflexivity].
Qed.

Lemma getElementIndex_positive (x : Element) : 1 <= getElementIndex x.
Proof. rewrite getElementIndex_spec. lia. Qed.

(** The engine reads the step of [x] as the query [queryMatches x]. *)
Lemma step_absolute (current : PathEngine.Cursor) (x : Element) :
  NameOk (tagName x) ->
  PathEngine.step current (absoluteStep x)
  = nth_error
      (List.filter (fun c => queryMatches x (self c)) (PathEngine.kidsOf current))
      (getElementIndex x - 1).
Proof.
  intros Hname. apply NameOk_lower in Hname.
  unfold absoluteStep, getNodeTest, queryMatches.
  destruct (isSvg x).
  - rewrite step_local by (trivial; apply getElementIndex_positive).
    now rewrite toLowerCase_idempotent.
  - rewrite step_plain by (trivial; apply getElementIndex_positive).
    now rewrite toLowerCase_idempotent.
Qed.

Lemma absoluteStep_supported (x : Element) :
  NameOk (tagName x) -> PathEngine.supported (absoluteStep x) = true.
Proof.
  intros Hname. apply NameOk_lower in Hname.
  unfold PathEngine.supported, absoluteStep, getNodeTest.
  destruct (isSvg x).
  - now rewrite test_localStep.
  - rewrite test_tagStep by trivial. apply orb_true_r.
Qed.

Lemma absoluteStep_without_slash (x : Element) :
  NameOk (tagName x) -> Str.includes slash (absoluteStep x) = false.
Proof.
  intros Hname. apply NameOk_lower in Hname.
  unfold absoluteStep, getNodeTest.
  destruct (isSvg x).
  - unfold pathStep. rewrite !includes_append.
    rewrite (NameOk_without slash _ eq_refl Hname).
    rewrite (includes_all Chars.isDigit slash _ eq_refl (ofNat_digits _)).
    reflexivity.
  - destruct Hname as [_ Hall]. apply pathStep_without; trivial; discriminate.
Qed.

Lemma trim_closed (a : ascii) (q q' : string) :
  Chars.isSpace a = false ->
  String a q = q' ++ String "]"%char EmptyString ->
  Str.trim (String a q) = String a q.
Proof.
  intros Ha E. unfold Str.trim. cbn [Str.trimStart]. rewrite Ha.
  rewrite E. now apply trimEnd_closed.
Qed.

Lemma absoluteStep_trim (x : Element) :
  NameOk (tagName x) -> Str.trim (absoluteStep x) = absoluteStep x.
Proof.
  intros Hname. apply NameOk_lower in Hname.
  destruct (pathStep_ends (getNodeTest x) (getElementIndex x)) as [q' Hq].
  unfold absoluteStep in *. unfold getNodeTest in *.
  destruct (isSvg x).
  - unfold pathStep in *. simpl in *. now apply (trim_closed _ _ q').
  - destruct Hname as [Hne Hall].
    destruct (Str.toLowerCase (tagName x)) as [| c t]; [congruence |].
    simpl in Hall. apply andb_true_iff in Hall as [Hc _].
    unfold pathStep in *. simpl in *.
    apply (trim_closed _ _ q'); [| exact Hq].
    now apply isNameChar_not_special.
Qed.

Lemma getAbsolutePath_trim (e : Element) :
  Str.trim (getAbsolutePath e) = getAbsolutePath e.
Proof.
  rewrite getAbsolutePath_spec.
  destruct (join_ends_with "]"%char "/" (List.map absoluteStep (scopePath e))) as [q Hq].
  - unfold scopePath. simpl. destruct (List.rev (parents e)); discriminate.
  - apply Forall_map, Forall_forall. intros a _. apply pathStep_ends.
  - rewrite Hq. apply (trim_closed _ _ (String "/"%char q)); reflexivity.
Qed.

Lemma documentFrom_root (ctx : list Frame) :
  forall n, shadowDepthOf ctx = 0 -> rootFrom n ctx = RootDocument (documentFrom n ctx).
Proof.
  induction ctx as [| [before d shadow after | before d mode hostKids after] rest IH];
    intros n H; simpl in *; auto. discriminate.
Qed.

Lemma getRootNode_document (e : Element) :
  shadowDepth e = 0 -> getRootNode e = RootDocument (ownerDocument e).
Proof. apply documentFrom_root. Qed.

Lemma walk_scope (doc : Document) (n : nat) :
  forall x steps,
    depth x = n ->
    getRootNode x = RootDocument doc ->
    Forall (fun a => NameOk (tagName a) /\ PathAgrees a) (scopePath x) ->
    PathEngine.walk (List.map absoluteStep (scopePath x) ++ steps)%list
                    (PathEngine.AtDocument doc)
    = PathEngine.walk steps (PathEngine.AtElement x).
Proof.
  induction n as [| n IH]; intros x steps Hn Hroot Hok;
    rewrite getRootNode_step in Hroot; rewrite scopePath_step in Hok |- *;
    destruct (parentNode x) as [doc' | p | host] eqn:Ep; try discriminate.
  - injection Hroot as <-. inversion Hok as [| ? ? [Hname Hagree] _]; subst.
    change (List.map absoluteStep [x] ++ steps)%list with (absoluteStep x :: steps).
    cbn [PathEngine.walk]. rewrite step_absolute by trivial.
    assert (Ex : context x = [] /\ doc' = toNode x).
    { unfold parentNode in Ep. destruct (context x) as [| [] ?]; try discriminate.
      injection Ep as <-. auto. }
    destruct Ex as [Ec ->].
    assert (Hk : PathEngine.kidsOf (PathEngine.AtDocument (toNode x)) = [x]).
    { unfold PathEngine.kidsOf, documentElement, toNode.
      rewrite <- Ec. now rewrite element_eta. }
    rewrite Hk, (nth_child_by_query x [x]); auto.
  - apply parentNode_depth in Ep. lia.
  - injection Hroot as <-. inversion Hok as [| ? ? [Hname Hagree] _]; subst.
    change (List.map absoluteStep [x] ++ steps)%list with (absoluteStep x :: steps).
    cbn [PathEngine.walk]. rewrite step_absolute by trivial.
    assert (Ex : context x = [] /\ doc' = toNode x).
    { unfold parentNode in Ep. destruct (context x) as [| [] ?]; try discriminate.
      injection Ep as <-. auto. }
    destruct Ex as [Ec ->].
    assert (Hk : PathEngine.kidsOf (PathEngine.AtDocument (toNode x)) = [x]).
    { unfold PathEngine.kidsOf, documentElement, toNode.
      rewrite <- Ec. now rewrite element_eta. }
    rewrite Hk, (nth_child_by_query x [x]); auto.
  - pose proof (parentNode_depth x p Ep) as Hd.
    apply Forall_app in Hok as [Hp Hx]. inversion Hx as [| ? ? [Hname Hagree] _]; subst.
    rewrite map_app, <- app_assoc.
    change (List.map absoluteStep [x] ++ steps)%list with (absoluteStep x :: steps).
    rewrite IH by (trivial; lia).
    cbn [PathEngine.walk]. rewrite step_absolute by trivial.
    rewrite (nth_child_by_query x (PathEngine.kidsOf (PathEngine.AtElement p))); trivial.
    right. unfold parentNode in Ep.
    destruct (context x) as [| f rest] eqn:Ec; [discriminate |].
    exists f, rest. split; [reflexivity |].
    unfold PathEngine.kidsOf, parentNode. rewrite Ec.
    destruct f; [injection Ep as <-; reflexivity | discriminate].
Qed.

Lemma map_trim_steps (xs : list Element) :
  Forall (fun a => NameOk (tagName a)) xs ->
  List.map Str.trim (List.map absoluteStep xs) = List.map absoluteStep xs.
Proof.
  induction 1 as [| x xs Hx _ IH]; simpl; [reflexivity |].
  now rewrite absoluteStep_trim, IH.
Qed.

Lemma scopePath_not_nil (e : Element) : scopePath e <> [].
Proof. unfold scopePath. simpl. destruct (List.rev (parents e)); discriminate. Qed.

(** On a document whose names the engine reads and whose steps agree with
    their indices, the path engine finds exactly [e] at the absolute path of
    [e]. *)
Lemma pathEngine_finds_absolute_path (e : Element) :
  shadowDepth e = 0 ->
  Forall (fun a => NameOk (tagName a) /\ PathAgrees a) (scopePath e) ->
  PathEngine.evaluate (getAbsolutePath e) (DocumentContext (ownerDocument e))
  = Some [ResultElement e].
Proof.
  intros Hdoc Hok.
  assert (Hnames : Forall (fun a => NameOk (tagName a)) (scopePath e)).
  { eapply Forall_impl; [| exact Hok]. now intros a [Ha _]. }
  unfold PathEngine.evaluate. rewrite getAbsolutePath_trim.
  assert (Hsplit : Str.split slash (getAbsolutePath e)
                   = EmptyString :: List.map absoluteStep (scopePath e)).
  { rewrite getAbsolutePath_spec.
    pose proof (scopePath_not_nil e) as Hne.
    destruct (List.map absoluteStep (scopePath e)) as [| s ss] eqn:Es.
    { destruct (scopePath e); [congruence | discriminate]. }
    change ("/" ++ Str.join "/" (s :: ss))
      with (EmptyString ++ String slash (Str.join (String slash EmptyString) (s :: ss))).
    rewrite split_append by reflexivity. f_equal.
    apply split_join. rewrite <- Es. apply Forall_map.
    eapply Forall_impl; [| exact Hnames]. intros a Ha.
    now apply absoluteStep_without_slash. }
  rewrite Hsplit. cbn [List.map]. rewrite map_trim_steps by trivial.
  change (Str.trim EmptyString) with EmptyString.
  change (Str.filterBoolean (EmptyString :: ?l)) with (Str.filterBoolean l).
  rewrite filterBoolean_id
    by (apply Forall_map, Forall_forall; intros a _; apply pathStep_not_empty).
  change (Str.startsWith slash (getAbsolutePath e)) with true. cbn [andb].
  assert (Hsup : forallb PathEngine.supported (List.map absoluteStep (scopePath e)) = true).
  { apply forallb_forall. intros s Hs. apply in_map_iff in Hs as (a & <- & Ha).
    rewrite Forall_forall in Hnames. now apply absoluteStep_supported, Hnames. }
  rewrite Hsup.
  rewrite <- (app_nil_r (List.map absoluteStep (scopePath e))).
  rewrite (walk_scope (ownerDocument e) (depth e) e [] eq_refl
             (getRootNode_document e Hdoc) Hok).
  reflexivity.
Qed.

(** The absolute path need not evaluate to exactly the element.  An engine
    may not support it (here, one that fails on [local-name()]; the code then
    does not offer the path as a candidate, and still falls back on it); and
    two SVG siblings whose tag names differ only in letter case get one and
    the same path, which no engine can resolve to exactly the one and exactly
    the other. *)
Lemma absolute_path_not_always_unique :
  (engineWithoutLocalName (getAbsolutePath svgGroup) (DocumentContext (ownerDocument svgGroup)) = None
   /\ isUnique engineWithoutLocalName (getAbsolutePath svgGroup) (ownerDocument svgGroup) = false
   /\ generateXPathInDocument engineWithoutLocalName svgGroup = getAbsolutePath svgGroup)
  /\ (ownerDocument firstGradient = gradientPage
      /\ ownerDocument secondGradient = gradientPage
      /\ sameNode firstGradient secondGradient = false
      /\ getAbsolutePath firstGradient
         = "/html[1]/body[1]/*[local-name()='svg'][1]/*[local-name()='lineargradient'][1]"
      /\ getAbsolutePath secondGradient = getAbsolutePath firstGradient
      /\ forall evaluate : Engine,
           ~ (evaluate (getAbsolutePath firstGradient) (DocumentContext gradientPage)
              = Some [ResultElement firstGradient]
              /\ evaluate (getAbsolutePath secondGradient) (DocumentContext gradientPage)
                 = Some [ResultElement secondGradient])).
Proof.
  split.
  - repeat split; vm_compute; reflexivity.
  - split; [reflexivity |].
    split; [reflexivity |].
    split; [reflexivity |].
    split; [vm_compute; reflexivity |].
    split; [vm_compute; reflexivity |].
    intros evaluate [H1 H2].
    assert (E : getAbsolutePath secondGradient = getAbsolutePath firstGradient)
      by (vm_compute; reflexivity).
    rewrite E, H1 in H2. discriminate H2.
Qed.

(** What holds of the fallback whatever the engine: whenever no other
    candidate validates, [generateXPathInDocument] returns exactly the
    absolute path, so the call always returns a string; and the path is
    offered as a candidate (score 0) only when the engine finds it unique. *)
Lemma absolute_path_fallback (evaluate : Engine) (e : Element) :
  ((forall c,
       In c (dedupeAndValidate evaluate (collectAllCandidates evaluate e) (ownerDocument e)) ->
       xpath c = getAbsolutePath e) ->
   generateXPathInDocument evaluate e = getAbsolutePath e)
  /\ (exists s, generateXPath evaluate (ElementArgument e) = Returns s)
  /\ (forall c,
         In c (collectAllCandidates evaluate e) -> score c = 0%Z ->
         xpath c = getAbsolutePath e
         /\ isUnique evaluate (getAbsolutePath e) (ownerDocument e) = true).
Proof.
  split; [apply absolute_path_is_the_last_resort |].
  split; [apply generateXPath_returns | apply absolute_candidate_is_validated].
Qed.

(** C4.  The absolute path does not always evaluate to the element: the code
    breaks the claim on a page with one gradient,
    <html><body><svg><linearGradient/></svg></body></html>.
    The local name of the gradient is [linearGradient]; [getNodeTest] writes
    the name in lower case into the step, so that the last step of the
    absolute path asks for the local name [lineargradient].  XPath compares
    local names letter for letter: the path selects nothing, while the same
    path with the name as it is selects the gradient.  No other candidate
    validates either, and the generator returns the absolute path: a selector
    that selects nothing.  Also, of the two siblings [linearGradient] and
    [lineargradient] in one [svg], both get this very path
    ([getElementIndex] compares the tag names as they are, the step is
    written in lower case). *)
Theorem absolute_path_of_a_gradient_selects_nothing :
  localName loneGradient = "linearGradient"
  /\ tagName loneGradient = "linearGradient"
  /\ getNodeTest loneGradient = "*[local-name()='lineargradient']"
  /\ getAbsolutePath loneGradient
     = "/html[1]/body[1]/*[local-name()='svg'][1]/*[local-name()='lineargradient'][1]"
  /\ gradientEngine (getAbsolutePath loneGradient) (DocumentContext loneGradientPage)
     = Some []
  /\ gradientEngine
       "/html[1]/body[1]/*[local-name()='svg'][1]/*[local-name()='linearGradient'][1]"
       (DocumentContext loneGradientPage)
     = Some [ResultElement loneGradient]
  /\ isUnique gradientEngine (getAbsolutePath loneGradient) (ownerDocument loneGradient)
     = false
  /\ dedupeAndValidate gradientEngine (collectAllCandidates gradientEngine loneGradient)
       (ownerDocument loneGradient) = []
  /\ generateXPath gradientEngine (ElementArgument loneGradient)
     = Returns (getAbsolutePath loneGradient)
  /\ (sameNode firstGradient secondGradient = false
      /\ ownerDocument firstGradient = ownerDocument secondGradient
      /\ getAbsolutePath firstGradient = getAbsolutePath secondGradient).
Proof.
  repeat split; vm_compute; reflexivity.
Qed.
(** ** Class names, texts and string literals *)

Lemma test_anchored (p : Regex.pattern) (s : string) :
  Regex.fromStart p = true -> Regex.toEnd p = true ->
  Regex.test p s = true <-> Regex.Lang (Regex.body p) s.
Proof.
  intros Hs He. split; [| apply test_whole].
  rewrite test_spec. intros (pre & mid & post & -> & H & Hpre & Hpost).
  rewrite (Hpre Hs), (Hpost He). simpl. now rewrite append_nil_r.
Qed.

Lemma Lang_seq (r1 r2 : Regex.t) (s1 s2 s : string) :
  s = s1 ++ s2 -> Regex.Lang r1 s1 -> Regex.Lang r2 s2 -> Regex.Lang (Regex.Seq r1 r2) s.
Proof. intros ->. now constructor. Qed.

Lemma test_cssInJs (c : string) :
  Regex.test Patterns.cssInJs c = true <-> CssInJsName c.
Proof.
  rewrite test_anchored by reflexivity. unfold CssInJsName. simpl. split.
  - intros H. apply Lang_Seq_inv in H as (p & r & -> & Hp & H).
    apply Lang_Seq_inv in H as (d & t & -> & Hd & Ht).
    apply (Lang_Lit "-") in Hd as ->. apply Lang_token in Ht.
    exists t. split; [| trivial].
    apply Lang_Alt_inv in Hp as [Hp | Hp];
      [apply (Lang_Lit "css") in Hp as -> | apply (Lang_Lit "sc") in Hp as ->]; auto.
  - intros (t & [-> | ->] & Ht); apply Lang_token in Ht.
    + apply (Lang_seq _ _ "css" ("-" ++ t)); [reflexivity | |].
      * apply Regex.LangAltL. now apply (Lang_Lit "css").
      * apply (Lang_seq _ _ "-" t); [reflexivity | now apply (Lang_Lit "-") | trivial].
    + apply (Lang_seq _ _ "sc" ("-" ++ t)); [reflexivity | |].
      * apply Regex.LangAltR. now apply (Lang_Lit "sc").
      * apply (Lang_seq _ _ "-" t); [reflexivity | now apply (Lang_Lit "-") | trivial].
Qed.

Lemma test_minified (c : string) :
  Regex.test Patterns.minified c = true <-> MinifiedName c.
Proof.
  rewrite test_anchored by reflexivity. apply Lang_AtLeast_Class.
Qed.

Lemma test_anyDigit (c : string) :
  Regex.test Patterns.anyDigit c = true <-> Contains Chars.isDigit c.
Proof.
  rewrite test_spec. unfold Contains. simpl. split.
  - intros (pre & mid & post & -> & H & _ & _).
    apply Lang_Class_inv in H as (d & -> & Hd). exists pre, d, post. auto.
  - intros (pre & d & post & -> & Hd).
    exists pre, (String d EmptyString), post.
    repeat split; try discriminate. now constructor.
Qed.

(** X1.  [isStableClass] accepts a class name if and only if it holds no colon and
    no square bracket, is not [css-] or [sc-] followed by an alphanumeric
    token, is not a run of 10 or more letters and digits, and holds no
    digit. *)
Theorem isStableClass_characterization (c : string) :
  isStableClass c = true
  <-> Str.includes ":"%char c = false /\ Str.includes "["%char c = false
      /\ ~ CssInJsName c /\ ~ MinifiedName c /\ ~ Contains Chars.isDigit c.
Proof.
  unfold isStableClass.
  rewrite <- test_cssInJs, <- test_minified, <- test_anyDigit.
  destruct (Str.includes ":"%char c); [simpl; intuition discriminate |].
  destruct (Str.includes "["%char c); [simpl; intuition discriminate |].
  simpl.
  destruct (Regex.test Patterns.cssInJs c); [intuition discriminate |].
  destruct (Regex.test Patterns.minified c); [intuition discriminate |].
  destruct (Regex.test Patterns.anyDigit c); intuition discriminate.
Qed.

Lemma Lang_capitalized (w : string) :
  Regex.Lang Patterns.capitalized w <-> Capitalized w.
Proof.
  unfold Patterns.capitalized, Capitalized. split.
  - intros H. apply Lang_Seq_inv in H as (u & rest & -> & Hu & Hrest).
    apply Lang_Class_inv in Hu as (c & -> & Hc).
    apply Lang_Plus_Class in Hrest as [Hne Hall].
    exists c, rest. auto.
  - intros (c & rest & -> & Hc & Hne & Hall).
    apply (Lang_seq _ _ (String c EmptyString) rest);
      [reflexivity | now constructor | now apply Lang_Plus_Class].
Qed.

Lemma test_personName (text : string) :
  Regex.test Patterns.personName text = true <-> PersonName text.
Proof.
  rewrite test_anchored by reflexivity. unfold PersonName. simpl. split.
  - intros H. apply Lang_Alt_inv in H as [H | H].
    + left. apply Lang_Seq_inv in H as (a & r & -> & Ha & H).
      apply Lang_Seq_inv in H as (sp & b & -> & Hsp & Hb).
      apply (Lang_Lit " ") in Hsp as ->.
      apply Lang_capitalized in Ha, Hb. exists a, b. auto.
    + right. apply Lang_Seq_inv in H as (a & r & -> & Ha & H).
      apply Lang_Seq_inv in H as (sp & r' & -> & Hsp & H).
      apply Lang_Seq_inv in H as (b & r'' & -> & Hb & H).
      apply Lang_Seq_inv in H as (sp' & c & -> & Hsp' & Hc).
      apply (Lang_Lit " ") in Hsp as ->. apply (Lang_Lit " ") in Hsp' as ->.
      apply Lang_capitalized in Ha, Hb, Hc. exists a, b, c. auto.
  - intros [(a & b & -> & Ha & Hb) | (a & b & c & -> & Ha & Hb & Hc)].
    + apply Lang_capitalized in Ha, Hb. apply Regex.LangAltL.
      apply (Lang_seq _ _ a (" " ++ b)); [reflexivity | trivial |].
      apply (Lang_seq _ _ " " b); [reflexivity | now apply (Lang_Lit " ") | trivial].
    + apply Lang_capitalized in Ha, Hb, Hc. apply Regex.LangAltR.
      apply (Lang_seq _ _ a (" " ++ b ++ " " ++ c)); [reflexivity | trivial |].
      apply (Lang_seq _ _ " " (b ++ " " ++ c)); [reflexivity | now apply (Lang_Lit " ") |].
      apply (Lang_seq _ _ b (" " ++ c)); [reflexivity | trivial |].
      apply (Lang_seq _ _ " " c); [reflexivity | now apply (Lang_Lit " ") | trivial].
Qed.

Lemma test_lowercaseWord (text : string) :
  Regex.test Patterns.lowercaseWord text = true <-> LowercaseWord text.
Proof. rewrite test_anchored by reflexivity. apply Lang_Plus_Class. Qed.

Lemma test_lettersAndSpaces (text : string) :
  Regex.test Patterns.lettersAndSpaces text = true
  <-> text <> EmptyString /\ Str.all Chars.isLetterOrSpace text = true.
Proof. rewrite test_anchored by reflexivity. apply Lang_Plus_Class. Qed.

Lemma hasStableText_spec (e : Element) :
  hasStableText e = true
  <-> (2 <= String.length (anchorText e) <= 40)
      /\ Str.all Chars.isLetterOrSpace (anchorText e) = true
      /\ ~ PersonName (anchorText e) /\ ~ LowercaseWord (anchorText e).
Proof.
  unfold hasStableText, anchorText.
  rewrite <- test_personName, <- test_lowercaseWord.
  set (text := Str.trim (textContent e)).
  unfold MAX_STABLE_TEXT_LENGTH, MIN_STABLE_TEXT_LENGTH.
  destruct (Str.isEmpty text) eqn:Hempty.
  - apply isEmpty_true in Hempty. rewrite Hempty. simpl.
    split; [discriminate | intros [[H _] _]; lia].
  - apply isEmpty_false in Hempty.
    destruct (Nat.ltb 40 (String.length text)) eqn:Hmax;
      [apply Nat.ltb_lt in Hmax | apply Nat.ltb_ge in Hmax]; simpl.
    { split; [discriminate | intros [[_ H] _]; lia]. }
    destruct (Nat.ltb (String.length text) 2) eqn:Hmin;
      [apply Nat.ltb_lt in Hmin | apply Nat.ltb_ge in Hmin].
    { split; [discriminate | intros [[H _] _]; lia]. }
    destruct (Regex.test Patterns.personName text); [intuition discriminate |].
    destruct (Regex.test Patterns.lowercaseWord text); [intuition discriminate |].
    destruct (Regex.test Patterns.lettersAndSpaces text) eqn:Hls; simpl.
    + apply test_lettersAndSpaces in Hls as [_ Hall]. intuition discriminate.
    + split; [discriminate |]. intros (_ & Hall & _).
      assert (Regex.test Patterns.lettersAndSpaces text = true)
        by (apply test_lettersAndSpaces; auto).
      congruence.
Qed.

(** X2.  [hasStableText] accepts an element if and only if its trimmed text has 2
    to 40 characters, all of them letters or spaces, is not two or three
    capitalized words (a person's name) and is not one word of small
    letters. *)
Theorem hasStableText_characterization (e : Element) :
  hasStableText e = true
  <-> (MIN_STABLE_TEXT_LENGTH <= String.length (anchorText e) <= MAX_STABLE_TEXT_LENGTH)
      /\ Str.all Chars.isLetterOrSpace (anchorText e) = true
      /\ ~ PersonName (anchorText e) /\ ~ LowercaseWord (anchorText e).
Proof. apply hasStableText_spec. Qed.

Lemma letters_without_quote (s : string) :
  Str.all Chars.isLetterOrSpace s = true -> Str.includes quote s = false.
Proof.
  apply includes_all. reflexivity.
Qed.

(** X3.  A text that [hasStableText] accepts holds no quote: [escapeXPathString]
    gives it back unchanged, so that the text selectors of the generator
    carry the text itself between their quotes. *)
Theorem stable_text_needs_no_escaping (evaluate : Engine) (e : Element) :
  hasStableText e = true ->
  Str.includes quote (anchorText e) = false
  /\ escapeXPathString (anchorText e) = anchorText e
  /\ forall s doc, In s (textAnchor evaluate e doc) ->
       s = "//" ++ getNodeTest e ++ "[normalize-space(.)='" ++ anchorText e ++ "']".
Proof.
  intros H. pose proof H as Htext. apply hasStableText_spec in Htext as (_ & Hall & _).
  apply letters_without_quote in Hall.
  assert (Hesc : escapeXPathString (anchorText e) = anchorText e).
  { unfold escapeXPathString. now rewrite Hall. }
  repeat split; trivial.
  intros s doc. unfold textAnchor. rewrite H.
  fold (anchorText e). rewrite Hesc.
  destruct (isUnique evaluate _ doc); simpl; [| tauto].
  intros [<- | []]. reflexivity.
Qed.

Lemma stable_text_needs_no_escaping_witness :
  escapeXPathString (anchorText cartButton) = "Add to cart".
Proof.
  destruct (stable_text_needs_no_escaping failingEngine cartButton) as (_ & H & _).
  - reflexivity.
  - rewrite H. reflexivity.
Defined.

Lemma split_pieces (sep : ascii) (s : string) :
  Forall (fun piece => Str.includes sep piece = false) (Str.split sep s).
Proof.
  induction s as [| c s IH]; simpl.
  - constructor; [reflexivity | constructor].
  - destruct (Ascii.eqb c sep) eqn:Hc.
    + constructor; [reflexivity | exact IH].
    + destruct (Str.split sep s) as [| piece pieces]; simpl.
      * constructor; [simpl; now rewrite Hc | constructor].
      * inversion IH as [| ? ? Hp Hps]; subst.
        constructor; [simpl; now rewrite Hc | exact Hps].
Qed.

Lemma join_split (sep : ascii) (s : string) :
  Str.join (String sep EmptyString) (Str.split sep s) = s.
Proof.
  induction s as [| c s IH]; simpl; [reflexivity |].
  destruct (Ascii.eqb c sep) eqn:Hc.
  - apply Ascii.eqb_eq in Hc as ->.
    pose proof (split_not_nil sep s) as Hne.
    destruct (Str.split sep s) as [| piece pieces]; [congruence |].
    unfold Str.join in *. cbn [String.concat]. cbn [String.concat] in IH.
    simpl. f_equal. exact IH.
  - pose proof (split_not_nil sep s) as Hne.
    destruct (Str.split sep s) as [| piece pieces]; [congruence |].
    unfold Str.join in *. cbn [String.concat] in *.
    destruct pieces; simpl in *; now rewrite IH.
Qed.

Lemma split_length (sep : ascii) (s : string) :
  Str.includes sep s = true -> 2 <= List.length (Str.split sep s).
Proof.
  induction s as [| c s IH]; simpl; [discriminate |].
  destruct (Ascii.eqb c sep) eqn:Hc; simpl.
  - intros _. pose proof (split_not_nil sep s).
    destruct (Str.split sep s); [congruence | simpl; lia].
  - intros H. specialize (IH H).
    destruct (Str.split sep s); simpl in *; lia.
Qed.

(** X4.  [escapeXPathString] gives a string without a quote back unchanged.  A
    string with a quote becomes a [concat(...)] of two or more quoted pieces
    with a quoted quote between each two: no piece holds a quote, and the
    pieces with a quote between each two are the string. *)
Theorem escapeXPathString_pieces (str : string) :
  (Str.includes quote str = false -> escapeXPathString str = str)
  /\ (Str.includes quote str = true ->
      exists pieces,
        escapeXPathString str
        = "concat("
            ++ Str.join (", " ++ doubleQuote ++ "'" ++ doubleQuote ++ ", ")
                 (List.map (fun piece => "'" ++ piece ++ "'") pieces)
            ++ ")"
        /\ 2 <= List.length pieces
        /\ Forall (fun piece => Str.includes quote piece = false) pieces
        /\ Str.join "'" pieces = str).
Proof.
  unfold escapeXPathString. split; intros H; rewrite H; simpl; [reflexivity |].
  exists (Str.split quote str). split; [reflexivity |].
  split; [now apply split_length |].
  split; [apply split_pieces | apply (join_split quote)].
Qed.

Lemma escapeXPathString_pieces_witness :
  escapeXPathString "Save" = "Save"
  /\ exists pieces,
       escapeXPathString "Don't" = "concat(" ++ Str.join (", " ++ doubleQuote ++ "'" ++ doubleQuote ++ ", ")
                 (List.map (fun piece => "'" ++ piece ++ "'") pieces) ++ ")"
       /\ Str.join "'" pieces = "Don't".
Proof.
  destruct (escapeXPathString_pieces "Save") as [H1 _].
  destruct (escapeXPathString_pieces "Don't") as [_ H2].
  split; [apply H1; reflexivity |].
  destruct (H2 eq_refl) as (pieces & E & _ & _ & J).
  exists pieces. split; assumption.
Defined.
(** ** Steps, validation and ranking *)

Lemma lower_slash (c : ascii) :
  (Chars.lower c =? slash)%char = (c =? slash)%char.
Proof. by_cases_on_char c. Qed.

Lemma toLowerCase_without_slash (s : string) :
  Str.includes slash (Str.toLowerCase s) = Str.includes slash s.
Proof.
  unfold Str.toLowerCase. induction s as [| c s IH]; simpl; [reflexivity |].
  now rewrite lower_slash, IH.
Qed.

Lemma absoluteStep_no_slash (x : Element) :
  Str.includes slash (tagName x) = false ->
  Str.includes slash (absoluteStep x) = false.
Proof.
  intros H. unfold absoluteStep, pathStep, getNodeTest.
  assert (Hd : Str.includes slash (Str.ofNat (getElementIndex x)) = false).
  { apply includes_all with (p := Chars.isDigit); [reflexivity | apply ofNat_digits]. }
  destruct (isSvg x); rewrite !includes_append, ?toLowerCase_without_slash, H, Hd;
    reflexivity.
Qed.

Lemma scopePath_length (e : Element) :
  List.length (scopePath e) = S (List.length (parents e)).
Proof. unfold scopePath. now rewrite length_rev. Qed.

(** X5.  The absolute path of an element has one step for the element and one for
    each of its parent elements, provided no tag name on the way holds a
    slash. *)
Theorem countXPathSteps_of_absolute_path (e : Element) :
  Forall (fun a => Str.includes slash (tagName a) = false) (scopePath e) ->
  countXPathSteps (getAbsolutePath e) = S (List.length (parents e)).
Proof.
  intros H. unfold countXPathSteps. rewrite getAbsolutePath_spec.
  rewrite split_absolute.
  - now rewrite length_map, scopePath_length.
  - intros E. apply map_eq_nil in E. now apply scopePath_not_nil in E.
  - apply Forall_map. eapply Forall_impl; [| exact H].
    intros a Ha. now apply absoluteStep_no_slash.
  - apply Forall_map. apply Forall_forall. intros a _. apply pathStep_not_empty.
Qed.

Lemma countXPathSteps_of_absolute_path_witness :
  countXPathSteps (getAbsolutePath secondSpan) = 4.
Proof.
  apply (countXPathSteps_of_absolute_path secondSpan).
  repeat constructor.
Defined.

(** *** The dedupe/validate pass *)

Lemma dedupeLoop_unseen (evaluate : Engine) (doc : Document) (candidates : list Candidate) :
  forall seen c,
    In c (dedupeLoop evaluate candidates doc seen) -> ~ In (xpath c) seen.
Proof.
  induction candidates as [| a rest IH]; simpl; intros seen c; [tauto |].
  destruct (Str.isEmpty (xpath a) || existsb (String.eqb (xpath a)) seen) eqn:Hskip;
    [apply IH |].
  destruct (isUnique evaluate (xpath a) doc); simpl; [| apply IH].
  apply orb_false_iff in Hskip as [_ Hseen].
  intros [<- | Hc].
  - intros Hin. assert (existsb (String.eqb (xpath a)) seen = true); [| congruence].
    apply existsb_exists. exists (xpath a). split; [trivial | apply String.eqb_refl].
  - intros Hin. apply (IH _ _ Hc). now right.
Qed.

Lemma dedupeLoop_NoDup (evaluate : Engine) (doc : Document) (candidates : list Candidate) :
  forall seen, NoDup (List.map xpath (dedupeLoop evaluate candidates doc seen)).
Proof.
  induction candidates as [| a rest IH]; simpl; intros seen; [constructor |].
  destruct (Str.isEmpty (xpath a) || existsb (String.eqb (xpath a)) seen); [apply IH |].
  destruct (isUnique evaluate (xpath a) doc); simpl; [| apply IH].
  constructor; [| apply IH].
  intros Hin. apply in_map_iff in Hin as (c & E & Hc).
  apply dedupeLoop_unseen in Hc. apply Hc. left. now symmetry.
Qed.

Lemma dedupeLoop_Subsequence (evaluate : Engine) (doc : Document)
                             (candidates : list Candidate) :
  forall seen, Subsequence (dedupeLoop evaluate candidates doc seen) candidates.
Proof.
  induction candidates as [| a rest IH]; simpl; intros seen; [constructor |].
  destruct (Str.isEmpty (xpath a) || existsb (String.eqb (xpath a)) seen);
    [constructor; apply IH |].
  destruct (isUnique evaluate (xpath a) doc); simpl; constructor; apply IH.
Qed.

Lemma dedupeLoop_first (evaluate : Engine) (doc : Document) (candidates : list Candidate) :
  forall seen c,
    In c (dedupeLoop evaluate candidates doc seen) ->
    exists pre post,
      candidates = (pre ++ c :: post)%list
      /\ Forall (fun c' => xpath c' <> xpath c) pre.
Proof.
  induction candidates as [| a rest IH]; simpl; intros seen c; [tauto |].
  intros Hc.
  assert (Hlater : forall seen',
             In c (dedupeLoop evaluate rest doc seen') -> xpath a <> xpath c ->
             exists pre post,
               a :: rest = (pre ++ c :: post)%list
               /\ Forall (fun c' => xpath c' <> xpath c) pre).
  { intros seen' Hin Hne. destruct (IH _ _ Hin) as (pre & post & -> & Hpre).
    exists (a :: pre), post. split; [reflexivity | now constructor]. }
  destruct (Str.isEmpty (xpath a)) eqn:Hempty; simpl in Hc.
  { apply (Hlater _ Hc). apply dedupeLoop_valid in Hc as (_ & Hne & _).
    apply isEmpty_true in Hempty. congruence. }
  destruct (existsb (String.eqb (xpath a)) seen) eqn:Hseen.
  { apply (Hlater _ Hc). intros E. apply (dedupeLoop_unseen _ _ _ _ _ Hc).
    apply existsb_exists in Hseen as (x & Hx & Ex).
    apply String.eqb_eq in Ex. congruence. }
  destruct (isUnique evaluate (xpath a) doc) eqn:Hu; simpl in Hc.
  - destruct Hc as [<- | Hc].
    + exists [], rest. split; [reflexivity | constructor].
    + apply (Hlater _ Hc). intros E. apply (dedupeLoop_unseen _ _ _ _ _ Hc).
      left. exact E.
  - apply (Hlater _ Hc). intros E. apply dedupeLoop_valid in Hc as (_ & _ & Hc).
    congruence.
Qed.

(** X6.  The dedupe/validate pass keeps no two candidates with one selector, keeps
    the candidates in their order, and keeps a selector where it comes first:
    with the score of its first strategy. *)
Theorem dedupeAndValidate_keeps_first_occurrences
    (evaluate : Engine) (candidates : list Candidate) (doc : Document) :
  NoDup (List.map xpath (dedupeAndValidate evaluate candidates doc))
  /\ Subsequence (dedupeAndValidate evaluate candidates doc) candidates
  /\ forall c, In c (dedupeAndValidate evaluate candidates doc) ->
       exists pre post,
         candidates = (pre ++ c :: post)%list
         /\ Forall (fun c' => xpath c' <> xpath c) pre.
Proof.
  unfold dedupeAndValidate. split; [apply dedupeLoop_NoDup |].
  split; [apply dedupeLoop_Subsequence | apply dedupeLoop_first].
Qed.

Lemma dedupeLoop_complete (evaluate : Engine) (doc : Document) (candidates : list Candidate) :
  forall seen c,
    In c candidates -> xpath c <> EmptyString ->
    isUnique evaluate (xpath c) doc = true ->
    In (xpath c) seen
    \/ In (xpath c) (List.map xpath (dedupeLoop evaluate candidates doc seen)).
Proof.
  induction candidates as [| a rest IH]; simpl; intros seen c; [tauto |].
  intros [<- | Hc] Hne Hu.
  - apply isEmpty_false in Hne. rewrite Hne, Hu. simpl.
    destruct (existsb (String.eqb (xpath a)) seen) eqn:Hseen; simpl; [| auto].
    left. apply existsb_exists in Hseen as (x & Hx & Ex).
    apply String.eqb_eq in Ex. congruence.
  - destruct (Str.isEmpty (xpath a) || existsb (String.eqb (xpath a)) seen);
      [now apply IH |].
    destruct (isUnique evaluate (xpath a) doc); simpl; [| now apply IH].
    destruct (IH (xpath a :: seen) c Hc Hne Hu) as [[E | H] | H]; auto.
Qed.

Lemma dedupeLoop_fixed (evaluate : Engine) (doc : Document) (l : list Candidate) :
  forall seen,
    NoDup (List.map xpath l) ->
    Forall (fun c => xpath c <> EmptyString /\ isUnique evaluate (xpath c) doc = true
                     /\ ~ In (xpath c) seen) l ->
    dedupeLoop evaluate l doc seen = l.
Proof.
  induction l as [| a rest IH]; simpl; intros seen Hnd Hall; [reflexivity |].
  inversion Hnd as [| ? ? Hnotin Hnd']; subst.
  inversion Hall as [| ? ? (Hne & Hu & Hseen) Hrest]; subst.
  apply isEmpty_false in Hne. rewrite Hne, Hu. simpl.
  destruct (existsb (String.eqb (xpath a)) seen) eqn:Hex.
  { apply existsb_exists in Hex as (x & Hx & Ex). apply String.eqb_eq in Ex.
    subst x. contradiction. }
  simpl. f_equal. apply IH; [exact Hnd' |].
  apply Forall_forall. intros c Hc.
  rewrite Forall_forall in Hrest. destruct (Hrest c Hc) as (H1 & H2 & H3).
  repeat split; trivial.
  intros [E | Hin]; [| contradiction].
  apply Hnotin. rewrite E. now apply in_map.
Qed.

(** X7.  The dedupe/validate pass loses no valid selector: every candidate whose
    selector is not empty and selects one node is represented by a kept
    candidate with that selector.  A second pass changes nothing. *)
Theorem dedupeAndValidate_complete_and_idempotent
    (evaluate : Engine) (candidates : list Candidate) (doc : Document) :
  (forall c, In c candidates -> xpath c <> EmptyString ->
             isUnique evaluate (xpath c) doc = true ->
             exists kept, In kept (dedupeAndValidate evaluate candidates doc)
                          /\ xpath kept = xpath c)
  /\ dedupeAndValidate evaluate (dedupeAndValidate evaluate candidates doc) doc
     = dedupeAndValidate evaluate candidates doc.
Proof.
  unfold dedupeAndValidate. split.
  - intros c Hc Hne Hu.
    destruct (dedupeLoop_complete evaluate doc candidates [] c Hc Hne Hu) as [[] | H].
    apply in_map_iff in H as (kept & E & Hk). eauto.
  - apply dedupeLoop_fixed; [apply dedupeLoop_NoDup |].
    apply Forall_forall. intros c Hc.
    apply dedupeLoop_valid in Hc as (_ & Hne & Hu). repeat split; trivial.
    intros [].
Qed.

Lemma dedupeAndValidate_complete_and_idempotent_witness :
  exists kept,
    In kept (dedupeAndValidate sampleEngine
               [{| xpath := "//span"; score := 90 |};
                {| xpath := "//div/span[2]"; score := 70 |};
                {| xpath := "//div/span[2]"; score := 60 |}]
               (Sample.page OpenMode))
    /\ xpath kept = "//div/span[2]".
Proof.
  destruct (dedupeAndValidate_complete_and_idempotent sampleEngine
              [{| xpath := "//span"; score := 90 |};
               {| xpath := "//div/span[2]"; score := 70 |};
               {| xpath := "//div/span[2]"; score := 60 |}]
              (Sample.page OpenMode)) as [H _].
  apply (H {| xpath := "//div/span[2]"; score := 60 |}).
  - simpl. auto.
  - discriminate.
  - reflexivity.
Defined.

(** *** The comparator *)

(** X8.  The comparator of the ranking is a consistent one: a candidate compares
    equal to itself, swapping the arguments swaps the sign, the order is
    transitive, and two candidates compare equal exactly when they agree on
    score, on the number of steps and on the length. *)
Theorem compareCandidates_is_consistent :
  (forall a, compareCandidates a a = 0%Z)
  /\ (forall a b, Z.sgn (compareCandidates a b) = (- Z.sgn (compareCandidates b a))%Z)
  /\ (forall a b c, (compareCandidates a b <= 0)%Z -> (compareCandidates b c <= 0)%Z ->
                    (compareCandidates a c <= 0)%Z)
  /\ (forall a b, compareCandidates a b = 0%Z
                  <-> score a = score b
                      /\ countXPathSteps (xpath a) = countXPathSteps (xpath b)
                      /\ String.length (xpath a) = String.length (xpath b)).
Proof.
  assert (Hcases : forall a b,
             ((score b < score a)%Z /\ (compareCandidates a b < 0)%Z)
             \/ ((score a < score b)%Z /\ (compareCandidates a b > 0)%Z)
             \/ (score a = score b
                 /\ ((countXPathSteps (xpath a) < countXPathSteps (xpath b)
                      /\ (compareCandidates a b < 0)%Z)
                     \/ (countXPathSteps (xpath b) < countXPathSteps (xpath a)
                         /\ (compareCandidates a b > 0)%Z)
                     \/ (countXPathSteps (xpath a) = countXPathSteps (xpath b)
                         /\ compareCandidates a b
                            = (Z.of_nat (String.length (xpath a))
                               - Z.of_nat (String.length (xpath b)))%Z)))).
  { intros a b. unfold compareCandidates.
    destruct (Z.eqb_spec (score a) (score b)) as [Es | Es]; simpl; [| lia].
    destruct (Z.eqb_spec (Z.of_nat (countXPathSteps (xpath a))
                          - Z.of_nat (countXPathSteps (xpath b))) 0) as [Ed | Ed];
      simpl; lia. }
  repeat split.
  - intros a. destruct (Hcases a a); lia.
  - intros a b. destruct (Hcases a b), (Hcases b a); lia.
  - intros a b c. destruct (Hcases a b), (Hcases b c), (Hcases a c); lia.
  - destruct (Hcases a b); lia.
  - destruct (Hcases a b); lia.
  - destruct (Hcases a b); lia.
  - intros (H1 & H2 & H3). destruct (Hcases a b); lia.
Qed.
(** ** The priority of the strategies *)

Lemma getUniqueTagNameSelector_Some (evaluate : Engine) (e : Element) (x : string) :
  getUniqueTagNameSelector evaluate e = Some x ->
  x = "//" ++ getNodeTest e
  /\ existsb (String.eqb (Str.toLowerCase (tagName e))) UNIQUE_TAG_WHITELIST = true
  /\ isUnique evaluate x (ownerDocument e) = true.
Proof.
  unfold getUniqueTagNameSelector.
  destruct (existsb _ UNIQUE_TAG_WHITELIST); simpl; [| discriminate].
  destruct (isUnique evaluate _ (ownerDocument e)) eqn:Hu; [| discriminate].
  intros [= <-]. auto.
Qed.

Lemma tag_selector_is_no_id_selector (evaluate : Engine) (e : Element) (x i : string) :
  getUniqueTagNameSelector evaluate e = Some x ->
  x <> "//*[@id='" ++ i ++ "']".
Proof.
  intros H E. apply getUniqueTagNameSelector_Some in H as (-> & Hw & _).
  simpl in E. injection E as E. revert E Hw. unfold getNodeTest.
  destruct (isSvg e); [simpl; discriminate |].
  generalize (Str.toLowerCase (tagName e)). intros tag -> H.
  vm_compute in H. discriminate.
Qed.

Lemma idXPath_not_empty (e : Element) : Str.isEmpty (idXPath e) = false.
Proof. reflexivity. Qed.

(** How the candidates are scored: 100 for the selector by identifier, 90
    for the selector by tag name, 80 or less for the others. *)
Lemma collectAllCandidates_scores (evaluate : Engine) (e : Element) (c : Candidate) :
  In c (collectAllCandidates evaluate e) ->
  (score c = 100%Z /\ xpath c = idXPath e
   /\ isStableId (id e) && isUniqueId (id e) (ownerDocument e) = true)
  \/ (score c = 90%Z /\ getUniqueTagNameSelector evaluate e = Some (xpath c))
  \/ (score c <= 80)%Z.
Proof.
  unfold collectAllCandidates. rewrite !in_app_iff.
  intros [H | [H | [H | [H | [H | [H | H]]]]]];
    try (apply scored_score in H; right; right; lia).
  - destruct (getUniqueTagNameSelector evaluate e); [| contradiction].
    destruct H as [<- | []]. right. left. auto.
  - left. unfold idSelector, scored in H.
    destruct (isStableId (id e) && isUniqueId (id e) (ownerDocument e));
      [| contradiction].
    destruct H as [<- | []]. auto.
  - destruct (isUnique evaluate (getAbsolutePath e) (ownerDocument e)); [| contradiction].
    destruct H as [<- | []]. right. right. simpl. lia.
Qed.

Lemma best_is_ranked_first (evaluate : Engine) (e : Element) (c : Candidate) :
  In c (dedupeAndValidate evaluate (collectAllCandidates evaluate e) (ownerDocument e)) ->
  exists best,
    In best (dedupeAndValidate evaluate (collectAllCandidates evaluate e) (ownerDocument e))
    /\ generateXPathInDocument evaluate e = xpath best
    /\ (score c <= score best)%Z.
Proof.
  intros Hc.
  destruct (generateXPathInDocument_ranked evaluate e) as (best & rest & Es & Ex).
  { intros E. rewrite E in Hc. contradiction. }
  pose proof (sortBy_headFirst
                (dedupeAndValidate evaluate (collectAllCandidates evaluate e)
                                   (ownerDocument e))) as Hhead.
  rewrite Es in Hhead. simpl in Hhead.
  assert (Hbest : In best (best :: rest)) by now left.
  assert (Hc' : In c (best :: rest)) by (rewrite <- Es; now apply sortBy_In).
  rewrite <- Es in Hbest. apply sortBy_In in Hbest.
  exists best. repeat split; trivial.
  specialize (Hhead c Hc'). apply compareCandidates_spec in Hhead. lia.
Qed.

(** X9.  The selector by identifier wins: when the [id] of the element is stable,
    is the [id] of no other element, and the engine finds the selector by
    identifier unique, that selector is the one returned, whatever the other
    strategies offer. *)
Theorem stable_id_wins (evaluate : Engine) (e : Element) :
  isStableId (id e) = true ->
  isUniqueId (id e) (ownerDocument e) = true ->
  isUnique evaluate (idXPath e) (ownerDocument e) = true ->
  generateXPathInDocument evaluate e = idXPath e.
Proof.
  intros Hstable Hid Hu.
  assert (Hin : In {| xpath := idXPath e; score := 100 |}
                   (dedupeAndValidate evaluate (collectAllCandidates evaluate e)
                                      (ownerDocument e))).
  { unfold dedupeAndValidate, collectAllCandidates, idSelector.
    rewrite Hstable, Hid. cbn [andb scored List.map]. fold (idXPath e).
    destruct (getUniqueTagNameSelector evaluate e) as [x |] eqn:Htag.
    - pose proof (tag_selector_is_no_id_selector _ _ _ (id e) Htag) as Hne.
      destruct (getUniqueTagNameSelector_Some _ _ _ Htag) as (Ex & _ & Hx).
      cbn [app dedupeLoop xpath existsb orb].
      replace (Str.isEmpty x) with false by (now rewrite Ex).
      rewrite Hx. cbn [negb]. right.
      cbn [dedupeLoop xpath existsb orb]. fold (idXPath e).
      rewrite idXPath_not_empty, Hu.
      replace (idXPath e =? x) with false; [now left |].
      symmetry. apply String.eqb_neq. intros E. apply Hne. now symmetry.
    - cbn [app dedupeLoop xpath existsb orb]. fold (idXPath e).
      rewrite idXPath_not_empty, Hu. now left. }
  destruct (best_is_ranked_first _ _ _ Hin) as (best & Hbest & -> & Hscore).
  simpl in Hscore.
  apply dedupeLoop_valid in Hbest as (Hbest & _).
  apply collectAllCandidates_scores in Hbest as [(_ & E & _) | [(Hs & _) | Hs]];
    [exact E | lia | lia].
Qed.

Lemma stable_id_wins_witness :
  generateXPathInDocument shopEngine shopTitle = "//*[@id='product-title']".
Proof.
  apply (stable_id_wins shopEngine shopTitle); reflexivity.
Defined.

(** X10.  Next comes the selector by tag name: when the tag is one of the
    structural tags of the white list and the engine finds the tag unique,
    [//tag] is returned, unless the selector by identifier is there to win. *)
Theorem unique_tag_wins_without_id (evaluate : Engine) (e : Element) (x : string) :
  getUniqueTagNameSelector evaluate e = Some x ->
  isStableId (id e) && isUniqueId (id e) (ownerDocument e)
    && isUnique evaluate (idXPath e) (ownerDocument e) = false ->
  generateXPathInDocument evaluate e = x
  /\ x = "//" ++ getNodeTest e.
Proof.
  intros Htag Hnoid.
  destruct (getUniqueTagNameSelector_Some _ _ _ Htag) as (Ex & _ & Hx).
  split; [| exact Ex].
  assert (Hin : In {| xpath := x; score := 90 |}
                   (dedupeAndValidate evaluate (collectAllCandidates evaluate e)
                                      (ownerDocument e))).
  { unfold dedupeAndValidate, collectAllCandidates. rewrite Htag.
    cbn [app dedupeLoop xpath existsb orb].
    replace (Str.isEmpty x) with false by (now rewrite Ex).
    rewrite Hx. now left. }
  destruct (best_is_ranked_first _ _ _ Hin) as (best & Hbest & -> & Hscore).
  simpl in Hscore.
  apply dedupeLoop_valid in Hbest as (Hbest & _ & Hu).
  apply collectAllCandidates_scores in Hbest as [(_ & E & Hid) | [(_ & E) | Hs]].
  - rewrite E in Hu. rewrite Hid, Hu in Hnoid. discriminate.
  - congruence.
  - lia.
Qed.

Lemma unique_tag_wins_without_id_witness :
  generateXPathInDocument shopEngine shopBody = "//body".
Proof.
  apply (unique_tag_wins_without_id shopEngine shopBody "//body"); reflexivity.
Defined.

(** *** Stable attributes *)

Lemma uniqueStableAttributeLoop_spec (evaluate : Engine) (e : Element) (names : list string) :
  match uniqueStableAttributeLoop evaluate e names with
  | Some (name, value) =>
      Qualifies evaluate e name value
      /\ exists pre post,
           names = (pre ++ name :: post)%list
           /\ Forall (fun a => forall v, ~ Qualifies evaluate e a v) pre
  | None => Forall (fun a => forall v, ~ Qualifies evaluate e a v) names
  end.
Proof.
  induction names as [| attr rest IH]; [simpl; constructor |].
  cbn [uniqueStableAttributeLoop].
  assert (Hskip : (forall v, ~ Qualifies evaluate e attr v) ->
                  match uniqueStableAttributeLoop evaluate e rest with
                  | Some (name, value) =>
                      Qualifies evaluate e name value
                      /\ exists pre post,
                           attr :: rest = (pre ++ name :: post)%list
                           /\ Forall (fun a => forall v, ~ Qualifies evaluate e a v) pre
                  | None => Forall (fun a => forall v, ~ Qualifies evaluate e a v)
                                   (attr :: rest)
                  end).
  { intros Hno. destruct (uniqueStableAttributeLoop evaluate e rest) as [[name value] |].
    - destruct IH as (Hq & pre & post & -> & Hpre). split; [exact Hq |].
      exists (attr :: pre), post. split; [reflexivity | now constructor].
    - now constructor. }
  destruct (getAttribute e attr) as [val |] eqn:Hattr.
  - destruct (Str.isEmpty val) eqn:Hempty; cbn [orb].
    { apply Hskip. intros v (Hv & Hs & _). rewrite Hattr in Hv. injection Hv as <-.
      apply isEmpty_true in Hempty. subst val. discriminate Hs. }
    destruct (isStableId val) eqn:Hstable; cbn [orb negb].
    + fold (attributeXPath e attr val).
      destruct (isUnique evaluate (attributeXPath e attr val) (ownerDocument e)) eqn:Hu.
      * cbn beta iota. split; [repeat split; trivial |].
        exists [], rest. split; [reflexivity | constructor].
      * apply Hskip. intros v (Hv & _ & Hu'). rewrite Hattr in Hv. injection Hv as <-.
        congruence.
    + apply Hskip. intros v (Hv & Hs & _). rewrite Hattr in Hv. injection Hv as <-.
      congruence.
  - apply Hskip. intros v (Hv & _). rewrite Hattr in Hv. discriminate.
Qed.

(** X11.  [getUniqueStableAttribute] returns the first attribute, in the order of
    [STABLE_ATTRIBUTES], that is present with a stable value and whose
    selector selects one node; it returns nothing exactly when no attribute
    of the list is such. *)
Theorem getUniqueStableAttribute_first_qualifying (evaluate : Engine) (e : Element) :
  (forall name value,
      getUniqueStableAttribute evaluate e = Some (name, value) ->
      Qualifies evaluate e name value
      /\ exists pre post,
           STABLE_ATTRIBUTES = (pre ++ name :: post)%list
           /\ Forall (fun a => forall v, ~ Qualifies evaluate e a v) pre)
  /\ (getUniqueStableAttribute evaluate e = None
      <-> forall name value, In name STABLE_ATTRIBUTES -> ~ Qualifies evaluate e name value).
Proof.
  unfold getUniqueStableAttribute.
  pose proof (uniqueStableAttributeLoop_spec evaluate e STABLE_ATTRIBUTES) as H.
  destruct (uniqueStableAttributeLoop evaluate e STABLE_ATTRIBUTES) as [[n v] |].
  - split.
    + intros name value [= <- <-]. exact H.
    + split; [discriminate |]. intros Hno. destruct H as (Hq & pre & post & E & _).
      exfalso. apply (Hno n v); [| exact Hq]. rewrite E. apply in_elt.
  - split; [discriminate |]. split; [| reflexivity].
    intros _ name value Hin. rewrite Forall_forall in H. now apply H.
Qed.

Lemma getUniqueStableAttribute_first_qualifying_witness :
  Qualifies shopEngine shopButton "name" "buy".
Proof.
  destruct (getUniqueStableAttribute_first_qualifying shopEngine shopButton) as [H _].
  apply (H "name" "buy"). reflexivity.
Defined.

(** *** Selectors by class *)

Lemma classSelector_sound (evaluate : Engine) (e : Element) (doc : Document)
                          (classes : list string) (s : string) :
  In s (classSelector evaluate e doc classes) ->
  s = classXPath e classes /\ isUnique evaluate s doc = true.
Proof.
  unfold classSelector. fold (classXPath e classes).
  destruct (isUnique evaluate (classXPath e classes) doc) eqn:Hu; [| contradiction].
  intros [<- | []]. auto.
Qed.

(** X12.  Every selector of [getClassSelectors] is built from stable classes of the
    element (all of them, or one) and selects one node; without a stable
    class there is none. *)
Theorem getClassSelectors_sound (evaluate : Engine) (e : Element) :
  (forall s, In s (getClassSelectors evaluate e) ->
     isUnique evaluate s (ownerDocument e) = true
     /\ exists classes,
          classes <> []
          /\ Forall (fun c => In c (classList e) /\ isStableClass c = true) classes
          /\ s = classXPath e classes)
  /\ (Forall (fun c => isStableClass c = false) (classList e) ->
      getClassSelectors evaluate e = []).
Proof.
  unfold getClassSelectors. split.
  - intros s.
    assert (Hvalid : Forall (fun c => In c (classList e) /\ isStableClass c = true)
                            (List.filter isStableClass (classList e))).
    { apply Forall_forall. intros c Hc. now apply filter_In in Hc. }
    destruct (List.filter isStableClass (classList e)) as [| c0 cs] eqn:Hf;
      [contradiction |].
    rewrite in_app_iff. intros [H | H].
    + apply classSelector_sound in H as (-> & Hu). split; [exact Hu |].
      exists (c0 :: cs). split; [discriminate | auto].
    + apply in_flat_map in H as (cls & Hcls & H).
      apply classSelector_sound in H as (-> & Hu). split; [exact Hu |].
      exists [cls]. split; [discriminate |]. split; [| reflexivity].
      constructor; [| constructor]. rewrite Forall_forall in Hvalid. now apply Hvalid.
  - intros Hnone.
    replace (List.filter isStableClass (classList e)) with (@nil string); [reflexivity |].
    symmetry. induction Hnone as [| c cs Hc _ IH]; simpl; [reflexivity |].
    now rewrite Hc.
Qed.

Lemma getClassSelectors_sound_witness :
  getClassSelectors shopEngine shopTitle
  = ["//h1[contains(@class, 'title')]"; "//h1[contains(@class, 'title')]"]
  /\ isUnique shopEngine "//h1[contains(@class, 'title')]" shopPage = true.
Proof.
  destruct (getClassSelectors_sound shopEngine shopTitle) as [H _].
  split; [reflexivity |].
  apply (H "//h1[contains(@class, 'title')]"). simpl. auto.
Defined.
(** ** Indices and paths *)

Lemma locate_nth (frame : list Node -> list Node -> Frame) (rest : list Frame)
                 (l : list Node) :
  forall acc i a,
    nth_error (locate frame rest acc l) i = Some a ->
    exists l1 l2,
      l = (l1 ++ toNode a :: l2)%list
      /\ context a = frame (List.rev l1 ++ acc)%list l2 :: rest
      /\ List.map self (List.firstn i (locate frame rest acc l)) = elementData l1.
Proof.
  induction l as [| [t | d shadow kids] l IH]; simpl; intros acc i a H.
  - destruct i; discriminate.
  - destruct (IH _ _ _ H) as (l1 & l2 & -> & Hctx & Hdata).
    exists (TextNode t :: l1), l2. simpl. rewrite <- app_assoc. auto.
  - destruct i as [| i]; simpl in H.
    + injection H as <-. exists [], l. simpl. auto.
    + destruct (IH _ _ _ H) as (l1 & l2 & -> & Hctx & Hdata).
      exists (ElementNode d shadow kids :: l1), l2. simpl. rewrite <- app_assoc.
      rewrite Hdata. auto.
Qed.

Lemma firstn_nth_error {A : Type} (l : list A) :
  forall i j a, nth_error l i = Some a -> i < j ->
                exists m, List.firstn j l = (List.firstn i l ++ a :: m)%list.
Proof.
  induction l as [| x l IH]; intros i j a H Hlt.
  - destruct i; discriminate.
  - destruct j as [| j]; [lia |]. destruct i as [| i]; simpl in *.
    + injection H as <-. eauto.
    + destruct (IH i j a H) as (m & ->); [lia |]. eauto.
Qed.

(** The index of a child: one more than the number of the children before it
    that have its tag name. *)
Lemma getElementIndex_children (p : Element) (i : nat) (a : Element) :
  nth_error (children p) i = Some a ->
  getElementIndex a
  = S (List.length (List.filter (fun c => tagName c =? tagName a)
                                (List.firstn i (children p)))).
Proof.
  intros H. unfold children in *.
  destruct (locate_nth _ _ _ _ _ _ H) as (l1 & l2 & _ & Hctx & Hdata).
  rewrite getElementIndex_spec. f_equal.
  unfold precedingSiblings. rewrite Hctx. rewrite app_nil_r.
  rewrite elementData_rev, filter_length_rev, <- Hdata.
  symmetry. apply (filter_map_self (fun d => tag_name d =? tagName a)).
Qed.

(** X13.  Among the children of an element, [getElementIndex] numbers those of one
    tag name in their order: the index is at least 1, at most the place of
    the child, and a later child of the same tag name has a greater index, so
    that no two children of one tag name get the same index. *)
Theorem getElementIndex_among_children (p : Element) :
  (forall i a, nth_error (children p) i = Some a -> 1 <= getElementIndex a <= S i)
  /\ (forall i j a b,
        nth_error (children p) i = Some a -> nth_error (children p) j = Some b ->
        i < j -> tagName a = tagName b ->
        getElementIndex a < getElementIndex b).
Proof.
  split.
  - intros i a H. rewrite (getElementIndex_children _ _ _ H).
    pose proof (filter_length_le (fun c => tagName c =? tagName a)
                                 (List.firstn i (children p))) as Hle.
    pose proof (firstn_le_length i (children p)). lia.
  - intros i j a b Ha Hb Hlt Htag.
    rewrite (getElementIndex_children _ _ _ Ha), (getElementIndex_children _ _ _ Hb).
    destruct (firstn_nth_error _ _ _ _ Ha Hlt) as (m & ->).
    rewrite filter_app, length_app. simpl.
    rewrite Htag, String.eqb_refl. simpl. lia.
Qed.

Lemma getElementIndex_among_children_witness :
  getElementIndex (sampleElement [inl 0; inl 0; inl 0])
  < getElementIndex (sampleElement [inl 0; inl 0; inl 1]).
Proof.
  destruct (getElementIndex_among_children (sampleElement [inl 0; inl 0])) as [_ H].
  apply (H 0 1); [reflexivity | reflexivity | lia | reflexivity].
Defined.

(** *** Anchors and ancestor paths *)

Lemma attributeSelector_sound (evaluate : Engine) (e : Element) (s : string) :
  In s (attributeSelector evaluate e) ->
  isUnique evaluate s (ownerDocument e) = true.
Proof.
  unfold attributeSelector, getUniqueStableAttribute.
  pose proof (uniqueStableAttributeLoop_spec evaluate e STABLE_ATTRIBUTES) as H.
  destruct (uniqueStableAttributeLoop evaluate e STABLE_ATTRIBUTES) as [[n v] |];
    [| contradiction].
  destruct H as ((_ & _ & Hu) & _). intros [<- | []]. exact Hu.
Qed.

Lemma textAnchor_sound (evaluate : Engine) (e : Element) (doc : Document) (s : string) :
  In s (textAnchor evaluate e doc) -> isUnique evaluate s doc = true.
Proof.
  unfold textAnchor. destruct (hasStableText e); [| contradiction].
  match goal with |- In _ (if ?b then _ else _) -> _ => destruct b eqn:Hu end;
    [| contradiction].
  intros [<- | []]. exact Hu.
Qed.

(** X14.  Every anchor is validated: the engine finds it unique, or (the anchor by
    identifier) the [id] is stable and is the [id] of one element. *)
Theorem anchors_are_validated (evaluate : Engine) (e : Element) (anchor : string) :
  In anchor (getAnchorXPaths evaluate e) ->
  isUnique evaluate anchor (ownerDocument e) = true
  \/ (anchor = idXPath e /\ isStableId (id e) = true
      /\ isUniqueId (id e) (ownerDocument e) = true).
Proof.
  unfold getAnchorXPaths. rewrite !in_app_iff.
  intros [H | [H | [H | [H | H]]]].
  - left. unfold tagSelector in H.
    destruct (isUnique evaluate _ (ownerDocument e)) eqn:Hu; [| contradiction].
    destruct H as [<- | []]. exact Hu.
  - right. unfold idSelector in H.
    destruct (isStableId (id e)) eqn:Hs; [| contradiction].
    destruct (isUniqueId (id e) (ownerDocument e)) eqn:Hi; [| contradiction].
    destruct H as [<- | []]. auto.
  - left. now apply attributeSelector_sound.
  - left. now apply textAnchor_sound in H.
  - left. destruct (List.filter isStableClass (classList e)); [contradiction |].
    now apply classSelector_sound in H.
Qed.

Lemma anchors_are_validated_witness :
  isUnique shopEngine "//button[@name='buy']" (ownerDocument shopButton) = true
  \/ ("//button[@name='buy']" = idXPath shopButton /\ isStableId (id shopButton) = true
      /\ isUniqueId (id shopButton) (ownerDocument shopButton) = true).
Proof.
  apply (anchors_are_validated shopEngine shopButton). simpl. auto.
Defined.

Lemma parents_of_parent (current parent : Element) :
  parentElement current = Some parent -> parents current = parent :: parents parent.
Proof.
  rewrite parentElement_parentNode, (parents_step current).
  destruct (parentNode current); try discriminate. now intros [= ->].
Qed.

Lemma parents_without_parent (current : Element) :
  parentElement current = None -> parents current = [].
Proof.
  rewrite parentElement_parentNode, (parents_step current).
  destruct (parentNode current); try discriminate; reflexivity.
Qed.

Lemma ancestorLoop_members (evaluate : Engine) (budget : nat) :
  forall current turns segments selectors s,
    In s (snd (ancestorLoop evaluate budget current turns segments selectors))
    <-> In s selectors
        \/ exists k p anchor,
             k < budget
             /\ nth_error (parents current) k = Some p
             /\ Forall (fun q => tagName q <> "BODY") (List.firstn k (parents current))
             /\ In anchor (getAnchorXPaths evaluate p)
             /\ s = anchor ++ "/"
                     ++ Str.join "/"
                          (List.map absoluteStep
                             (List.rev (List.firstn (S k) (current :: parents current)))
                           ++ segments)%list.
Proof.
  induction budget as [| budget IH]; intros current turns segments selectors s.
  - simpl. split; [auto |]. intros [H | (k & _ & _ & Hk & _)]; [exact H | lia].
  - cbn [ancestorLoop]. fold (absoluteStep current).
    destruct (parentElement current) as [parent |] eqn:Hparent.
    + rewrite (parents_of_parent _ _ Hparent).
      assert (Hfirst : forall anchor,
                 In anchor (getAnchorXPaths evaluate parent) ->
                 exists k p anchor',
                   k < S budget
                   /\ nth_error (parent :: parents parent) k = Some p
                   /\ Forall (fun q => tagName q <> "BODY")
                             (List.firstn k (parent :: parents parent))
                   /\ In anchor' (getAnchorXPaths evaluate p)
                   /\ anchor ++ "/" ++ Str.join "/" (absoluteStep current :: segments)
                      = anchor' ++ "/"
                          ++ Str.join "/"
                               (List.map absoluteStep
                                  (List.rev (List.firstn (S k)
                                               (current :: parent :: parents parent)))
                                ++ segments)%list).
      { intros anchor Ha. exists 0, parent, anchor.
        split; [lia |]. split; [reflexivity |]. split; [constructor |].
        split; [exact Ha | reflexivity]. }
      destruct (tagName parent =? "BODY") eqn:Hbody.
      * cbn [snd]. rewrite in_app_iff, in_map_iff. split.
        -- intros [H | (anchor & <- & Ha)]; [now left | right; now apply Hfirst].
        -- intros [H | (k & p & anchor & Hk & Hp & Hall & Ha & ->)]; [now left |].
           right. destruct k as [| k].
           ++ injection Hp as <-. exists anchor. split; [reflexivity | exact Ha].
           ++ simpl in Hall. inversion Hall as [| ? ? Hne _]; subst.
              apply String.eqb_eq in Hbody. contradiction.
      * rewrite IH, in_app_iff, in_map_iff. apply String.eqb_neq in Hbody. split.
        -- intros [[H | (anchor & <- & Ha)] | (k & p & anchor & Hk & Hp & Hall & Ha & ->)].
           ++ now left.
           ++ right. now apply Hfirst.
           ++ right. exists (S k), p, anchor.
              split; [lia |]. split; [exact Hp |].
              split; [simpl; now constructor |]. split; [exact Ha |].
              do 3 f_equal.
              change (List.firstn (S (S k)) (current :: parent :: parents parent))
                with (current :: List.firstn (S k) (parent :: parents parent)).
              cbn [List.rev]. rewrite map_app, <- app_assoc. reflexivity.
        -- intros [H | (k & p & anchor & Hk & Hp & Hall & Ha & ->)]; [now left; left |].
           destruct k as [| k].
           ++ injection Hp as <-. left. right. exists anchor. split; [reflexivity | exact Ha].
           ++ right. exists k, p, anchor.
              split; [lia |]. split; [exact Hp |].
              split; [simpl in Hall; now inversion Hall |]. split; [exact Ha |].
              do 3 f_equal.
              change (List.firstn (S (S k)) (current :: parent :: parents parent))
                with (current :: List.firstn (S k) (parent :: parents parent)).
              cbn [List.rev]. rewrite map_app, <- app_assoc. reflexivity.
    + rewrite (parents_without_parent _ Hparent). cbn [snd]. split; [auto |].
      intros [H | (k & p & _ & _ & Hp & _)]; [exact H |]. destruct k; discriminate.
Qed.

(** X15.  The selectors of [getAncestorPaths] are exactly these: an anchor of one
    of the first 50 parent elements, none beyond a [BODY], followed by the
    steps of the absolute path from that parent down to the element. *)
Theorem getAncestorPaths_characterization (evaluate : Engine) (e : Element) (s : string) :
  In s (getAncestorPaths evaluate e)
  <-> exists k p anchor,
        k < MAX_ANCESTOR_DEPTH
        /\ nth_error (parents e) k = Some p
        /\ Forall (fun q => tagName q <> "BODY") (List.firstn k (parents e))
        /\ In anchor (getAnchorXPaths evaluate p)
        /\ s = anchor ++ "/" ++ relativePath e (S k).
Proof.
  unfold getAncestorPaths, relativePath. rewrite ancestorLoop_members.
  split.
  - intros [[] | (k & p & anchor & H)]. exists k, p, anchor.
    now rewrite app_nil_r in H.
  - intros (k & p & anchor & H). right. exists k, p, anchor.
    now rewrite app_nil_r.
Qed.

Lemma getAncestorPaths_characterization_witness :
  In "//div/span[2]" (getAncestorPaths sampleEngine secondSpan).
Proof.
  apply (getAncestorPaths_characterization sampleEngine secondSpan).
  exists 0, (sampleElement [inl 0; inl 0]), "//div".
  split; [unfold MAX_ANCESTOR_DEPTH; lia |].
  split; [reflexivity |]. split; [constructor |].
  split; [simpl; auto | reflexivity].
Defined.

(** *** What the generator returns *)

(** X16.  Every selector the generator returns begins with a slash: it is never
    empty, and never blank. *)
Theorem generated_selector_is_rooted (evaluate : Engine) (e : Element) :
  exists s,
    generateXPath evaluate (ElementArgument e) = Returns s
    /\ Rooted s /\ Str.trim s <> EmptyString.
Proof.
  rewrite generateXPath_spec. eexists. split; [reflexivity |].
  assert (H : Rooted (generateXPathInDocument evaluate (outermostHost e)))
    by apply generateXPathInDocument_rooted.
  assert (H' : forall s, Rooted s -> Rooted s /\ Str.trim s <> EmptyString).
  { intros s Hs. split; [exact Hs |]. apply Rooted_trim in Hs.
    now apply isEmpty_false. }
  destruct (List.map expectedShadowPath (crossings e)); apply H';
    [exact H | now apply Rooted_append].
Qed.

(** *** Sibling anchors *)

Lemma countSameTagBetween_later (siblings : list Element) (tag : string) (lo hi : nat) :
  lo < hi ->
  countSameTagBetween siblings lo hi tag
  = sameTagStrictlyBetween siblings tag lo hi
    + (if sameTagAt siblings tag hi then 1 else 0).
Proof.
  intros Hlt. unfold countSameTagBetween, sameTagStrictlyBetween.
  rewrite Nat.min_l, Nat.max_r by lia.
  replace (hi - lo) with (hi - S lo + 1) by lia.
  rewrite seq_app, filter_app, length_app. f_equal.
  replace (S lo + (hi - S lo)) with hi by lia. simpl.
  now destruct (sameTagAt siblings tag hi).
Qed.

(** X17.  The index of a sibling selector counts the siblings with the tag of
    the element that lie after the earlier of the two places (the element,
    the anchor) up to and with the later one.  With the anchor before the
    element the element itself is counted; with the anchor after the element
    the anchor is counted when it has the tag, and the element is not. *)
Theorem sibling_index_counts_the_later_end
    (siblings : list Element) (e : Element) (elementIndex : nat) :
  nth_error siblings elementIndex = Some e ->
  let tagLower := Str.toLowerCase (tagName e) in
  (forall i, i < elementIndex ->
     countSameTagBetween siblings i elementIndex tagLower
     = S (sameTagStrictlyBetween siblings tagLower i elementIndex))
  /\ (forall i anchor, elementIndex < i -> nth_error siblings i = Some anchor ->
        countSameTagBetween siblings elementIndex i tagLower
        = sameTagStrictlyBetween siblings tagLower elementIndex i
          + (if Str.toLowerCase (tagName anchor) =? tagLower then 1 else 0)).
Proof.
  intros He. cbv zeta. split.
  - intros i Hi. rewrite countSameTagBetween_later by trivial.
    unfold sameTagAt. rewrite He, String.eqb_refl. lia.
  - intros i anchor Hi Ha. rewrite countSameTagBetween_later by trivial.
    unfold sameTagAt. now rewrite Ha.
Qed.

Lemma sibling_index_counts_the_later_end_witness :
  countSameTagBetween (children shopBody) 0 1 "button" = 1
  /\ countSameTagBetween (children shopBody) 0 1 "h1" = 0.
Proof.
  destruct (sibling_index_counts_the_later_end (children shopBody) shopButton 1 eq_refl)
    as [H1 _].
  destruct (sibling_index_counts_the_later_end (children shopBody) shopTitle 0 eq_refl)
    as [_ H2].
  split.
  - exact (H1 0 (Nat.lt_0_1)).
  - exact (H2 1 shopButton (Nat.lt_0_1) eq_refl).
Defined.
(** ** The resolver *)

Lemma Lang_segment (seg : string) :
  Regex.Lang (Regex.body Patterns.segment) seg
  <-> exists name digits, IndexedStep seg name digits.
Proof.
  unfold IndexedStep. cbn [Patterns.segment Regex.body]. split.
  - intros H. apply Lang_Seq_inv in H as (name & r & -> & Hname & H).
    apply Lang_Seq_inv in H as (l & r' & -> & Hl & H).
    apply Lang_Seq_inv in H as (digits & rb & -> & Hd & Hr).
    apply (Lang_Lit "[") in Hl as ->. apply (Lang_Lit "]") in Hr as ->.
    apply Lang_Plus_Class in Hd as [Hne Hall].
    exists name, digits. repeat split; trivial.
    apply Lang_Alt_inv in Hname as [Hname | Hname].
    + left. now apply Lang_Plus_Class in Hname.
    + right. now apply (Lang_Lit "*") in Hname.
  - intros (name & digits & -> & Hname & Hne & Hall).
    apply (Lang_seq _ _ name ("[" ++ digits ++ "]")); [reflexivity | |].
    + destruct Hname as [Hname | ->].
      * apply Regex.LangAltL. now apply Lang_Plus_Class.
      * apply Regex.LangAltR. now apply (Lang_Lit "*").
    + apply (Lang_seq _ _ "[" (digits ++ "]")); [reflexivity | now apply (Lang_Lit "[") |].
      apply (Lang_seq _ _ digits "]"); [reflexivity | | now apply (Lang_Lit "]")].
      now apply Lang_Plus_Class.
Qed.

Lemma name_without_bracket (name : string) :
  NameOk name \/ name = "*" -> Str.includes "["%char name = false.
Proof.
  intros [[_ H] | ->]; [| reflexivity].
  now apply (includes_all Chars.isNameChar).
Qed.

Lemma capture_of_step (seg name digits : string) :
  IndexedStep seg name digits -> captureNameAndIndex seg = (name, Str.toNat digits).
Proof.
  intros (-> & Hname & _ & _). unfold captureNameAndIndex.
  change (name ++ "[" ++ digits ++ "]") with (name ++ String "["%char (digits ++ "]")).
  rewrite breakAt_append by now apply name_without_bracket.
  now rewrite dropLast_append.
Qed.

(** X18.  [parseSegment] reads a step [NAME[DIGITS]] and nothing else: the name in
    lower case with the index, when the index is not zero.  (The index is
    read as a decimal number; with at most 15 digits it is a number that
    [Number] gives exactly.) *)
Theorem parseSegment_characterization (seg : string) :
  (parseSegment seg <> None -> exists name digits, IndexedStep seg name digits)
  /\ (forall name digits,
        IndexedStep seg name digits -> String.length digits <= 15 ->
        parseSegment seg
        = if Nat.eqb (Str.toNat digits) 0 then None
          else Some (Str.toLowerCase name, Str.toNat digits)).
Proof.
  unfold parseSegment. split.
  - destruct (Regex.test Patterns.segment seg) eqn:Ht; [| congruence].
    intros _. apply test_anchored in Ht; [| reflexivity | reflexivity].
    now apply Lang_segment.
  - intros name digits Hstep _.
    replace (Regex.test Patterns.segment seg) with true.
    + rewrite (capture_of_step _ _ _ Hstep).
      destruct (Str.toNat digits); reflexivity.
    + symmetry. apply test_whole. apply Lang_segment. eauto.
Qed.

Lemma parseSegment_characterization_witness :
  parseSegment "my-item[03]" = Some ("my-item", 3)
  /\ parseSegment "DIV[0]" = None.
Proof.
  destruct (parseSegment_characterization "my-item[03]") as [_ H1].
  destruct (parseSegment_characterization "DIV[0]") as [_ H2].
  split.
  - rewrite (H1 "my-item" "03"); [reflexivity | | simpl; lia].
    repeat split; try discriminate. left. split; [discriminate | reflexivity].
  - rewrite (H2 "DIV" "0"); [reflexivity | | simpl; lia].
    repeat split; try discriminate. left. split; [discriminate | reflexivity].
Defined.

(** *** The walk inside a shadow root *)

Lemma locate_In (frame : list Node -> list Node -> Frame) (rest : list Frame)
                (l acc : list Node) (c : Element) :
  In c (locate frame rest acc l) ->
  exists l1 l2,
    l = (l1 ++ toNode c :: l2)%list
    /\ context c = frame (List.rev l1 ++ acc)%list l2 :: rest.
Proof.
  intros H. apply In_nth_error in H as (i & H).
  destruct (locate_nth _ _ _ _ _ _ H) as (l1 & l2 & E & Hctx & _). eauto.
Qed.

Lemma children_parentNode (p c : Element) :
  In c (children p) -> parentNode c = ParentElement p.
Proof.
  unfold children. intros H.
  apply locate_In in H as (l1 & l2 & E & Hctx).
  unfold parentNode. rewrite Hctx. f_equal.
  rewrite rev_append_rev, app_nil_r, rev_involutive, <- E.
  apply element_eta.
Qed.

Lemma shadowRootChildren_parentNode (h c : Element) :
  In c (shadowRootChildren h) -> parentNode c = ParentShadowRoot h.
Proof.
  unfold shadowRootChildren.
  destruct (shadowTree h) as [[mode kids] |] eqn:Hs; [| contradiction].
  intros H. apply locate_In in H as (l1 & l2 & E & Hctx).
  unfold parentNode. rewrite Hctx. f_equal.
  rewrite rev_append_rev, app_nil_r, rev_involutive, <- E, <- Hs.
  apply element_eta.
Qed.

Lemma matches_In (tag : string) (kids : list Element) (i : nat) (found : Element) :
  nth_error (if tag =? "*" then kids
             else List.filter (fun c => Str.toLowerCase (localName c) =? tag) kids) i
  = Some found ->
  In found kids.
Proof.
  intros H. apply nth_error_In in H.
  destruct (tag =? "*"); [exact H | now apply filter_In in H].
Qed.

Lemma resolveLoop_inside (segments : list string) :
  forall p e,
    resolveLoop segments (ParentElement p) (Some p) = Some e ->
    getRootNode e = getRootNode p
    /\ List.length (parents e) = List.length (parents p) + List.length segments.
Proof.
  induction segments as [| seg rest IH]; intros p e; cbn [resolveLoop].
  - intros [= <-]. split; [reflexivity | simpl; lia].
  - destruct (parseSegment seg) as [[tag index] |]; [| discriminate].
    cbn [childrenOf].
    match goal with
    | |- match ?x with _ => _ end = _ -> _ => destruct x as [found |] eqn:Hfound
    end; [| discriminate].
    apply matches_In in Hfound. apply children_parentNode in Hfound.
    intros H. apply IH in H as (Hroot & Hlen).
    rewrite Hroot, Hlen, (getRootNode_step found), (parents_step found), Hfound.
    split; [reflexivity | simpl; lia].
Qed.

(** X19.  [resolveInShadowRoot] does not leave the shadow tree it is given: the
    element it finds lies in that shadow root (not in a shadow root nested
    in it), as many levels down as the path has steps; a path without a step
    finds nothing. *)
Theorem resolveInShadowRoot_stays_inside (root : Element) (path : string) (e : Element) :
  resolveInShadowRoot root path = Some e ->
  getRootNode e = RootShadowRoot root
  /\ List.length (scopePath e) = countXPathSteps path
  /\ 1 <= countXPathSteps path.
Proof.
  unfold resolveInShadowRoot, countXPathSteps.
  destruct (Str.filterBoolean (Str.split slash path)) as [| seg rest];
    cbn [resolveLoop]; [discriminate |].
  destruct (parseSegment seg) as [[tag index] |]; [| discriminate].
  cbn [childrenOf].
  match goal with
  | |- match ?x with _ => _ end = _ -> _ => destruct x as [found |] eqn:Hfound
  end; [| discriminate].
  apply matches_In in Hfound. apply shadowRootChildren_parentNode in Hfound.
  intros H. apply resolveLoop_inside in H as (Hroot & Hlen).
  rewrite scopePath_length, Hroot, Hlen.
  rewrite (getRootNode_step found), (parents_step found), Hfound.
  repeat split; simpl; lia.
Qed.

Lemma resolveInShadowRoot_stays_inside_witness :
  getRootNode shadowSpan = RootShadowRoot productHost
  /\ List.length (scopePath shadowSpan) = 3.
Proof.
  destruct (resolveInShadowRoot_stays_inside productHost "/section[1]/div[2]/span[1]"
              shadowSpan) as (H1 & H2 & _); [reflexivity |].
  split; [exact H1 | exact H2].
Defined.

(** *** Round trips without an engine *)

Lemma resolveInShadowRoot_expected (h x : Element) :
  getRootNode x = RootShadowRoot h ->
  Forall (fun a => NameOk (localName a)) (scopePath x) ->
  resolveInShadowRoot h (getShadowAbsolutePath h x) = Some x.
Proof.
  intros Hroot Hnames. unfold resolveInShadowRoot.
  rewrite getShadowAbsolutePath_spec, expectedShadowPath_steps by trivial.
  rewrite <- (app_nil_r (List.map shadowStep (scopePath x))).
  now rewrite (resolveLoop_scope h (depth x) x [] None eq_refl Hroot Hnames).
Qed.

(** X20.  The path of an element inside its shadow root leads back to it: for
    every element of a shadow tree, of any kind and under an open or a closed
    root, whose local names on the way are made of [[a-zA-Z0-9_-]],
    [resolveInShadowRoot] finds the element from the path that
    [getShadowAbsolutePath] gives, with no engine involved. *)
Theorem shadow_path_round_trip (h x : Element) :
  getRootNode x = RootShadowRoot h ->
  Forall (fun a => NameOk (localName a)) (scopePath x) ->
  resolveInShadowRoot h (getShadowAbsolutePath h x) = Some x.
Proof. apply resolveInShadowRoot_expected. Qed.

Lemma shadow_path_round_trip_witness :
  resolveInShadowRoot productHost (getShadowAbsolutePath productHost shadowSpan)
  = Some shadowSpan.
Proof.
  apply (shadow_path_round_trip productHost shadowSpan); [reflexivity |].
  repeat constructor; discriminate.
Defined.

(** X21.  Two elements of one shadow root never get the same shadow path. *)
Theorem shadow_paths_are_distinct (h x y : Element) :
  getRootNode x = RootShadowRoot h -> getRootNode y = RootShadowRoot h ->
  Forall (fun a => NameOk (localName a)) (scopePath x) ->
  Forall (fun a => NameOk (localName a)) (scopePath y) ->
  getShadowAbsolutePath h x = getShadowAbsolutePath h y ->
  x = y.
Proof.
  intros Hx Hy Nx Ny E.
  pose proof (resolveInShadowRoot_expected h x Hx Nx) as Rx.
  pose proof (resolveInShadowRoot_expected h y Hy Ny) as Ry.
  rewrite E in Rx. congruence.
Qed.

Lemma shadow_paths_are_distinct_witness :
  shadowSpan = sampleElement [inl 0; inl 1; inr 0; inl 1; inl 0].
Proof.
  apply (shadow_paths_are_distinct productHost); try reflexivity;
    repeat constructor; discriminate.
Defined.

(** X22.  Two elements of one document never get the same absolute path, provided
    that on the way to each of them the tag names are made of
    [[a-zA-Z0-9_-]] and no sibling before differs from the element by letter
    case only. *)
Theorem absolute_paths_are_distinct (x y : Element) :
  shadowDepth x = 0 -> shadowDepth y = 0 ->
  ownerDocument x = ownerDocument y ->
  Forall (fun a => NameOk (tagName a) /\ PathAgrees a) (scopePath x) ->
  Forall (fun a => NameOk (tagName a) /\ PathAgrees a) (scopePath y) ->
  getAbsolutePath x = getAbsolutePath y ->
  x = y.
Proof.
  intros Hx Hy Hdoc Ax Ay E.
  pose proof (pathEngine_finds_absolute_path x Hx Ax) as Rx.
  pose proof (pathEngine_finds_absolute_path y Hy Ay) as Ry.
  rewrite E, Hdoc in Rx. congruence.
Qed.

Lemma absolute_paths_are_distinct_witness :
  secondSpan = sampleElement [inl 0; inl 0; inl 1].
Proof.
  apply absolute_paths_are_distinct; try reflexivity;
    unfold scopePath; simpl; repeat constructor; try discriminate; try reflexivity.
Defined.

(** *** Selectors that resolve to nothing *)

(** X23.  The resolver gives nothing, and does not fail, for a selector whose
    first part is blank and for one whose first part the engine cannot
    evaluate; what it gives is an [HTMLElement]. *)
Theorem resolver_failure_modes (evaluate : Engine) (document : Document)
                               (selector : string) :
  (Str.trim (List.hd EmptyString (Str.split bar selector)) = EmptyString ->
   resolveElementFromStoredSelector evaluate document selector = None)
  /\ (evaluate (Str.trim (List.hd EmptyString (Str.split bar selector)))
               (DocumentContext document) = None ->
      resolveElementFromStoredSelector evaluate document selector = None)
  /\ (forall e, resolveElementFromStoredSelector evaluate document selector = Some e ->
                interface (self e) = HTMLElementInterface).
Proof.
  unfold resolveElementFromStoredSelector, evaluateFirstXPath, evaluateFirstXPathInContext.
  destruct (Str.split bar selector) as [| first rest]; cbn [List.hd].
  { repeat split; intros; try reflexivity; discriminate. }
  repeat split.
  - intros ->. reflexivity.
  - intros ->. now destruct (Str.isEmpty (Str.trim first)).
  - intros e. destruct (Str.isEmpty (Str.trim first)); [discriminate |].
    destruct (evaluate (Str.trim first) (DocumentContext document)) as [[| [host |] ?] |];
      try discriminate.
    destruct (resolveShadowParts evaluate rest host) as [current |]; [| discriminate].
    destruct (interface (self current)) eqn:Hi; try discriminate.
    now intros [= <-].
Qed.

Lemma resolver_failure_modes_witness :
  resolveElementFromStoredSelector PathEngine.evaluate (Sample.page OpenMode)
    "   |/section[1]" = None
  /\ resolveElementFromStoredSelector failingEngine (Sample.page OpenMode)
       "//div/span[2]" = None.
Proof.
  destruct (resolver_failure_modes PathEngine.evaluate (Sample.page OpenMode)
              "   |/section[1]") as (H1 & _ & _).
  destruct (resolver_failure_modes failingEngine (Sample.page OpenMode)
              "//div/span[2]") as (_ & H2 & _).
  split; [apply H1 | apply H2]; reflexivity.
Defined.
(** ** The resolver of the test suite *)

Lemma scanChildren_spec (tag : string) (index : nat) (kids : list Element) :
  forall seen,
    seen < index ->
    TestUtils.scanChildren tag index kids seen
    = nth_error
        (List.filter (fun c => Str.toLowerCase (localName c) =? Str.toLowerCase tag) kids)
        (index - S seen).
Proof.
  induction kids as [| child rest IH]; intros seen Hlt; cbn [TestUtils.scanChildren List.filter].
  - now destruct (index - S seen).
  - destruct (Str.toLowerCase (localName child) =? Str.toLowerCase tag).
    + destruct (Nat.eqb_spec (S seen) index) as [E | E].
      * replace (index - S seen) with 0 by lia. reflexivity.
      * rewrite IH by lia.
        replace (index - S seen) with (S (index - S (S seen))) by lia. reflexivity.
    + now apply IH.
Qed.

Lemma all_from_includes (p : ascii -> bool) (s : string) :
  (forall c, p c = false -> Str.includes c s = false) -> Str.all p s = true.
Proof.
  induction s as [| a s IH]; intros H; simpl; [reflexivity |].
  destruct (p a) eqn:Ha.
  - simpl. apply IH. intros c Hc. specialize (H c Hc). simpl in H.
    now apply orb_false_iff in H.
  - specialize (H a Ha). simpl in H. now rewrite Ascii.eqb_refl in H.
Qed.

Lemma includes_from_all (p : ascii -> bool) (s : string) (c : ascii) :
  Str.all p s = true -> p c = false -> Str.includes c s = false.
Proof. intros Hall Hc. now apply (includes_all p). Qed.

Lemma split_all (p : ascii -> bool) (sep : ascii) (s : string) :
  Str.all p s = true ->
  Forall (fun piece => Str.all p piece = true) (Str.split sep s).
Proof.
  induction s as [| c s IH]; simpl; intros H.
  - constructor; [reflexivity | constructor].
  - apply andb_true_iff in H as [Hc Hs]. specialize (IH Hs).
    destruct (Ascii.eqb c sep).
    + constructor; [reflexivity | exact IH].
    + destruct (Str.split sep s) as [| piece pieces].
      * constructor; [simpl; now rewrite Hc | constructor].
      * inversion IH as [| ? ? Hp Hps]; subst.
        constructor; [simpl; now rewrite Hc, Hp | exact Hps].
Qed.

Lemma trimEnd_plain (s : string) :
  Str.all (fun c => negb (Chars.isSpace c)) s = true -> Str.trimEnd s = s.
Proof.
  induction s as [| c s IH]; simpl; [reflexivity |].
  intros H. apply andb_true_iff in H as [Hc Hs]. rewrite (IH Hs).
  apply negb_true_iff in Hc. now rewrite Hc.
Qed.

Lemma trim_plain (s : string) :
  Str.all isPlain s = true -> Str.trim s = s.
Proof.
  intros H.
  assert (Hs : Str.all (fun c => negb (Chars.isSpace c)) s = true).
  { eapply all_impl; [| exact H]. unfold isPlain. intros c Hc.
    now apply andb_true_iff in Hc. }
  unfold Str.trim. destruct s as [| c s]; [reflexivity |].
  pose proof Hs as Hs'. simpl in Hs'. apply andb_true_iff in Hs' as [Hc _].
  apply negb_true_iff in Hc. cbn [Str.trimStart]. rewrite Hc.
  now apply trimEnd_plain.
Qed.

Lemma Lang_tagStep (seg : string) :
  Regex.Lang (Regex.body PathEngine.tagStep) seg
  <-> exists name digits, IndexedStep seg name digits /\ NameOk name.
Proof.
  unfold IndexedStep. cbn [PathEngine.tagStep Regex.body]. split.
  - intros H. apply Lang_Seq_inv in H as (name & r & -> & Hname & H).
    apply Lang_Seq_inv in H as (l & r' & -> & Hl & H).
    apply Lang_Seq_inv in H as (digits & rb & -> & Hd & Hr).
    apply (Lang_Lit "[") in Hl as ->. apply (Lang_Lit "]") in Hr as ->.
    apply Lang_Plus_Class in Hd as [Hne Hall]. apply Lang_Plus_Class in Hname.
    exists name, digits. repeat split; trivial; try apply Hname. now left.
  - intros (name & digits & (-> & _ & Hne & Hall) & Hname).
    apply (Lang_seq _ _ name ("[" ++ digits ++ "]")); [reflexivity | |].
    + now apply Lang_Plus_Class.
    + apply (Lang_seq _ _ "[" (digits ++ "]")); [reflexivity | now apply (Lang_Lit "[") |].
      apply (Lang_seq _ _ digits "]"); [reflexivity | | now apply (Lang_Lit "]")].
      now apply Lang_Plus_Class.
Qed.

Lemma lower_star (c : ascii) :
  (Chars.lower c =? "*")%char = (c =? "*")%char.
Proof. by_cases_on_char c. Qed.

Lemma toLowerCase_star (s : string) :
  Str.includes "*"%char (Str.toLowerCase s) = Str.includes "*"%char s.
Proof.
  unfold Str.toLowerCase. induction s as [| c s IH]; simpl; [reflexivity |].
  now rewrite lower_star, IH.
Qed.

(** On a step without a star the two parsers agree. *)
Lemma steps_agree (seg : string) :
  Str.includes "*"%char seg = false ->
  match parseSegment seg with
  | Some (tag, index) =>
      Regex.test PathEngine.tagStep seg = true
      /\ Nat.ltb index 1 = false
      /\ (tag =? "*") = false
      /\ exists name, captureNameAndIndex seg = (name, index)
                      /\ tag = Str.toLowerCase name
  | None =>
      Regex.test PathEngine.tagStep seg = false
      \/ Nat.ltb (snd (captureNameAndIndex seg)) 1 = true
  end.
Proof.
  intros Hstar. unfold parseSegment.
  destruct (Regex.test Patterns.segment seg) eqn:Hseg.
  - apply test_anchored in Hseg; [| reflexivity | reflexivity].
    apply Lang_segment in Hseg as (name & digits & Hstep).
    assert (Hname : NameOk name).
    { destruct Hstep as (-> & [H | ->] & _); [exact H |]. discriminate Hstar. }
    rewrite (capture_of_step _ _ _ Hstep).
    assert (Htag : Regex.test PathEngine.tagStep seg = true).
    { apply test_whole. apply Lang_tagStep. eauto. }
    destruct (Nat.ltb (Str.toNat digits) 1) eqn:Hi.
    + now right.
    + repeat split; trivial.
      * apply NameOk_not_star. now apply NameOk_lower.
      * eauto.
  - left. destruct (Regex.test PathEngine.tagStep seg) eqn:Htag; [| reflexivity].
    apply test_anchored in Htag; [| reflexivity | reflexivity].
    apply Lang_tagStep in Htag as (name & digits & Hstep & _).
    assert (Regex.test Patterns.segment seg = true); [| congruence].
    apply test_whole. apply Lang_segment. eauto.
Qed.

Lemma loops_agree (segments : list string) :
  forall parent current,
    Forall (fun seg => Str.includes "*"%char seg = false) segments ->
    match parent, current with
    | ParentElement p, Some c => p = c
    | ParentElement _, None => False
    | _, Some _ => False
    | _, None => True
    end ->
    resolveLoop segments parent current
    = match TestUtils.shadowStepsLoop segments parent with
      | Some (ParentElement e) => Some e
      | _ => None
      end.
Proof.
  induction segments as [| seg rest IH]; intros parent current Hplain Hinv;
    cbn [resolveLoop TestUtils.shadowStepsLoop].
  - destruct parent, current; try contradiction; congruence.
  - inversion Hplain as [| ? ? Hseg Hrest]; subst.
    pose proof (steps_agree seg Hseg) as Hstep.
    destruct (parseSegment seg) as [[tag index] |].
    + destruct Hstep as (Htest & Hindex & Htag & name & Hcap & ->).
      rewrite Htest, Hcap, Hindex, Htag.
      rewrite scanChildren_spec by (apply Nat.ltb_ge in Hindex; lia).
      destruct (nth_error _ (index - 1)) as [found |]; [| reflexivity].
      now apply IH.
    + destruct Hstep as [Htest | Hindex]; [now rewrite Htest |].
      destruct (Regex.test PathEngine.tagStep seg); [| reflexivity].
      destruct (captureNameAndIndex seg) as [name index]. simpl in Hindex.
      now rewrite Hindex.
Qed.

Lemma resolveShadowAbsolutePath_plain (root : Element) (path : string) :
  Str.all isPlain path = true ->
  TestUtils.resolveShadowAbsolutePath root path = resolveInShadowRoot root path.
Proof.
  intros Hplain. unfold TestUtils.resolveShadowAbsolutePath, resolveInShadowRoot.
  pose proof (split_all isPlain slash path Hplain) as Hpieces.
  assert (Htrim : List.map Str.trim (Str.split slash path) = Str.split slash path).
  { induction Hpieces as [| piece pieces Hp _ IHp]; simpl; [reflexivity |].
    now rewrite trim_plain, IHp. }
  rewrite Htrim. symmetry. apply loops_agree; [| exact I].
  unfold Str.filterBoolean. apply Forall_forall. intros seg Hin.
  apply filter_In in Hin as [Hin _]. rewrite Forall_forall in Hpieces.
  apply (includes_from_all isPlain); [now apply Hpieces | reflexivity].
Qed.

(** X24.  On a path that holds no white space and no star, the resolver of the
    extension and the resolver of the test suite find the same element, or
    both find nothing. *)
Theorem resolvers_agree (root : Element) (path : string) :
  Str.all isPlain path = true ->
  TestUtils.resolveShadowAbsolutePath root path = resolveInShadowRoot root path.
Proof. apply resolveShadowAbsolutePath_plain. Qed.

Lemma resolvers_agree_witness :
  TestUtils.resolveShadowAbsolutePath productHost "/section[1]/div[2]/span[1]"
  = Some shadowSpan.
Proof.
  rewrite (resolvers_agree productHost "/section[1]/div[2]/span[1]"); reflexivity.
Defined.

(** *** The round trip of the test suite *)

Lemma not_plain (c : ascii) :
  isPlain c = false ->
  Chars.isNameChar c = false /\ Chars.isDigit c = false
  /\ c <> "["%char /\ c <> "]"%char /\ c <> "/"%char.
Proof.
  destruct c as [[] [] [] [] [] [] [] []]; vm_compute; intros H;
    try discriminate H; repeat split; try reflexivity; discriminate.
Qed.

Lemma expectedShadowPath_plain (x : Element) :
  Forall (fun a => NameOk (localName a)) (scopePath x) ->
  Str.all isPlain (expectedShadowPath x) = true.
Proof.
  intros Hnames. apply all_from_includes. intros c Hc.
  destruct (not_plain c Hc) as (Hn & Hd & Hl & Hr & Hs).
  unfold expectedShadowPath.
  change ("/" ++ ?s) with (String "/"%char s). cbn [Str.includes].
  replace ("/"%char =? c)%char with false
    by (symmetry; apply Ascii.eqb_neq; congruence).
  cbn [orb]. apply includes_join.
  - cbn [Str.includes]. replace ("/"%char =? c)%char with false
      by (symmetry; apply Ascii.eqb_neq; congruence). reflexivity.
  - apply Forall_map. eapply Forall_impl; [| exact Hnames].
    intros a Ha. now apply shadowStep_without.
Qed.

Lemma resolveParts_step (x h : Element) (parts : list string) :
  getRootNode x = RootShadowRoot h ->
  OpenHost h ->
  Forall (fun a => NameOk (localName a)) (scopePath x) ->
  TestUtils.resolveParts (expectedShadowPath x :: parts) h
  = TestUtils.resolveParts parts x.
Proof.
  intros Hroot [kids Hopen] Hnames. cbn [TestUtils.resolveParts].
  unfold shadowRoot. rewrite Hopen.
  rewrite resolveShadowAbsolutePath_plain by now apply expectedShadowPath_plain.
  rewrite <- (getShadowAbsolutePath_spec h x).
  now rewrite resolveInShadowRoot_expected.
Qed.

Lemma resolveParts_crossings (n : nat) :
  forall e parts,
    shadowDepth e = n ->
    Forall OpenHost (hosts e) ->
    Forall (fun x => Forall (fun a => NameOk (localName a)) (scopePath x)) (crossings e) ->
    TestUtils.resolveParts
      (List.map expectedShadowPath (crossings e) ++ parts)%list (outermostHost e)
    = TestUtils.resolveParts parts e.
Proof.
  induction n as [| n IH]; intros e parts Hn Hopen Hnames;
    rewrite hosts_step in Hopen; rewrite crossings_step in Hnames |- *;
    rewrite outermostHost_step;
    destruct (getRootNode e) as [doc | h] eqn:E; try reflexivity.
  - apply getRootNode_shadowDepth in E. lia.
  - pose proof (getRootNode_shadowDepth e h E) as Hd.
    inversion Hopen as [| ? ? Hh Hhs]; subst.
    apply Forall_app in Hnames as [Hnh Hne]. inversion Hne as [| ? ? Hx _]; subst.
    rewrite map_app, <- app_assoc. simpl.
    rewrite IH by (trivial; lia).
    now apply resolveParts_step.
Qed.

Lemma split_generated (evaluate : Engine) (e : Element) :
  Forall (fun x => Forall (fun a => NameOk (localName a)) (scopePath x)) (crossings e) ->
  Str.includes bar (generateXPathInDocument evaluate (outermostHost e)) = false ->
  exists s,
    generateXPath evaluate (ElementArgument e) = Returns s
    /\ Str.filterBoolean (Str.split bar s)
       = generateXPathInDocument evaluate (outermostHost e)
         :: List.map expectedShadowPath (crossings e).
Proof.
  intros Hnames Hbar. rewrite generateXPath_spec. eexists. split; [reflexivity |].
  rewrite split_compound by (trivial; now apply crossings_without_bar).
  apply filterBoolean_id. constructor.
  - pose proof (generateXPathInDocument_rooted evaluate (outermostHost e)) as Hr.
    intros E. rewrite E in Hr. discriminate Hr.
  - apply Forall_map, Forall_forall. intros x _. discriminate.
Qed.

(** X25.  The round trip of the test suite: for an element of any kind (the
    resolver of the test suite does not ask for an [HTMLElement]) under open
    shadow roots, with local names made of [[a-zA-Z0-9_-]] inside the shadow
    trees: when the document-level part of the selector holds no bar and
    [evalXPathSingle] finds the outermost host from it, then
    [resolveGeneratedSelector] finds the element from the selector that
    [generateXPath] returns. *)
Theorem test_suite_round_trip
    (evaluate : Engine) (querySelector : Document -> string -> Outcome (option Element))
    (e : Element) :
  Forall OpenHost (hosts e) ->
  Forall (fun x => Forall (fun a => NameOk (localName a)) (scopePath x)) (crossings e) ->
  Str.includes bar (generateXPathInDocument evaluate (outermostHost e)) = false ->
  TestUtils.evalXPathSingle evaluate querySelector (ownerDocument e)
    (generateXPathInDocument evaluate (outermostHost e))
  = Gave (Some (outermostHost e)) ->
  exists s,
    generateXPath evaluate (ElementArgument e) = Returns s
    /\ TestUtils.resolveGeneratedSelector evaluate querySelector (ownerDocument e) s
       = Gave (Some e).
Proof.
  intros Hopen Hnames Hbar Hbase.
  destruct (split_generated evaluate e Hnames Hbar) as (s & Hs & Hsplit).
  exists s. split; [exact Hs |].
  unfold TestUtils.resolveGeneratedSelector. rewrite Hsplit, Hbase. f_equal.
  rewrite <- (app_nil_r (List.map expectedShadowPath (crossings e))).
  now rewrite (resolveParts_crossings (shadowDepth e) e [] eq_refl Hopen Hnames).
Qed.

Lemma test_suite_round_trip_witness :
  exists s,
    generateXPath PathEngine.evaluate (ElementArgument shadowSpan) = Returns s
    /\ TestUtils.resolveGeneratedSelector PathEngine.evaluate TestUtils.noQuerySelector
         (ownerDocument shadowSpan) s
       = Gave (Some shadowSpan).
Proof.
  apply (test_suite_round_trip PathEngine.evaluate TestUtils.noQuerySelector shadowSpan).
  - repeat constructor. now exists Sample.shadowContent.
  - repeat constructor; discriminate.
  - reflexivity.
  - reflexivity.
Defined.

(** *** The round trip when the engine supports nothing *)

Lemma rootFrom_documentFrom (ctx : list Frame) :
  forall n h,
    rootFrom n ctx = RootShadowRoot h ->
    documentFrom (toNode h) (context h) = documentFrom n ctx.
Proof.
  induction ctx as [| [before d shadow after | before d mode hostKids after] rest IH];
    simpl; intros n h H.
  - discriminate.
  - now apply IH.
  - injection H as <-. reflexivity.
Qed.

Lemma ownerDocument_outermostHost (n : nat) :
  forall e, shadowDepth e = n -> ownerDocument (outermostHost e) = ownerDocument e.
Proof.
  induction n as [| n IH]; intros e Hn; rewrite outermostHost_step;
    destruct (getRootNode e) as [doc | h] eqn:E; try reflexivity.
  - apply getRootNode_shadowDepth in E. lia.
  - pose proof (getRootNode_shadowDepth e h E) as Hd.
    rewrite IH by lia. now apply rootFrom_documentFrom in E.
Qed.

Lemma generateXPathInDocument_failing (e : Element) :
  generateXPathInDocument failingEngine e = getAbsolutePath e.
Proof.
  apply absolute_path_is_the_last_resort. intros c Hc.
  apply dedupeLoop_valid in Hc as (_ & _ & Hu). discriminate Hu.
Qed.

Lemma absoluteStep_without_bar (x : Element) :
  NameOk (tagName x) -> Str.includes bar (absoluteStep x) = false.
Proof.
  intros Hname. apply NameOk_lower in Hname.
  unfold absoluteStep, getNodeTest.
  destruct (isSvg x).
  - unfold pathStep. rewrite !includes_append.
    rewrite (NameOk_without bar _ eq_refl Hname).
    rewrite (includes_all Chars.isDigit bar _ eq_refl (ofNat_digits _)).
    reflexivity.
  - destruct Hname as [_ Hall]. apply pathStep_without; trivial; discriminate.
Qed.

Lemma getAbsolutePath_without_bar (e : Element) :
  Forall (fun a => NameOk (tagName a)) (scopePath e) ->
  Str.includes bar (getAbsolutePath e) = false.
Proof.
  intros Hnames. rewrite getAbsolutePath_spec.
  change ("/" ++ ?s) with (String "/"%char s). cbn [Str.includes].
  change (("/"%char =? bar)%char) with false. cbn [orb].
  apply includes_join; [reflexivity |].
  apply Forall_map. eapply Forall_impl; [| exact Hnames].
  intros a Ha. now apply absoluteStep_without_bar.
Qed.

Lemma localNameDescendant_shape (s : string) :
  Regex.test TestUtils.localNameDescendant s = true -> exists r, s = "//" ++ r.
Proof.
  intros H. apply test_anchored in H; [| reflexivity | reflexivity].
  cbn [TestUtils.localNameDescendant Regex.body] in H.
  apply Lang_Seq_inv in H as (p & r & -> & Hp & _).
  apply (Lang_Lit "//*[local-name()='") in Hp as ->.
  eexists. reflexivity.
Qed.

Lemma getAbsolutePath_one_slash (e : Element) :
  Forall (fun a => NameOk (tagName a)) (scopePath e) ->
  Regex.test TestUtils.localNameDescendant (getAbsolutePath e) = false.
Proof.
  intros Hnames.
  destruct (Regex.test TestUtils.localNameDescendant (getAbsolutePath e)) eqn:Ht;
    [| reflexivity].
  apply localNameDescendant_shape in Ht as (r & E). exfalso.
  rewrite getAbsolutePath_spec in E. simpl in E. injection E as E.
  pose proof (scopePath_not_nil e) as Hne.
  destruct (scopePath e) as [| a rest]; [congruence |].
  inversion Hnames as [| ? ? Ha _]; subst.
  pose proof (absoluteStep_without_slash a Ha) as Hs.
  pose proof (pathStep_not_empty (getNodeTest a) (getElementIndex a)) as Hn.
  fold (absoluteStep a) in Hn.
  cbn [List.map] in E. unfold Str.join in E. cbn [String.concat] in E.
  destruct (absoluteStep a) as [| c step]; [congruence |].
  simpl in Hs. apply orb_false_iff in Hs as [Hc _].
  destruct (List.map absoluteStep rest); simpl in E; injection E as -> _;
    discriminate Hc.
Qed.

Lemma fallback_finds_absolute_path
    (querySelector : Document -> string -> Outcome (option Element)) (e : Element) :
  shadowDepth e = 0 ->
  Forall (fun a => NameOk (tagName a) /\ PathAgrees a) (scopePath e) ->
  TestUtils.fallbackEvalXPathSingle querySelector (ownerDocument e) (getAbsolutePath e)
  = Gave (Some e).
Proof.
  intros Hdoc Hok.
  assert (Hnames : Forall (fun a => NameOk (tagName a)) (scopePath e)).
  { eapply Forall_impl; [| exact Hok]. now intros a [Ha _]. }
  pose proof (pathEngine_finds_absolute_path e Hdoc Hok) as Hwalk.
  unfold PathEngine.evaluate in Hwalk.
  unfold TestUtils.fallbackEvalXPathSingle.
  rewrite getAbsolutePath_trim in *.
  rewrite getAbsolutePath_one_slash by trivial.
  change (Str.startsWith slash (getAbsolutePath e)) with true in *.
  cbn [andb] in Hwalk. cbv iota.
  destruct (forallb PathEngine.supported _); [| discriminate].
  destruct (PathEngine.walk _ _) as [[doc | found] |]; try discriminate.
  now injection Hwalk as ->.
Qed.

(** X26.  With an engine that supports nothing the round trip of the test suite
    needs no assumption on the engine: the generator falls back on the
    absolute path of the outermost host, the fallback evaluator of the test
    suite walks it, and [resolveGeneratedSelector] finds the element, of any
    kind, under open shadow roots; the names on the way are made of
    [[a-zA-Z0-9_-]] and, in the document, no sibling before differs from an
    element of the path by letter case only. *)
Theorem round_trip_without_an_engine
    (querySelector : Document -> string -> Outcome (option Element)) (e : Element) :
  Forall OpenHost (hosts e) ->
  Forall (fun x => Forall (fun a => NameOk (localName a)) (scopePath x)) (crossings e) ->
  Forall (fun a => NameOk (tagName a) /\ PathAgrees a) (scopePath (outermostHost e)) ->
  exists s,
    generateXPath failingEngine (ElementArgument e) = Returns s
    /\ TestUtils.resolveGeneratedSelector failingEngine querySelector (ownerDocument e) s
       = Gave (Some e).
Proof.
  intros Hopen Hnames Hok.
  assert (Htags : Forall (fun a => NameOk (tagName a)) (scopePath (outermostHost e))).
  { eapply Forall_impl; [| exact Hok]. now intros a [Ha _]. }
  destruct (split_generated failingEngine e Hnames) as (s & Hs & Hsplit).
  { rewrite generateXPathInDocument_failing. now apply getAbsolutePath_without_bar. }
  exists s. split; [exact Hs |].
  unfold TestUtils.resolveGeneratedSelector. rewrite Hsplit.
  rewrite generateXPathInDocument_failing.
  unfold TestUtils.evalXPathSingle, failingEngine.
  rewrite <- (ownerDocument_outermostHost (shadowDepth e) e eq_refl).
  rewrite fallback_finds_absolute_path;
    [| now apply (outermostHost_in_document (shadowDepth e)) | exact Hok].
  f_equal.
  rewrite <- (app_nil_r (List.map expectedShadowPath (crossings e))).
  now rewrite (resolveParts_crossings (shadowDepth e) e [] eq_refl Hopen Hnames).
Qed.

Lemma round_trip_without_an_engine_witness :
  exists s,
    generateXPath failingEngine (ElementArgument svgGroup) = Returns s
    /\ TestUtils.resolveGeneratedSelector failingEngine TestUtils.noQuerySelector
         (ownerDocument svgGroup) s
       = Gave (Some svgGroup).
Proof.
  apply (round_trip_without_an_engine TestUtils.noQuerySelector svgGroup).
  - constructor.
  - constructor.
  - unfold scopePath. simpl.
    repeat constructor; try discriminate; try reflexivity.
Defined.
(** ** The history of saved selectors *)

Lemma getHistoryItems_after_set (S : Type) (area : History.StorageArea S)
                                (history : list History.HistoryItem) (s s' : S) :
  Lawful area ->
  History.set area history s = Some s' ->
  History.getHistoryItems S (Some area) s' = history.
Proof.
  intros [Hset _] H. unfold History.getHistoryItems. now rewrite (Hset _ _ _ H).
Qed.

(** X27.  After a save that the storage accepted, the history begins with the new
    item, stamped with the time of the save; the items kept before follow in
    their order, and the history holds 50 items at most: what would be the
    51st is dropped. *)
Theorem saved_item_comes_first (S : Type) (area : History.StorageArea S)
                               (now : Z) (item : History.NewItem) (s : S) :
  Lawful area ->
  History.set area
    (List.firstn History.HISTORY_LIMIT
       (History.stamp item now :: History.getHistoryItems S (Some area) s)) s
  <> None ->
  let after := History.getHistoryItems S (Some area)
                 (History.saveHistoryItem S (Some area) now item s) in
  after = History.stamp item now
          :: List.firstn 49 (History.getHistoryItems S (Some area) s)
  /\ List.length after <= 50.
Proof.
  intros Hlaw Hset. cbv zeta. unfold History.saveHistoryItem.
  destruct (History.set area _ s) as [s' |] eqn:E; [| congruence].
  rewrite (getHistoryItems_after_set _ _ _ _ _ Hlaw E).
  split; [reflexivity |]. apply firstn_le_length.
Qed.

Lemma saved_item_comes_first_witness :
  History.getHistoryItems _ (Some History.memoryArea)
    (History.saveHistoryItem _ (Some History.memoryArea) 1700000000000
       (sampleItem "//h1") None)
  = [History.stamp (sampleItem "//h1") 1700000000000].
Proof.
  destruct (saved_item_comes_first _ History.memoryArea 1700000000000
              (sampleItem "//h1") None) as [H _].
  - split; intros; simpl in *; congruence.
  - discriminate.
  - exact H.
Defined.

(** X28.  After a removal that the storage accepted, the history holds no item
    with the given time stamp, and holds every other item it held, in the
    same order. *)
Theorem removed_item_is_gone (S : Type) (area : History.StorageArea S)
                             (stampOf : Z) (s : S) :
  Lawful area ->
  History.set area
    (List.filter (fun item => negb (History.timestamp item =? stampOf)%Z)
       (History.getHistoryItems S (Some area) s)) s
  <> None ->
  let before := History.getHistoryItems S (Some area) s in
  let after := History.getHistoryItems S (Some area)
                 (History.removeHistoryItem S (Some area) stampOf s) in
  after = List.filter (fun item => negb (History.timestamp item =? stampOf)%Z) before
  /\ Forall (fun item => History.timestamp item <> stampOf) after
  /\ (forall item, In item before -> History.timestamp item <> stampOf -> In item after).
Proof.
  intros Hlaw Hset. cbv zeta. unfold History.removeHistoryItem.
  destruct (History.set area _ s) as [s' |] eqn:E; [| congruence].
  rewrite (getHistoryItems_after_set _ _ _ _ _ Hlaw E).
  split; [reflexivity |]. split.
  - apply Forall_forall. intros item Hin. apply filter_In in Hin as [_ Hne].
    apply negb_true_iff, Z.eqb_neq in Hne. exact Hne.
  - intros item Hin Hne. apply filter_In. split; [exact Hin |].
    now apply negb_true_iff, Z.eqb_neq.
Qed.

Lemma removed_item_is_gone_witness :
  History.getHistoryItems _ (Some History.memoryArea)
    (History.removeHistoryItem _ (Some History.memoryArea) 5
       (Some [History.stamp (sampleItem "//h1") 7;
              History.stamp (sampleItem "//h2") 5;
              History.stamp (sampleItem "//h3") 3]))
  = [History.stamp (sampleItem "//h1") 7; History.stamp (sampleItem "//h3") 3].
Proof.
  destruct (removed_item_is_gone _ History.memoryArea 5
              (Some [History.stamp (sampleItem "//h1") 7;
                     History.stamp (sampleItem "//h2") 5;
                     History.stamp (sampleItem "//h3") 3])) as [H _].
  - split; intros; simpl in *; congruence.
  - discriminate.
  - exact H.
Defined.

Lemma getHistoryItems_after (S : Type) (chrome : option (History.StorageArea S))
                            (c : History.Call) (s : S) :
  (forall area, chrome = Some area -> Lawful area) ->
  let before := History.getHistoryItems S chrome s in
  let after := History.getHistoryItems S chrome (History.perform S chrome c s) in
  after = before
  \/ match c with
     | History.Save now item =>
         after = List.firstn History.HISTORY_LIMIT (History.stamp item now :: before)
     | History.Remove stampOf =>
         after = List.filter (fun item => negb (History.timestamp item =? stampOf)%Z) before
     | History.Clear => after = []
     end.
Proof.
  intros Hlaw. cbv zeta.
  destruct chrome as [area |]; [| now left].
  specialize (Hlaw area eq_refl).
  destruct c as [now item | stampOf |]; cbn [History.perform].
  - unfold History.saveHistoryItem.
    destruct (History.set area _ s) as [s' |] eqn:E; [| now left].
    right. exact (getHistoryItems_after_set _ _ _ s s' Hlaw E).
  - unfold History.removeHistoryItem.
    destruct (History.set area _ s) as [s' |] eqn:E; [| now left].
    right. exact (getHistoryItems_after_set _ _ _ s s' Hlaw E).
  - unfold History.clearHistory.
    destruct (History.remove area s) as [s' |] eqn:E; [| now left].
    right. destruct Hlaw as [_ Hremove]. unfold History.getHistoryItems at 1.
    now rewrite (Hremove s s' E).
Qed.

(** X29.  Whatever the page calls, and whether the storage accepts a call or
    rejects it, a history of 50 items at most stays one: the history never
    grows beyond 50 items. *)
Theorem history_stays_bounded (S : Type) (chrome : option (History.StorageArea S))
                              (calls : list History.Call) (s : S) :
  (forall area, chrome = Some area -> Lawful area) ->
  List.length (History.getHistoryItems S chrome s) <= 50 ->
  List.length (History.getHistoryItems S chrome (History.performAll S chrome calls s)) <= 50.
Proof.
  intros Hlaw. revert s. unfold History.performAll.
  induction calls as [| c calls IH]; intros s Hs; cbn [fold_left]; [exact Hs |].
  apply IH.
  destruct (getHistoryItems_after S chrome c s Hlaw) as [-> | H]; [exact Hs |].
  destruct c; rewrite H.
  - apply firstn_le_length.
  - pose proof (filter_length_le
                  (fun item => negb (History.timestamp item =? stampOf)%Z)
                  (History.getHistoryItems S chrome s)). lia.
  - simpl. lia.
Qed.

Lemma history_stays_bounded_witness :
  List.length
    (History.getHistoryItems _ (Some History.memoryArea)
       (History.performAll _ (Some History.memoryArea)
          [History.Save 1 (sampleItem "//h1"); History.Clear;
           History.Save 2 (sampleItem "//h2"); History.Remove 1]
          None)) <= 50.
Proof.
  apply (history_stays_bounded _ (Some History.memoryArea)).
  - intros area [= <-]. split; intros; simpl in *; congruence.
  - simpl. lia.
Defined.

Lemma NewestFirst_later (items : list History.HistoryItem) (latest latest' : Z) :
  NewestFirst latest items -> (latest <= latest')%Z -> NewestFirst latest' items.
Proof.
  destruct items as [| item rest]; simpl; [trivial |]. intros [H1 H2] Hle.
  split; [lia | exact H2].
Qed.

Lemma NewestFirst_firstn (n : nat) :
  forall items latest, NewestFirst latest items -> NewestFirst latest (List.firstn n items).
Proof.
  induction n as [| n IH]; intros [| item rest] latest; simpl; trivial.
  intros [H1 H2]. split; [exact H1 | now apply IH].
Qed.

Lemma NewestFirst_filter (p : History.HistoryItem -> bool) (items : list History.HistoryItem) :
  forall latest, NewestFirst latest items -> NewestFirst latest (List.filter p items).
Proof.
  induction items as [| item rest IH]; intros latest; simpl; [trivial |].
  intros [H1 H2]. destruct (p item); simpl.
  - split; [exact H1 | now apply IH].
  - apply IH. now apply NewestFirst_later with (History.timestamp item).
Qed.

(** X30.  As long as the clock does not go back, the history stays in the order of
    the time stamps, the newest item first, whatever the page calls and
    whether the storage accepts a call or rejects it. *)
Theorem history_stays_newest_first (S : Type) (chrome : option (History.StorageArea S))
                                   (calls : list History.Call) :
  (forall area, chrome = Some area -> Lawful area) ->
  forall (s : S) (latest : Z),
    Chronological latest calls ->
    NewestFirst latest (History.getHistoryItems S chrome s) ->
    exists latest',
      NewestFirst latest'
        (History.getHistoryItems S chrome (History.performAll S chrome calls s)).
Proof.
  intros Hlaw. unfold History.performAll.
  induction calls as [| c calls IH]; intros s latest Hclock Hs; cbn [fold_left].
  - now exists latest.
  - destruct (getHistoryItems_after S chrome c s Hlaw) as [E | E].
    + destruct c as [now item | stampOf |]; simpl in Hclock.
      * destruct Hclock as [Hle Hclock]. apply (IH _ now Hclock).
        rewrite E. now apply NewestFirst_later with latest.
      * apply (IH _ latest Hclock). now rewrite E.
      * apply (IH _ latest Hclock). now rewrite E.
    + destruct c as [now item | stampOf |]; simpl in Hclock.
      * destruct Hclock as [Hle Hclock]. apply (IH _ now Hclock).
        rewrite E. apply NewestFirst_firstn. simpl. split; [lia |].
        now apply NewestFirst_later with latest.
      * apply (IH _ latest Hclock). rewrite E. now apply NewestFirst_filter.
      * apply (IH _ latest Hclock). rewrite E. exact I.
Qed.

Lemma history_stays_newest_first_witness :
  exists latest,
    NewestFirst latest
      (History.getHistoryItems _ (Some History.memoryArea)
         (History.performAll _ (Some History.memoryArea)
            [History.Save 1 (sampleItem "//h1"); History.Save 2 (sampleItem "//h2");
             History.Remove 1; History.Save 2 (sampleItem "//h3")]
            None)).
Proof.
  apply (history_stays_newest_first _ (Some History.memoryArea)) with (latest := 0%Z).
  - intros area [= <-]. split; intros; simpl in *; congruence.
  - simpl. lia.
  - exact I.
Defined.
